(** * iopath: Azure blob stream adapters and the non-blocking IO manager

    A shallow embedding of

    - [iopath/common/azure_blob.py]: [AzureBlobReader], [AzureBlobWriter]
      and, of [AzureBlobPathHandler], the URI and path logic, the client
      cache, [_open] and [_wait_for_copy],
    - [iopath/common/non_blocking_io.py]: [NonBlockingIOManager] and
      [NonBlockingIO],

    together with the properties their specification states and further
    properties that the code has.

    Conventions.

    - Python objects are records; a method is a function from the object's
      state to an outcome (a value or a raised exception) and the next state.
      An exception does not roll the state back.
    - Python [int]s are [Z]; [bytes] are [list byte]; [str] is [string].
    - The Azure [BlobClient] is an external collaborator.  It is modelled as
      a log of the calls the writer issues ([stage_block],
      [commit_block_list]) and, for the reader, as the list of chunks that
      [StorageStreamDownloader.chunks()] is going to yield.  Transport errors
      are outside the model, and so are the [logging] calls.
    - Threads of the IO manager are modelled by their observable state: the
      items still pending in the queue and whether the polling thread is
      alive.  [Thread.join] runs the polling loop to its end. *)

From stdpp Require Import base list gmap strings numbers.
From Stdlib.Strings Require Import Byte.

Local Open Scope Z_scope.

(** ** Python values *)

Abbreviation bytes := (list byte).

(** The exceptions the two modules can raise or see. *)
Inductive exn : Type :=
  | StopIteration
  | AssertionError
  | UnsupportedOperation
  | ValueError (msg : string)
  | KeyError (key : string)
  | RuntimeError (msg : string).

Inductive outcome (A : Type) : Type :=
  | Return (a : A)
  | Raise (e : exn).
Arguments Return {A} a.
Arguments Raise {A} e.

(** A method over an object of state [St]. *)
Definition M (St A : Type) : Type := St → outcome A * St.

Definition ret {St A} (a : A) : M St A := λ s, (Return a, s).
Definition raise {St A} (e : exn) : M St A := λ s, (Raise e, s).
Definition bind {St A B} (m : M St A) (k : A → M St B) : M St B :=
  λ s, match m s with
       | (Return a, s') => k a s'
       | (Raise e, s') => (Raise e, s')
       end.
Definition get {St} : M St St := λ s, (Return s, s).
Definition put {St} (s : St) : M St unit := λ _, (Return tt, s).
Definition modify {St} (f : St → St) : M St unit := λ s, (Return tt, f s).

(** [try: m except e: h] for one exception class. *)
Definition try_except {St A} (m : M St A) (catches : exn → bool)
    (h : M St A) : M St A :=
  λ s, match m s with
       | (Raise e, s') => if catches e then h s' else (Raise e, s')
       | r => r
       end.

Declare Scope py_scope.
Delimit Scope py_scope with py.
Notation "'let*' x := m 'in' k" := (bind m (λ x, k))
  (at level 10, x pattern, m at level 100, k at level 200) : py_scope.
Notation "'do' m 'then' k" := (bind m (λ _, k))
  (at level 10, m at level 100, k at level 200) : py_scope.

(** [len(x)] *)
Definition len {A} (l : list A) : Z := Z.of_nat (length l).

(** [l[lo:hi]] with Python's treatment of negative and out-of-range bounds. *)
Definition slice_index {A} (l : list A) (i : Z) : nat :=
  if i <? 0 then Z.to_nat (Z.max (i + len l) 0)
  else Z.to_nat (Z.min i (len l)).

Definition py_slice {A} (l : list A) (lo hi : Z) : list A :=
  drop (slice_index l lo) (take (slice_index l hi) l).

(** ** [io.BytesIO] *)

Module BytesIO.
Record t := { buf : bytes; pos : nat }.

Definition new : t := {| buf := []; pos := 0 |}.

Definition tell (s : t) : Z := Z.of_nat (pos s).

Definition seek (s : t) (offset : nat) : t :=
  {| buf := buf s; pos := offset |}.

(** [write(b)]: overwrite from the current position, extending the buffer
    (with zero bytes first when the position is past the end). *)
Definition write (s : t) (b : bytes) : Z * t :=
  let pad := replicate (pos s - length (buf s))%nat "000"%byte in
  (len b,
   {| buf := take (pos s) (buf s) ++ pad ++ b
             ++ drop (pos s + length b)%nat (buf s);
      pos := (pos s + length b)%nat |}).

(** [read(n)] for [n >= 0]. *)
Definition read (s : t) (n : Z) : bytes * t :=
  let data := take (Z.to_nat n) (drop (pos s) (buf s)) in
  (data, {| buf := buf s; pos := (pos s + length data)%nat |}).
End BytesIO.

(** ** [base64.urlsafe_b64encode] and ["{0:05}".format] *)

Definition b64_alphabet : bytes :=
  String.list_byte_of_string
    "ABCDEFGHIJKLMNOPQRSTUVWXYZabcdefghijklmnopqrstuvwxyz0123456789-_".

Definition b64_char (n : N) : byte :=
  nth (N.to_nat n) b64_alphabet "="%byte.

(** The 24-bit group of three input bytes and its four sextets. *)
Definition b64_group (a b c : byte) : N :=
  (Byte.to_N a * 65536 + Byte.to_N b * 256 + Byte.to_N c)%N.

Definition b64_sextet (n : N) (k : N) : N :=
  ((n / 2 ^ (6 * k)) mod 64)%N.

Fixpoint urlsafe_b64encode (s : bytes) : bytes :=
  match s with
  | [] => []
  | [a] =>
      let n := b64_group a "000" "000" in
      [b64_char (b64_sextet n 3); b64_char (b64_sextet n 2);
       "="%byte; "="%byte]
  | [a; b] =>
      let n := b64_group a b "000" in
      [b64_char (b64_sextet n 3); b64_char (b64_sextet n 2);
       b64_char (b64_sextet n 1); "="%byte]
  | a :: b :: c :: rest =>
      let n := b64_group a b c in
      b64_char (b64_sextet n 3) :: b64_char (b64_sextet n 2)
      :: b64_char (b64_sextet n 1) :: b64_char (b64_sextet n 0)
      :: urlsafe_b64encode rest
  end.

Definition digit_char (d : N) : byte :=
  nth (N.to_nat d) (String.list_byte_of_string "0123456789") "0"%byte.

(** Decimal digits, most significant first; [fuel] bounds their number. *)
Fixpoint dec_digits (fuel : nat) (n : N) : bytes :=
  match fuel with
  | O => []
  | S fuel' =>
      if (n <? 10)%N then [digit_char n]
      else dec_digits fuel' (n / 10)%N ++ [digit_char (n mod 10)%N]
  end.

(** [str(n)] for [n >= 0]: a number has no more decimal digits than bits. *)
Definition str_of_N (n : N) : bytes :=
  dec_digits (S (N.to_nat (N.log2 n))) n.

(** [s.zfill(width)] on a digit string. *)
Definition zfill (width : nat) (s : bytes) : bytes :=
  replicate (width - length s)%nat "0"%byte ++ s.

(** ["{0:05}".format(i)]: sign-aware zero padding to width 5. *)
Definition format_05 (i : Z) : string :=
  String.string_of_list_byte
    (if i <? 0 then "-"%byte :: zfill 4 (str_of_N (Z.to_N (- i)))
     else zfill 5 (str_of_N (Z.to_N i))).

(** [s.encode("utf-8")] and [b.decode("utf-8")], on ASCII text. *)
Definition encode_utf8 (s : string) : bytes := String.list_byte_of_string s.
Definition decode_utf8 (b : bytes) : string := String.string_of_list_byte b.

(** The three lines of [_new_block_id] that turn an index into an id. *)
Definition block_id_of (idx : Z) : string :=
  let block_id := encode_utf8 (format_05 idx) in
  let block_id := urlsafe_b64encode block_id in
  decode_utf8 block_id.

(** ** Reading a block id back

    The inverse of [block_id_of]: [int(base64.urlsafe_b64decode(id))].  It is
    not part of the writer; the properties use it to speak about the index
    that an identifier decodes to. *)

Fixpoint index_of (c : byte) (l : bytes) : option N :=
  match l with
  | [] => None
  | x :: l' => if Byte.eqb c x then Some 0%N else N.succ <$> index_of c l'
  end.

Definition b64_index (c : byte) : option N := index_of c b64_alphabet.

Definition b64_bytes (n : N) : option (byte * byte * byte) :=
  a ← Byte.of_N (n / 65536)%N;
  b ← Byte.of_N ((n / 256) mod 256)%N;
  c ← Byte.of_N (n mod 256)%N;
  Some (a, b, c).

Definition b64_ungroup (c3 c2 c1 c0 : byte) : option (byte * byte * byte) :=
  s3 ← b64_index c3; s2 ← b64_index c2;
  s1 ← b64_index c1; s0 ← b64_index c0;
  b64_bytes (((s3 * 64 + s2) * 64 + s1) * 64 + s0)%N.

Fixpoint urlsafe_b64decode (s : bytes) : option bytes :=
  match s with
  | [] => Some []
  | c3 :: c2 :: c1 :: c0 :: rest =>
      if Byte.eqb c0 "="%byte then
        match rest with
        | [] =>
            if Byte.eqb c1 "="%byte then
              '(a, _, _) ← b64_ungroup c3 c2 "A" "A"; Some [a]
            else
              '(a, b, _) ← b64_ungroup c3 c2 c1 "A"; Some [a; b]
        | _ => None
        end
      else
        '(a, b, c) ← b64_ungroup c3 c2 c1 c0;
        tail ← urlsafe_b64decode rest;
        Some (a :: b :: c :: tail)
  | _ => None
  end.

Definition digit_value (c : byte) : option N :=
  index_of c (String.list_byte_of_string "0123456789").

Fixpoint parse_digits (acc : N) (s : bytes) : option N :=
  match s with
  | [] => Some acc
  | c :: s' => d ← digit_value c; parse_digits (acc * 10 + d)%N s'
  end.

(** [int(s)] on an optional sign followed by digits. *)
Definition parse_int (s : bytes) : option Z :=
  match s with
  | [] => None
  | c :: s' =>
      if Byte.eqb c "-"%byte then
        match s' with
        | [] => None
        | _ => (λ n, - Z.of_N n) <$> parse_digits 0 s'
        end
      else Z.of_N <$> parse_digits 0 s
  end.

Definition decode_block_id (block_id : string) : option Z :=
  urlsafe_b64decode (encode_utf8 block_id) ≫= parse_int.

(** ** The Azure [BlobClient], as the writer sees it

    The client records its calls.  [consumes_stream] says whether
    [stage_block] leaves the stream it was handed at the end of the bytes it
    sent (a transport that reads the stream) or where it found it. *)

Module BlobClient.
Record t := {
  blob_name : string;
  consumes_stream : bool;
  staged : list (string * bytes);
  committed : list (list string) }.

Definition new (name : string) (consumes : bool) : t :=
  {| blob_name := name; consumes_stream := consumes;
     staged := []; committed := [] |}.

(** [stage_block(block_id, data, length)]: sends [length] bytes read from
    [data]; returns the stream as the call leaves it. *)
Definition stage_block (block_id : string) (data : BytesIO.t) (length : Z)
    : M t BytesIO.t :=
  λ c, let '(payload, data') := BytesIO.read data length in
       (Return (if consumes_stream c then data' else data),
        {| blob_name := blob_name c; consumes_stream := consumes_stream c;
           staged := staged c ++ [(block_id, payload)];
           committed := committed c |}).

(** [commit_block_list(blocks)] *)
Definition commit_block_list (blocks : list string) : M t unit :=
  λ c, (Return tt,
        {| blob_name := blob_name c; consumes_stream := consumes_stream c;
           staged := staged c; committed := committed c ++ [blocks] |}).

(** The bytes of the most recently staged block named [block_id]. *)
Fixpoint staged_block (blocks : list (string * bytes)) (block_id : string)
    : bytes :=
  match blocks with
  | [] => []
  | (i, data) :: rest =>
      if existsb (String.eqb block_id) rest.*1 then staged_block rest block_id
      else if String.eqb block_id i then data
      else staged_block rest block_id
  end.

(** What a reader of the blob sees: nothing before the first commit, then
    the blocks of the last committed list, in the list's order. *)
Definition blob_content (c : t) : bytes :=
  match list.last (committed c) with
  | None => []
  | Some ids => concat (map (staged_block (staged c)) ids)
  end.
End BlobClient.

(** ** [class AzureBlobWriter] *)

Module AzureBlobWriter.
Record t := {
  _client : BlobClient.t;
  _chunk_size : Z;
  _chunk_idx : Z;
  _chunk : option BytesIO.t;
  _blocks : list string }.

Definition set_client (c : BlobClient.t) (self : t) : t :=
  {| _client := c; _chunk_size := _chunk_size self;
     _chunk_idx := _chunk_idx self; _chunk := _chunk self;
     _blocks := _blocks self |}.
Definition set_chunk_idx (i : Z) (self : t) : t :=
  {| _client := _client self; _chunk_size := _chunk_size self;
     _chunk_idx := i; _chunk := _chunk self; _blocks := _blocks self |}.
Definition set_chunk (c : option BytesIO.t) (self : t) : t :=
  {| _client := _client self; _chunk_size := _chunk_size self;
     _chunk_idx := _chunk_idx self; _chunk := c; _blocks := _blocks self |}.
Definition set_blocks (b : list string) (self : t) : t :=
  {| _client := _client self; _chunk_size := _chunk_size self;
     _chunk_idx := _chunk_idx self; _chunk := _chunk self; _blocks := b |}.

(** A call on [self._client]. *)
Definition on_client {A} (m : M BlobClient.t A) : M t A :=
  λ self, let '(r, c) := m (_client self) in (r, set_client c self).

Definition __init__ (client : BlobClient.t) (chunk_size : Z) : t :=
  {| _client := client; _chunk_size := chunk_size; _chunk_idx := -1;
     _chunk := None; _blocks := [] |}.

Local Open Scope py_scope.

Definition _new_block_id : M t string :=
  do modify (λ self, set_chunk_idx (_chunk_idx self + 1) self) then
  let* self := get in
  ret (block_id_of (_chunk_idx self)).

Definition flush : M t unit :=
  let* self := get in
  match _chunk self with
  | None => ret tt
  | Some chunk =>
      if BytesIO.tell chunk =? 0 then ret tt
      else
        let* block_id := _new_block_id in
        let block_length := BytesIO.tell chunk in
        let chunk := BytesIO.seek chunk 0 in
        let* chunk :=
          on_client (BlobClient.stage_block block_id chunk block_length) in
        do modify (set_chunk (Some chunk)) then
        modify (λ self, set_blocks (_blocks self ++ [block_id]) self)
  end.

Definition _next_chunk : M t unit :=
  do flush then
  modify (set_chunk (Some BytesIO.new)).

(** [self._chunk is None or self._chunk.tell() >= self._chunk_size] *)
Definition chunk_is_full (self : t) : bool :=
  match _chunk self with
  | None => true
  | Some chunk => _chunk_size self <=? BytesIO.tell chunk
  end.

Definition _append_to_chunk (b : bytes) : M t Z :=
  let* self := get in
  do (if chunk_is_full self then _next_chunk else ret tt) then
  let* self := get in
  match _chunk self with
  | None => raise AssertionError
  | Some chunk =>
      let '(n, chunk) := BytesIO.write chunk b in
      do modify (set_chunk (Some chunk)) then
      ret n
  end.

Definition write (b : bytes) : M t Z := _append_to_chunk b.

Definition close : M t unit :=
  do flush then
  let* self := get in
  if bool_decide (_blocks self ≠ []) then
    on_client (BlobClient.commit_block_list (_blocks self))
  else ret tt.

(** The calls a user of the stream makes, and a run of them. *)
Inductive call := Write (b : bytes) | Flush | Close.

Definition do_call (c : call) : M t unit :=
  match c with
  | Write b => do write b then ret tt
  | Flush => flush
  | Close => close
  end.

Fixpoint do_calls (cs : list call) : M t unit :=
  match cs with
  | [] => ret tt
  | c :: cs' => do do_call c then do_calls cs'
  end.

(** The bytes the buffer holds: what [tell()] counts. *)
Definition buffered (self : t) : bytes :=
  match _chunk self with
  | None => []
  | Some chunk => take (BytesIO.pos chunk) (BytesIO.buf chunk)
  end.

(** The bytes staged so far, in staging order. *)
Definition staged_bytes (self : t) : bytes :=
  concat (BlobClient.staged (_client self)).*2.

(** Invariant: the position of the buffer never passes its end. *)
Definition buffer_ok (self : t) : Prop :=
  match _chunk self with
  | None => True
  | Some chunk => (BytesIO.pos chunk ≤ length (BytesIO.buf chunk))%nat
  end.

(** Invariant: the identifiers are those of the indices
    [0 .. _chunk_idx], one per staged block. *)
Definition ids_ok (self : t) : Prop :=
  -1 ≤ _chunk_idx self
  ∧ _blocks self = block_id_of <$> seqZ 0 (_chunk_idx self + 1)
  ∧ (BlobClient.staged (_client self)).*1 = _blocks self.
End AzureBlobWriter.

(** ** The chunk iterator of a download stream

    [stream.chunks()]: the chunks the backend has not yielded yet.
    [next_calls] counts the calls of [next] (it is not part of the Python
    object; it lets the properties speak about chunk fetches). *)

Module ChunkIter.
Record t := { pending : list bytes; next_calls : nat }.

Definition new (chunks : list bytes) : t :=
  {| pending := chunks; next_calls := 0 |}.

Definition next : M t bytes :=
  λ it, match pending it with
        | [] => (Raise StopIteration,
                 {| pending := []; next_calls := S (next_calls it) |})
        | c :: rest => (Return c,
                 {| pending := rest; next_calls := S (next_calls it) |})
        end.
End ChunkIter.

(** ** [class AzureBlobReader] *)

Module AzureBlobReader.
Record t := {
  _chunk_iter : ChunkIter.t;
  _chunk_size : Z;
  _chunk : option bytes;
  _chunk_pos : Z }.

Definition set_chunk_iter (it : ChunkIter.t) (self : t) : t :=
  {| _chunk_iter := it; _chunk_size := _chunk_size self;
     _chunk := _chunk self; _chunk_pos := _chunk_pos self |}.
Definition set_chunk (c : option bytes) (self : t) : t :=
  {| _chunk_iter := _chunk_iter self; _chunk_size := _chunk_size self;
     _chunk := c; _chunk_pos := _chunk_pos self |}.
Definition set_chunk_pos (p : Z) (self : t) : t :=
  {| _chunk_iter := _chunk_iter self; _chunk_size := _chunk_size self;
     _chunk := _chunk self; _chunk_pos := p |}.

(** A call on [self._chunk_iter]. *)
Definition on_chunk_iter {A} (m : M ChunkIter.t A) : M t A :=
  λ self, let '(r, it) := m (_chunk_iter self) in (r, set_chunk_iter it self).

(** [chunks] is what [client.download_blob().chunks()] will yield. *)
Definition __init__ (chunks : list bytes) (chunk_size : Z) : t :=
  {| _chunk_iter := ChunkIter.new chunks; _chunk_size := chunk_size;
     _chunk := None; _chunk_pos := 0 |}.

Local Open Scope py_scope.

Definition _next_chunk : M t unit :=
  let* chunk := on_chunk_iter ChunkIter.next in
  do modify (set_chunk (Some chunk)) then
  modify (set_chunk_pos 0).

(** [self._chunk is None or self._chunk_pos >= len(self._chunk)] *)
Definition chunk_is_consumed (self : t) : bool :=
  match _chunk self with
  | None => true
  | Some chunk => len chunk <=? _chunk_pos self
  end.

Definition is_StopIteration (e : exn) : bool :=
  match e with StopIteration => true | _ => false end.

Definition _get_chunk_data (size : Z) : M t bytes :=
  if size =? 0 then ret []
  else
    try_except
      (let* self := get in
       do (if chunk_is_consumed self then _next_chunk else ret tt) then
       let* self := get in
       match _chunk self with
       | None => raise AssertionError
       | Some chunk =>
           let data :=
             py_slice chunk (_chunk_pos self) (_chunk_pos self + size) in
           do modify (set_chunk_pos (_chunk_pos self + len data)) then
           ret data
       end)
      is_StopIteration
      (ret []).

(** The loop of [readinto]: [data] is the slice read last, [stream] what
    the sink has received.  [None] when [fuel] iterations did not reach
    the end of the loop. *)
Fixpoint readinto_loop (fuel : nat) (size : Z) (data stream : bytes)
    (self : t) : option (outcome bytes * t) :=
  match fuel with
  | O => None
  | S fuel' =>
      if 0 <? len data then
        let stream := stream ++ data in
        match _get_chunk_data size self with
        | (Return data, self) => readinto_loop fuel' size data stream self
        | (Raise e, self) => Some (Raise e, self)
        end
      else Some (Return stream, self)
  end.

(** The bytes that have not been handed out yet. *)
Definition unread (self : t) : bytes :=
  match _chunk self with
  | None => []
  | Some chunk => drop (Z.to_nat (_chunk_pos self)) chunk
  end ++ concat (ChunkIter.pending (_chunk_iter self)).

(** [readinto(stream)]; the result is the sink's content.  Every
    iteration but the last hands out a byte at least, which bounds the
    loop by the unread bytes. *)
Definition readinto (stream : bytes) (self : t)
    : option (outcome bytes * t) :=
  let size := _chunk_size self in
  match _get_chunk_data size self with
  | (Return data, self') =>
      readinto_loop (S (length (unread self))) size data stream self'
  | (Raise e, self') => Some (Raise e, self')
  end.

(** [readall()]: [readinto] a fresh [BytesIO], then [getvalue()]. *)
Definition readall (self : t) : option (outcome bytes * t) :=
  readinto [] self.

Definition read (size : Z) (self : t) : option (outcome bytes * t) :=
  if size <? 0 then readall self
  else Some (_get_chunk_data size self).

Definition seek : M t Z := raise UnsupportedOperation.
Definition tell : M t Z := raise UnsupportedOperation.
Definition write (b : bytes) : M t Z := raise UnsupportedOperation.

(** A run of [read] calls; the results in call order. *)
Fixpoint reads (sizes : list Z) (self : t)
    : option (outcome (list bytes) * t) :=
  match sizes with
  | [] => Some (Return [], self)
  | size :: sizes' =>
      match read size self with
      | None => None
      | Some (Raise e, self') => Some (Raise e, self')
      | Some (Return data, self') =>
          match reads sizes' self' with
          | Some (Return datas, self'') => Some (Return (data :: datas), self'')
          | r => r
          end
      end
  end.

(** The state a reader is in between calls. *)
Definition wf (self : t) : Prop :=
  match _chunk self with
  | None => _chunk_pos self = 0
  | Some chunk => 0 ≤ _chunk_pos self ≤ len chunk
  end.
End AzureBlobReader.

(** ** The synchronous file objects behind the [NonBlockingIO] handles

    [open()] returns a file object.  The model is that of a file opened for
    writing bytes (mode ["wb"]): it keeps what was written through it and
    whether it was closed, and a write through a closed file object raises
    [ValueError].  File objects of other modes (read-only ones and text
    ones, on which a write of bytes raises) are outside the model. *)

Module File.
Record t := { closed : bool; written : bytes }.

Definition new : t := {| closed := false; written := [] |}.

Definition write (b : bytes) : M t Z :=
  λ f, if closed f then
         (Raise (ValueError "write to closed file"), f)
       else (Return (len b), {| closed := false; written := written f ++ b |}).

Definition close : M t unit :=
  λ f, (Return tt, {| closed := true; written := written f |}).
End File.

(** The closures a handle gives to the manager: [lambda: self._file.write(b)]
    and [lambda: self._file.close()], over the file object [file]. *)
Inductive job : Type :=
  | FileWrite (file : nat) (b : bytes)
  | FileClose (file : nat).

(** Calling the closure. *)
Definition call_job (j : job) : M (gmap nat File.t) unit :=
  λ files,
    match j with
    | FileWrite file b =>
        match files !! file with
        | None => (Raise (ValueError "no such file object"), files)
        | Some f =>
            let '(r, f') := File.write b f in
            (match r with Return _ => Return tt | Raise e => Raise e end,
             <[file := f']> files)
        end
    | FileClose file =>
        match files !! file with
        | None => (Raise (ValueError "no such file object"), files)
        | Some f => let '(r, f') := File.close f in (r, <[file := f']> files)
        end
    end.

(** The closures called one after the other, up to the first that raises. *)
Fixpoint call_jobs (jobs : list job) : M (gmap nat File.t) unit :=
  match jobs with
  | [] => ret tt
  | j :: jobs' => bind (call_job j) (λ _, call_jobs jobs')
  end.

(** What a polling thread is doing. *)
Inductive thread_state : Type :=
  | Polling                 (* in the loop, blocked on [queue.get()] when the
                               queue is empty *)
  | Finished                (* left the loop on the [None] item *)
  | Died (e : exn).         (* an exception ended the thread *)

(** [concurrent.futures.ThreadPoolExecutor]: whether [shutdown()] was
    called, and the jobs it ran, in order (the second is not part of the
    Python object; it lets the properties speak about executed jobs). *)
Module Pool.
Record t := { is_shutdown : bool; executed : list job }.

Definition new : t := {| is_shutdown := false; executed := [] |}.

Definition shutdown (p : t) : t :=
  {| is_shutdown := true; executed := executed p |}.
End Pool.

(** ** [class PathData] *)

Module PathData.
Record t := {
  queue : list (option job);   (* items not taken yet, oldest first *)
  thread : nat;                (* which [Thread] object *)
  thread_status : thread_state }.

(** [queue.put(item)] *)
Definition put (item : option job) (pd : t) : t :=
  {| queue := queue pd ++ [item]; thread := thread pd;
     thread_status := thread_status pd |}.
End PathData.

(** ** [class NonBlockingIOManager]

    Besides [_path_to_data] and [_pool], the state holds the file objects of
    the process and the number of [Thread] objects created so far. *)

Module NonBlockingIOManager.
Record t := {
  _path_to_data : gmap string PathData.t;
  _pool : Pool.t;
  files : gmap nat File.t;
  threads_created : nat }.

Definition set_path_to_data (d : gmap string PathData.t) (self : t) : t :=
  {| _path_to_data := d; _pool := _pool self; files := files self;
     threads_created := threads_created self |}.

(** The singleton, as [__new__] first creates it. *)
Definition __new__ : t :=
  {| _path_to_data := ∅; _pool := Pool.new; files := ∅;
     threads_created := 0 |}.

(** [_poll_jobs(queue)], run on the items the queue holds: the loop takes
    them in order.  Result: the thread's state, the items left and the
    effect on the pool and the files.  With no item left the thread stays
    blocked in [queue.get()]. *)
Fixpoint _poll_jobs (items : list (option job)) (pool : Pool.t)
    (fs : gmap nat File.t)
    : thread_state * list (option job) * Pool.t * gmap nat File.t :=
  match items with
  | [] => (Polling, [], pool, fs)
  | None :: rest => (Finished, rest, pool, fs)
  | Some item :: rest =>
      (* self._pool.submit(item).result() *)
      if Pool.is_shutdown pool then
        (Died (RuntimeError "cannot schedule new futures after shutdown"),
         rest, pool, fs)
      else
        let pool :=
          {| Pool.is_shutdown := false;
             Pool.executed := Pool.executed pool ++ [item] |} in
        match call_job item fs with
        | (Return _, fs) => _poll_jobs rest pool fs
        | (Raise e, fs) => (Died e, rest, pool, fs)
        end
  end.

(** The polling thread of [pd] runs as far as it can. *)
Definition run_thread (pd : PathData.t) (pool : Pool.t)
    (fs : gmap nat File.t) : PathData.t * Pool.t * gmap nat File.t :=
  match PathData.thread_status pd with
  | Polling =>
      let '(st, rest, pool, fs) := _poll_jobs (PathData.queue pd) pool fs in
      ({| PathData.queue := rest; PathData.thread := PathData.thread pd;
          PathData.thread_status := st |}, pool, fs)
  | _ => (pd, pool, fs)
  end.

(** A scheduling event between two calls: the polling thread of [path]
    gets to run. *)
Definition schedule (path : string) (self : t) : t :=
  match _path_to_data self !! path with
  | None => self
  | Some pd =>
      let '(pd, pool, fs) := run_thread pd (_pool self) (files self) in
      {| _path_to_data := <[path := pd]> (_path_to_data self);
         _pool := pool; files := fs;
         threads_created := threads_created self |}
  end.

(** [open(...)] in [NonBlockingIO.__init__]: a new file object.  The model
    follows the calls in which [open] returns; when it raises, the
    exception leaves [get_non_blocking_io] after the registration of the
    path, and no handle is returned. *)
Definition open_file (self : t) : nat * t :=
  let file := fresh (dom (files self)) in
  (file,
   {| _path_to_data := _path_to_data self; _pool := _pool self;
      files := <[file := File.new]> (files self);
      threads_created := threads_created self |}).
End NonBlockingIOManager.

(** ** [class NonBlockingIO] *)

Module NonBlockingIO.
Record t := { _path : string; _mode : string; _file : nat }.

(** [notify_manager], the lambda of [get_non_blocking_io]:
    [self._path_to_data[path].queue.put(io_callable)]. *)
Definition _notify_manager (path : string) (io_callable : job)
    : M NonBlockingIOManager.t unit :=
  λ m, match NonBlockingIOManager._path_to_data m !! path with
       | None => (Raise (KeyError path), m)
       | Some pd =>
           (Return tt,
            NonBlockingIOManager.set_path_to_data
              (<[path := PathData.put (Some io_callable) pd]>
                 (NonBlockingIOManager._path_to_data m)) m)
       end.

Definition close (self : t) : M NonBlockingIOManager.t unit :=
  _notify_manager (_path self) (FileClose (_file self)).

Definition write (self : t) (b : bytes) : M NonBlockingIOManager.t unit :=
  _notify_manager (_path self) (FileWrite (_file self) b).

(** The calls made on a handle, and the closure each one builds. *)
Inductive call := Write (b : bytes) | Close.

Definition job_of (self : t) (c : call) : job :=
  match c with
  | Write b => FileWrite (_file self) b
  | Close => FileClose (_file self)
  end.

Definition do_call (self : t) (c : call) : M NonBlockingIOManager.t unit :=
  match c with
  | Write b => write self b
  | Close => close self
  end.

Fixpoint do_calls (self : t) (cs : list call)
    : M NonBlockingIOManager.t unit :=
  match cs with
  | [] => ret tt
  | c :: cs' => bind (do_call self c) (λ _, do_calls self cs')
  end.
End NonBlockingIO.

(** ** [NonBlockingIOManager.get_non_blocking_io] and [._join]

    The two methods that build or end what a handle refers to; they come
    after [NonBlockingIO] because the first returns a handle. *)

Module Manager.
Import NonBlockingIOManager.

Definition get_non_blocking_io (path mode : string)
    : M NonBlockingIOManager.t NonBlockingIO.t :=
  λ self,
    let self :=
      if bool_decide (path ∉ dom (_path_to_data self)) then
        (* queue = Queue(); t = Thread(...); t.start() *)
        let pd :=
          {| PathData.queue := [];
             PathData.thread := threads_created self;
             PathData.thread_status := Polling |} in
        {| _path_to_data := <[path := pd]> (_path_to_data self);
           _pool := _pool self; files := files self;
           threads_created := S (threads_created self) |}
      else self in
    let '(file, self) := open_file self in
    (Return {| NonBlockingIO._path := path; NonBlockingIO._mode := mode;
               NonBlockingIO._file := file |}, self).

(** The truth value of an [Optional[str]]. *)
Definition truthy (path : option string) : bool :=
  match path with
  | None => false
  | Some p => negb (String.eqb p "")
  end.

(** The body of the [try] in [_join]'s loop. *)
Definition join_one (_path : string) : M NonBlockingIOManager.t unit :=
  λ self,
    match _path_to_data self !! _path with
    | None => (Raise (KeyError _path), self)       (* pop(_path) *)
    | Some path_data =>
        let reg := delete _path (_path_to_data self) in
        let path_data := PathData.put None path_data in
        (* path_data.thread.join() *)
        let '(_, pool, fs) :=
          run_thread path_data (_pool self) (files self) in
        (Return tt,
         {| _path_to_data := reg; _pool := pool; files := fs;
            threads_created := threads_created self |})
    end.

Fixpoint join_loop (paths_to_close : list string) (success : bool)
    : M NonBlockingIOManager.t bool :=
  match paths_to_close with
  | [] => ret success
  | _path :: rest =>
      λ self,
        match join_one _path self with
        | (Return _, self) => join_loop rest success self
        | (Raise _, self) => join_loop rest false self   (* except Exception *)
        end
  end.

(** [list(self._path_to_data.keys())] is taken in the order of the map
    model, not in insertion order. *)
Definition _join (path : option string) : M NonBlockingIOManager.t bool :=
  λ self,
    if truthy path && bool_decide (default "" path ∉ dom (_path_to_data self))
    then
      (Raise (ValueError
         (default "" path +:+ " has no async IO associated with it. "
          +:+ "Make sure `opena(" +:+ default "" path
          +:+ ")` is called first.")), self)
    else
      let paths_to_close :=
        if truthy path then [default "" path]
        else (map_to_list (_path_to_data self)).*1 in
      let '(success, self) := join_loop paths_to_close true self in
      let self :=
        if negb (truthy path) then
          (* self._pool.shutdown() *)
          {| _path_to_data := _path_to_data self;
             _pool := Pool.shutdown (_pool self); files := files self;
             threads_created := threads_created self |}
        else self in
      (* return success *)
      (success, self).
End Manager.

(** ** Sample data *)

Definition three_bytes : bytes := ["a"; "b"; "c"]%byte.
Definition two_bytes : bytes := ["d"; "e"]%byte.

(** A manager after [opena("p", "wb")], and the handle that call returns. *)
Definition sample_manager : NonBlockingIOManager.t :=
  (Manager.get_non_blocking_io "p" "wb" NonBlockingIOManager.__new__).2.

Definition sample_handle : NonBlockingIO.t :=
  {| NonBlockingIO._path := "p"; NonBlockingIO._mode := "wb";
     NonBlockingIO._file := 0 |}.

(** The same manager after [close(); write(..); write(..)] on the handle. *)
Definition sample_manager_closed_early : NonBlockingIOManager.t :=
  (NonBlockingIO.do_calls sample_handle
     [NonBlockingIO.Close; NonBlockingIO.Write three_bytes;
      NonBlockingIO.Write two_bytes] sample_manager).2.

(** ** Python [str] methods and [os.path.join] *)

Module Str.
(** [s.startswith(p)] *)
Fixpoint startswith (p s : string) : bool :=
  match p, s with
  | EmptyString, _ => true
  | String _ _, EmptyString => false
  | String a p', String b s' => Ascii.eqb a b && startswith p' s'
  end.

(** [s.endswith(suffix)] *)
Fixpoint endswith (suffix s : string) : bool :=
  String.eqb suffix s
  || match s with
     | EmptyString => false
     | String _ s' => endswith suffix s'
     end.

(** [sub in s] *)
Fixpoint contains (sub s : string) : bool :=
  startswith sub s
  || match s with
     | EmptyString => false
     | String _ s' => contains sub s'
     end.

(** [s.replace(old, new)] for a non-empty [old]: the occurrences of [old]
    are found from the left and do not overlap.  [skip] counts the
    characters still to drop of the occurrence just replaced. *)
Fixpoint replace_from (old new s : string) (skip : nat) : string :=
  match s with
  | EmptyString => EmptyString
  | String c s' =>
      match skip with
      | S k => replace_from old new s' k
      | O =>
          if startswith old s then
            new +:+ replace_from old new s' (String.length old - 1)
          else String c (replace_from old new s' 0)
      end
  end.

(** With an empty [old], [new] goes before every character and at the
    end. *)
Fixpoint replace_empty (new s : string) : string :=
  match s with
  | EmptyString => new
  | String c s' => new +:+ String c (replace_empty new s')
  end.

Definition replace (old new s : string) : string :=
  match old with
  | EmptyString => replace_empty new s
  | String _ _ => replace_from old new s 0
  end.

(** [s.split(sep)] for a non-empty [sep]; the occurrences of [sep] are
    found as in [replace]. *)
Fixpoint split_from (sep s : string) (skip : nat) : list string :=
  match s with
  | EmptyString => [EmptyString]
  | String c s' =>
      match skip with
      | S k => split_from sep s' k
      | O =>
          if startswith sep s then
            EmptyString :: split_from sep s' (String.length sep - 1)
          else
            match split_from sep s' 0 with
            | head :: tail => String c head :: tail
            | [] => [String c EmptyString]
            end
      end
  end.

Definition split (sep s : string) : list string := split_from sep s 0.

(** [sep.join(l)] *)
Fixpoint join (sep : string) (l : list string) : string :=
  match l with
  | [] => EmptyString
  | [s] => s
  | s :: l' => s +:+ sep +:+ join sep l'
  end.
End Str.

(** [os.path.join(a, *p)] of [posixpath]. *)
Definition os_path_join (a : string) (p : list string) : string :=
  foldl
    (λ path b,
       if Str.startswith "/" b then b
       else if String.eqb path "" || Str.endswith "/" path then path +:+ b
       else path +:+ "/" +:+ b)
    a p.

(** ** [class AzureBlobPathHandler]

    Its methods can raise more exception classes than the streams do. *)

Inductive py_error : Type :=
  | Builtin (e : exn)
  | IndexError (msg : string)
  | AttributeError (msg : string)
  | AzureError (msg : string).

Inductive result (A : Type) : Type :=
  | Ok (a : A)
  | Err (e : py_error).
Arguments Ok {A} a.
Arguments Err {A} e.

(** [azure_blob.BlobServiceClient], as the handler uses it: what
    [get_blob_client(container, blob).download_blob().chunks()] is going to
    yield (or the error of the download), and whether its blob clients
    consume the stream handed to [stage_block]. *)
Module BlobServiceClient.
Record t := {
  account_url : string;
  credential : string;
  download_blob : string → string → result (list bytes);
  consumes_stream : bool }.
End BlobServiceClient.

(** What the module finds around it: the constructor of the service
    client, [file_io.get_cache_dir] and [os.environ]. *)
Record environment := {
  BlobServiceClient_new : string → string → BlobServiceClient.t;
  get_cache_dir : option string → string;
  environ : gmap string string }.

Definition ENV_SAS_TOKEN : string := "AZURE_STORAGE_SAS_TOKEN".

(** [EnvironmentTokenProvider.get_sas_token] *)
Definition EnvironmentTokenProvider (env : environment) (account : string)
    : result string :=
  match environ env !! ENV_SAS_TOKEN with
  | None => Err (Builtin AssertionError)
  | Some token => Ok token
  end.

(** What [_open] returns. *)
Inductive blob_stream : Type :=
  | Reader (r : AzureBlobReader.t)
  | Writer (w : AzureBlobWriter.t).

Module AzureBlobPathHandler.
(** [client] is the attribute of that name: absent, [None] or a service
    client. *)
Record t := {
  token_provider : string → result string;
  cache_dir : option string;
  client : option (option BlobServiceClient.t) }.

Definition SUPPORTED_PREFIXES : list string := ["az://"; "blob://"].
Definition CACHE_SUBDIR_NAME : string := "blob_cache".
Definition DEFAULT_CHUNK_SIZE : Z := 50 * 1024 * 1024.

Definition __init__ (env : environment)
    (token_provider : option (string → result string))
    (cache_dir : option string) : t :=
  {| token_provider := default (EnvironmentTokenProvider env) token_provider;
     cache_dir := cache_dir;
     client := Some None |}.

Definition _get_supported_prefixes (self : t) : list string :=
  SUPPORTED_PREFIXES.

(** The loop of [_parse_uri] over the prefixes. *)
Fixpoint parse_uri_loop (prefixes : list string) (uri : string)
    : result (string * string * string) :=
  match prefixes with
  | [] => Err (Builtin (ValueError ("Unsupported URI: " +:+ uri)))
  | prefix :: prefixes' =>
      if negb (Str.startswith prefix uri) then parse_uri_loop prefixes' uri
      else
        let splits := Str.split "/" (Str.replace prefix "" uri) in
        match splits with
        | account :: container :: rest =>
            Ok (account, container, Str.join "/" rest)
        | _ => Err (IndexError "list index out of range")
        end
  end.

Definition _parse_uri (uri : string) : result (string * string * string) :=
  parse_uri_loop SUPPORTED_PREFIXES uri.

Definition account_uri_of (account : string) : string :=
  "https://" +:+ account +:+ ".blob.core.windows.net".

Definition _get_service_uri (self : t) (account container blob_path : string)
    (include_auth : bool) : result string :=
  let account_uri := account_uri_of account in
  let uri := os_path_join account_uri [container; blob_path] in
  if include_auth then
    match token_provider self account with
    | Err e => Err e
    | Ok sas_token => Ok (uri +:+ "?" +:+ sas_token)
    end
  else Ok uri.

(** [_get_client(account)]: the value and the handler afterwards. *)
Definition _get_client (env : environment) (account : string) (self : t)
    : result (option BlobServiceClient.t) * t :=
  match client self with
  | None =>                       (* not hasattr(self, "client") *)
      let account_uri := account_uri_of account in
      match token_provider self account with
      | Err e => (Err e, self)
      | Ok sas_token =>
          let c := BlobServiceClient_new env account_uri sas_token in
          (Ok (Some c),
           {| token_provider := token_provider self;
              cache_dir := cache_dir self; client := Some (Some c) |})
      end
  | Some c => (Ok c, self)
  end.

Definition _local_cache_path (env : environment) (self : t) (path : string)
    : result string :=
  match _parse_uri path with
  | Err e => Err e
  | Ok (_, _, blob) =>
      Ok (os_path_join (get_cache_dir env (cache_dir self))
            [CACHE_SUBDIR_NAME; blob])
  end.

(** [_open(path, mode, buffering)], with no further keyword argument. *)
Definition _open (env : environment) (path mode : string) (buffering : Z)
    (self : t) : result blob_stream * t :=
  if negb (bool_decide (mode ∈ ["rb"; "wb"])) then
    (Err (Builtin AssertionError), self)
  else
    let chunk_size :=
      if 0 <? buffering then buffering else DEFAULT_CHUNK_SIZE in
    match _parse_uri path with
    | Err e => (Err e, self)
    | Ok (account, container, blob_path) =>
        match _get_client env account self with
        | (Err e, self) => (Err e, self)
        | (Ok None, self) =>
            (Err (AttributeError
                    "'NoneType' object has no attribute 'get_blob_client'"),
             self)
        | (Ok (Some service), self) =>
            if Str.contains "r" mode then
              match BlobServiceClient.download_blob service container
                      blob_path with
              | Err e => (Err e, self)
              | Ok chunks =>
                  (Ok (Reader (AzureBlobReader.__init__ chunks chunk_size)),
                   self)
              end
            else if Str.contains "w" mode then
              (Ok (Writer
                     (AzureBlobWriter.__init__
                        (BlobClient.new blob_path
                           (BlobServiceClient.consumes_stream service))
                        chunk_size)), self)
            else (Err (Builtin (ValueError ("Invalid mode: " +:+ mode))), self)
        end
    end.
End AzureBlobPathHandler.

(** ** [AzureBlobPathHandler._wait_for_copy]

    The loop sees the world through two calls: [blob.get_blob_properties()],
    of which it reads [copy.status], and
    [int(datetime.utcnow().timestamp())].  [status_at w n] and
    [clock_at w n] are what the call number [n] of each returns.  The
    trace counts the calls and keeps the arguments of [time.sleep]. *)

Module CopyWait.
Record world := {
  status_at : nat → result string;
  clock_at : nat → Z }.

Record trace := { polls : nat; clock_reads : nat; sleeps : list Z }.

(** The [while] loop; [status] is [props.copy.status]. *)
Fixpoint wait_loop (fuel : nat) (w : world) (polling_secs deadline : Z)
    (status : string) (t : trace) : option (result bool * trace) :=
  match fuel with
  | O => None
  | S fuel' =>
      if String.eqb status "pending" then
        let now := clock_at w (clock_reads t) in
        let t :=
          {| polls := polls t; clock_reads := S (clock_reads t);
             sleeps := sleeps t |} in
        if now <? deadline then
          if polling_secs <? 0 then
            (* time.sleep of a negative length *)
            Some (Err (Builtin
                         (ValueError "sleep length must be non-negative")), t)
          else
            let slept :=
              {| polls := S (polls t); clock_reads := clock_reads t;
                 sleeps := sleeps t ++ [polling_secs] |} in
            match status_at w (polls t) with
            | Err e => Some (Err e, slept)
            | Ok status' =>
                wait_loop fuel' w polling_secs deadline status' slept
            end
        else Some (Ok (negb (String.eqb status "pending")), t)
      else Some (Ok (negb (String.eqb status "pending")), t)
  end.

Definition _wait_for_copy (fuel : nat) (w : world)
    (timeout_secs polling_secs : Z) : option (result bool * trace) :=
  match status_at w 0 with
  | Err e => Some (Err e, {| polls := 1; clock_reads := 0; sleeps := [] |})
  | Ok status =>
      let deadline := clock_at w 0 + timeout_secs in
      wait_loop fuel w polling_secs deadline status
        {| polls := 1; clock_reads := 1; sleeps := [] |}
  end.
End CopyWait.

(** ** Runs of the manager

    The calls on the manager and on its handles, and the moments at which a
    polling thread gets to run, in the order in which they happen. *)

Module ManagerRun.
Inductive event : Type :=
  | Open (path mode : string)
  | Call (handle : NonBlockingIO.t) (c : NonBlockingIO.call)
  | Join (path : option string)
  | Schedule (path : string).

Definition step (e : event) (m : NonBlockingIOManager.t)
    : NonBlockingIOManager.t :=
  match e with
  | Open path mode => (Manager.get_non_blocking_io path mode m).2
  | Call handle c => (NonBlockingIO.do_call handle c m).2
  | Join path => (Manager._join path m).2
  | Schedule path => NonBlockingIOManager.schedule path m
  end.

Definition run (es : list event) (m : NonBlockingIOManager.t)
    : NonBlockingIOManager.t :=
  foldl (λ m e, step e m) m es.

(** A call through a handle of [path], or the thread of [path] running. *)
Definition on_path (path : string) (e : event) : Prop :=
  match e with
  | Call handle _ => NonBlockingIO._path handle = path
  | Schedule q => q = path
  | _ => False
  end.

Definition is_schedule (e : event) : bool :=
  match e with Schedule _ => true | _ => false end.

(** The bytes that an event hands to a file object. *)
Definition written_by (e : event) : bytes :=
  match e with
  | Call _ (NonBlockingIO.Write b) => b
  | _ => []
  end.

(** Invariant: the registered threads were created by the manager, and no
    two paths have the same thread. *)
Definition threads_ok (m : NonBlockingIOManager.t) : Prop :=
  (∀ p pd, NonBlockingIOManager._path_to_data m !! p = Some pd →
           (PathData.thread pd < NonBlockingIOManager.threads_created m)%nat)
  ∧ (∀ p q pd pd',
       NonBlockingIOManager._path_to_data m !! p = Some pd →
       NonBlockingIOManager._path_to_data m !! q = Some pd' →
       PathData.thread pd = PathData.thread pd' → p = q).
End ManagerRun.

(** The bytes that a run of calls on a writer writes. *)
Fixpoint written (cs : list AzureBlobWriter.call) : bytes :=
  match cs with
  | [] => []
  | AzureBlobWriter.Write b :: cs' => b ++ written cs'
  | _ :: cs' => written cs'
  end.

(** ** Invariants of the writer over runs of calls *)

(** Every staged block holds [_chunk_size] bytes at least, and neither a
    block nor the buffer holds more than [_chunk_size - 1] bytes and one
    write of [bound] bytes. *)
Definition blocks_ok (bound : Z) (self : AzureBlobWriter.t) : Prop :=
  AzureBlobWriter.buffer_ok self
  ∧ Forall (λ p, AzureBlobWriter._chunk_size self ≤ len p.2
                 ∧ len p.2 ≤ AzureBlobWriter._chunk_size self - 1 + bound)
      (BlobClient.staged (AzureBlobWriter._client self))
  ∧ len (AzureBlobWriter.buffered self)
    ≤ AzureBlobWriter._chunk_size self - 1 + bound.

(** With a client that leaves the stream where it found it: the bytes
    written so far, [acc], are staged or buffered, once each and in order,
    and nothing is committed before a block exists. *)
Definition rewound_ok (acc : bytes) (self : AzureBlobWriter.t) : Prop :=
  BlobClient.consumes_stream (AzureBlobWriter._client self) = false
  ∧ AzureBlobWriter.buffer_ok self
  ∧ AzureBlobWriter.ids_ok self
  ∧ (AzureBlobWriter._blocks self = [] →
     BlobClient.committed (AzureBlobWriter._client self) = [])
  ∧ AzureBlobWriter.staged_bytes self ++ AzureBlobWriter.buffered self = acc.

(** ** More sample data *)

Definition sample_service : BlobServiceClient.t :=
  {| BlobServiceClient.account_url := "https://account.blob.core.windows.net";
     BlobServiceClient.credential := "sig";
     BlobServiceClient.download_blob :=
       λ container blob,
         if String.eqb blob "dir/file.bin" then Ok [three_bytes; two_bytes]
         else Err (AzureError "ResourceNotFoundError");
     BlobServiceClient.consumes_stream := false |}.

Definition sample_environment : environment :=
  {| BlobServiceClient_new :=
       λ url cred,
         {| BlobServiceClient.account_url := url;
            BlobServiceClient.credential := cred;
            BlobServiceClient.download_blob :=
              λ _ _, Err (AzureError "ResourceNotFoundError");
            BlobServiceClient.consumes_stream := false |};
     get_cache_dir := λ _, "/tmp/cache";
     environ := {[ ENV_SAS_TOKEN := "sig" ]} |}.

(** A handler as [__init__] builds it, and one with a client set. *)
Definition sample_path_handler : AzureBlobPathHandler.t :=
  AzureBlobPathHandler.__init__ sample_environment None None.

Definition sample_path_handler_connected : AzureBlobPathHandler.t :=
  {| AzureBlobPathHandler.token_provider :=
       EnvironmentTokenProvider sample_environment;
     AzureBlobPathHandler.cache_dir := None;
     AzureBlobPathHandler.client := Some (Some sample_service) |}.

(** A copy that is pending at the first two polls and has failed at the
    third, seen through a clock that advances by 30 seconds a reading. *)
Definition sample_copy : CopyWait.world :=
  {| CopyWait.status_at :=
       λ n, if (n <? 2)%nat then Ok "pending" else Ok "failed";
     CopyWait.clock_at := λ n, 1000 + 30 * Z.of_nat n |}.

(** * Properties *)

(** ** The block identifier encoding *)

Section encoding.
Local Open Scope N_scope.

Lemma b64_index_char (k : N) : k < 64 → b64_index (b64_char k) = Some k.
Proof.
  intros Hk. rewrite <- (N2Nat.id k).
  assert (Hn : (N.to_nat k < 64)%nat) by lia.
  revert Hn. generalize (N.to_nat k). intros n Hn.
  do 64 (destruct n as [|n]; [reflexivity|]). lia.
Qed.

Lemma b64_char_not_pad (k : N) :
  k < 64 → Byte.eqb (b64_char k) "="%byte = false.
Proof.
  intros Hk. rewrite <- (N2Nat.id k).
  assert (Hn : (N.to_nat k < 64)%nat) by lia.
  revert Hn. generalize (N.to_nat k). intros n Hn.
  do 64 (destruct n as [|n]; [reflexivity|]). lia.
Qed.

Lemma b64_sextet_lt (n k : N) : b64_sextet n k < 64.
Proof. unfold b64_sextet. apply N.mod_lt. lia. Qed.

Lemma b64_bytes_group (a b c : byte) :
  b64_bytes (b64_group a b c) = Some (a, b, c).
Proof.
  unfold b64_bytes, b64_group.
  pose proof (Byte.to_N_bounded a). pose proof (Byte.to_N_bounded b).
  pose proof (Byte.to_N_bounded c).
  replace ((to_N a * 65536 + to_N b * 256 + to_N c) / 65536) with (to_N a)
    by (apply N.div_unique with (to_N b * 256 + to_N c); lia).
  replace (((to_N a * 65536 + to_N b * 256 + to_N c) / 256) mod 256)
    with (to_N b).
  2:{ replace ((to_N a * 65536 + to_N b * 256 + to_N c) / 256)
        with (to_N a * 256 + to_N b)
        by (apply N.div_unique with (to_N c); lia).
      apply N.mod_unique with (to_N a); lia. }
  replace ((to_N a * 65536 + to_N b * 256 + to_N c) mod 256) with (to_N c)
    by (apply N.mod_unique with (to_N a * 256 + to_N b); lia).
  by rewrite !Byte.of_to_N.
Qed.

(** The four sextets of a 24-bit number put together again. *)
Lemma b64_sextets_join (n : N) :
  n < 16777216 →
  ((b64_sextet n 3 * 64 + b64_sextet n 2) * 64 + b64_sextet n 1) * 64
    + b64_sextet n 0 = n.
Proof.
  intros Hn. unfold b64_sextet.
  change (2 ^ (6 * 3)) with 262144. change (2 ^ (6 * 2)) with 4096.
  change (2 ^ (6 * 1)) with 64. change (2 ^ (6 * 0)) with 1.
  rewrite N.div_1_r.
  rewrite (N.mod_small (n / 262144)) by (apply N.Div0.div_lt_upper_bound; lia).
  pose proof (N.div_mod n 64 ltac:(lia)) as H0.
  pose proof (N.div_mod (n / 64) 64 ltac:(lia)) as H1.
  pose proof (N.div_mod (n / 4096) 64 ltac:(lia)) as H2.
  replace (n / 64 / 64) with (n / 4096) in H1
    by (by rewrite N.Div0.div_div).
  replace (n / 4096 / 64) with (n / 262144) in H2
    by (by rewrite N.Div0.div_div).
  lia.
Qed.

Lemma b64_group_lt (a b c : byte) : b64_group a b c < 16777216.
Proof.
  unfold b64_group.
  pose proof (Byte.to_N_bounded a). pose proof (Byte.to_N_bounded b).
  pose proof (Byte.to_N_bounded c). lia.
Qed.

Lemma b64_ungroup_sextets (n : N) :
  n < 16777216 →
  b64_ungroup (b64_char (b64_sextet n 3)) (b64_char (b64_sextet n 2))
    (b64_char (b64_sextet n 1)) (b64_char (b64_sextet n 0)) = b64_bytes n.
Proof.
  intros Hn. unfold b64_ungroup.
  rewrite !b64_index_char by apply b64_sextet_lt. simpl.
  by rewrite b64_sextets_join.
Qed.

(** With one or two input bytes the low sextets are zero, the sextets of
    the letter [A] that the decoder puts in place of the padding. *)
Lemma b64_sextet_0_zero (a b : byte) :
  b64_char (b64_sextet (b64_group a b "000") 0) = "A"%byte.
Proof.
  unfold b64_sextet, b64_group. change (2 ^ (6 * 0)) with 1.
  rewrite N.div_1_r. simpl (to_N "000"). rewrite N.add_0_r.
  replace ((to_N a * 65536 + to_N b * 256) mod 64) with 0; [done|].
  apply N.mod_unique with (to_N a * 1024 + to_N b * 4); lia.
Qed.

Lemma b64_sextet_1_zero (a : byte) :
  b64_char (b64_sextet (b64_group a "000" "000") 1) = "A"%byte.
Proof.
  unfold b64_sextet, b64_group. change (2 ^ (6 * 1)) with 64.
  simpl (to_N "000"). rewrite N.mul_0_l, !N.add_0_r.
  replace (to_N a * 65536 / 64) with (to_N a * 1024)
    by (apply N.div_unique with 0; lia).
  replace ((to_N a * 1024) mod 64) with 0; [done|].
  apply N.mod_unique with (to_N a * 16); lia.
Qed.

Lemma urlsafe_b64decode_encode (s : bytes) :
  urlsafe_b64decode (urlsafe_b64encode s) = Some s.
Proof.
  assert (H : ∀ n (s : bytes), (length s ≤ n)%nat →
            urlsafe_b64decode (urlsafe_b64encode s) = Some s);
    [|by apply (H (length s))].
  clear s. induction n as [|n IH]; intros s Hs.
  { destruct s; [done | simpl in Hs; lia]. }
  destruct s as [|a [|b [|c rest]]]; [done|..].
  - cbn [urlsafe_b64encode urlsafe_b64decode].
    change (Byte.eqb "=" "=") with true. cbn match.
    rewrite <- (b64_sextet_1_zero a) at 1.
    rewrite <- (b64_sextet_0_zero a "000").
    rewrite b64_ungroup_sextets by apply b64_group_lt.
    by rewrite b64_bytes_group.
  - cbn [urlsafe_b64encode urlsafe_b64decode].
    change (Byte.eqb "=" "=") with true. cbn match.
    rewrite b64_char_not_pad by apply b64_sextet_lt.
    rewrite <- (b64_sextet_0_zero a b).
    rewrite b64_ungroup_sextets by apply b64_group_lt.
    by rewrite b64_bytes_group.
  - cbn [urlsafe_b64encode urlsafe_b64decode].
    rewrite b64_char_not_pad by apply b64_sextet_lt.
    rewrite b64_ungroup_sextets by apply b64_group_lt.
    rewrite b64_bytes_group. simpl.
    rewrite IH by (simpl in Hs; lia). done.
Qed.

Lemma length_urlsafe_b64encode (s : bytes) :
  length (urlsafe_b64encode s) = (4 * ((length s + 2) / 3))%nat.
Proof.
  assert (H : ∀ n (s : bytes), (length s ≤ n)%nat →
            length (urlsafe_b64encode s) = (4 * ((length s + 2) / 3))%nat);
    [|by apply (H (length s))].
  clear s. induction n as [|n IH]; intros s Hs.
  { destruct s; [done | simpl in Hs; lia]. }
  destruct s as [|a [|b [|c rest]]]; [done..|].
  cbn [urlsafe_b64encode length].
  rewrite IH by (simpl in Hs; lia).
  replace (S (S (S (length rest))) + 2)%nat
    with ((length rest + 2) + 1 * 3)%nat by lia.
  rewrite Nat.div_add by lia. lia.
Qed.

Lemma digit_value_char (d : N) :
  d < 10 → digit_value (digit_char d) = Some d.
Proof.
  intros Hd. rewrite <- (N2Nat.id d).
  assert (Hn : (N.to_nat d < 10)%nat) by lia.
  revert Hn. generalize (N.to_nat d). intros n Hn.
  do 10 (destruct n as [|n]; [reflexivity|]). lia.
Qed.

Lemma parse_digits_app (acc : N) (s1 s2 : bytes) :
  parse_digits acc (s1 ++ s2)
  = parse_digits acc s1 ≫= λ acc', parse_digits acc' s2.
Proof.
  revert acc. induction s1 as [|c s1 IH]; intros acc; [done|].
  simpl. destruct (digit_value c); simpl; [apply IH | done].
Qed.

Lemma parse_dec_digits (fuel : nat) (n : N) :
  n < 10 ^ N.of_nat fuel → parse_digits 0 (dec_digits fuel n) = Some n.
Proof.
  revert n. induction fuel as [|fuel IH]; intros n Hn.
  { simpl in *. f_equal. lia. }
  simpl. destruct (N.ltb_spec n 10) as [Hlt|Hge].
  - simpl. by rewrite digit_value_char.
  - rewrite parse_digits_app, IH.
    + simpl. rewrite digit_value_char by (apply N.mod_lt; lia). simpl.
      f_equal. pose proof (N.div_mod n 10). lia.
    + apply N.Div0.div_lt_upper_bound.
      by rewrite Nat2N.inj_succ, N.pow_succ_r' in Hn.
Qed.

Lemma str_of_N_fuel (n : N) : n < 10 ^ N.of_nat (S (N.to_nat (N.log2 n))).
Proof.
  rewrite Nat2N.inj_succ, N2Nat.id.
  destruct (decide (n = 0)) as [->|Hn]; [done|].
  eapply N.lt_le_trans; [apply N.log2_spec; lia|].
  apply N.pow_le_mono_l. lia.
Qed.

Lemma parse_str_of_N (n : N) : parse_digits 0 (str_of_N n) = Some n.
Proof. apply parse_dec_digits, str_of_N_fuel. Qed.

Lemma parse_zfill (width : nat) (s : bytes) :
  parse_digits 0 (zfill width s) = parse_digits 0 s.
Proof.
  unfold zfill. induction (width - length s)%nat as [|k IH]; [done|].
  simpl. exact IH.
Qed.

Lemma str_of_N_nonempty (n : N) : str_of_N n ≠ [].
Proof.
  unfold str_of_N. simpl. destruct (n <? 10); [done|].
  intros H. apply app_eq_nil in H as [_ H]. done.
Qed.

Lemma zfill_nonempty (width : nat) (s : bytes) : s ≠ [] → zfill width s ≠ [].
Proof.
  unfold zfill. intros Hs H. apply app_eq_nil in H as [_ H]. done.
Qed.

(** A digit string is read as the number it denotes, with no sign. *)
Lemma parse_int_digits (s : bytes) (n : N) :
  s ≠ [] → parse_digits 0 s = Some n → parse_int s = Some (Z.of_N n).
Proof.
  intros Hs Hp. destruct s as [|c s']; [done|].
  unfold parse_int. destruct (Byte.eqb c "-") eqn:Hc.
  - apply Byte.byte_dec_bl in Hc as ->. done.
  - by rewrite Hp.
Qed.

Lemma length_dec_digits (fuel : nat) (n : N) (k : nat) :
  (1 ≤ k)%nat → n < 10 ^ N.of_nat k → (length (dec_digits fuel n) ≤ k)%nat.
Proof.
  revert n k. induction fuel as [|fuel IH]; intros n k Hk Hn; [simpl; lia|].
  simpl. destruct (N.ltb_spec n 10) as [Hlt|Hge]; [simpl; lia|].
  rewrite length_app. simpl.
  destruct k as [|[|k]]; [lia| simpl in Hn; lia |].
  specialize (IH (n / 10) (S k) ltac:(lia)).
  rewrite Nat2N.inj_succ, N.pow_succ_r' in Hn.
  specialize (IH ltac:(apply N.Div0.div_lt_upper_bound; done)). lia.
Qed.

Lemma length_dec_digits_pos (fuel : nat) (n : N) :
  (1 ≤ length (dec_digits (S fuel) n))%nat.
Proof.
  simpl. destruct (n <? 10); [simpl; lia|]. rewrite length_app. simpl. lia.
Qed.
End encoding.

Lemma length_string_of_list_byte (l : bytes) :
  String.length (String.string_of_list_byte l) = length l.
Proof.
  unfold String.string_of_list_byte.
  induction l as [|b l IH]; simpl; [done | by f_equal].
Qed.

Lemma list_byte_of_format_05 (i : Z) :
  encode_utf8 (format_05 i)
  = if i <? 0 then "-"%byte :: zfill 4 (str_of_N (Z.to_N (- i)))
    else zfill 5 (str_of_N (Z.to_N i)).
Proof.
  unfold encode_utf8, format_05.
  apply String.list_byte_of_string_of_list_byte.
Qed.

(** The identifier of an index decodes to that index: the encoding never
    wraps, whatever the number of digits. *)
Lemma decode_block_id_of (i : Z) : decode_block_id (block_id_of i) = Some i.
Proof.
  unfold decode_block_id, block_id_of, decode_utf8.
  unfold encode_utf8 at 1.
  rewrite String.list_byte_of_string_of_list_byte, urlsafe_b64decode_encode.
  simpl. rewrite list_byte_of_format_05.
  destruct (Z.ltb_spec i 0) as [Hneg|Hpos].
  - unfold parse_int. change (Byte.eqb "-" "-") with true. cbn match.
    pose proof (zfill_nonempty 4 _ (str_of_N_nonempty (Z.to_N (- i)))) as Hne.
    destruct (zfill 4 (str_of_N (Z.to_N (- i)))) as [|c s] eqn:Hz; [done|].
    rewrite <- Hz, parse_zfill, parse_str_of_N. simpl. f_equal. lia.
  - rewrite (parse_int_digits _ (Z.to_N i)).
    + f_equal. lia.
    + apply zfill_nonempty, str_of_N_nonempty.
    + by rewrite parse_zfill, parse_str_of_N.
Qed.

Lemma block_id_of_inj (i j : Z) : block_id_of i = block_id_of j → i = j.
Proof.
  intros H. apply (f_equal decode_block_id) in H.
  rewrite !decode_block_id_of in H. congruence.
Qed.

(** Up to six digits the identifier has eight characters. *)
Lemma length_block_id_of (i : Z) :
  0 ≤ i < 1000000 → String.length (block_id_of i) = 8%nat.
Proof.
  intros Hi. unfold block_id_of, decode_utf8.
  rewrite length_string_of_list_byte, length_urlsafe_b64encode.
  rewrite list_byte_of_format_05.
  destruct (Z.ltb_spec i 0) as [Hneg|_]; [lia|].
  unfold zfill. rewrite length_app, length_replicate.
  pose proof (length_dec_digits (S (N.to_nat (N.log2 (Z.to_N i))))
                (Z.to_N i) 6 ltac:(lia) ltac:(simpl; lia)) as Hle.
  pose proof (length_dec_digits_pos (N.to_nat (N.log2 (Z.to_N i)))
                (Z.to_N i)) as Hge.
  fold (str_of_N (Z.to_N i)) in Hle, Hge.
  assert (Hcases : (length (str_of_N (Z.to_N i)) ≤ 5
                    ∨ length (str_of_N (Z.to_N i)) = 6)%nat) by lia.
  destruct Hcases as [H5|H6].
  - replace (5 - length (str_of_N (Z.to_N i))
             + length (str_of_N (Z.to_N i)))%nat with 5%nat by lia.
    done.
  - rewrite H6. done.
Qed.

(** Up to five digits the zero-padded string has exactly five characters. *)
Lemma length_format_05 (i : Z) :
  0 ≤ i < 100000 → String.length (format_05 i) = 5%nat.
Proof.
  intros Hi. unfold format_05. rewrite length_string_of_list_byte.
  destruct (Z.ltb_spec i 0) as [Hneg|_]; [lia|].
  unfold zfill. rewrite length_app, length_replicate.
  pose proof (length_dec_digits (S (N.to_nat (N.log2 (Z.to_N i))))
                (Z.to_N i) 5 ltac:(lia) ltac:(simpl; lia)) as Hle.
  fold (str_of_N (Z.to_N i)) in Hle. lia.
Qed.

(** ** Sequencing *)

Lemma bind_return {St A B} (m : M St A) (k : A → M St B) (s s' : St) (a : A) :
  m s = (Return a, s') → bind m k s = k a s'.
Proof. unfold bind. by intros ->. Qed.

Lemma outcome_state {St A} (r : outcome A * St) (a : A) :
  r.1 = Return a → r = (Return a, r.2).
Proof. destruct r as [o s]. simpl. by intros ->. Qed.

(** ** The writer *)

Section writer.
Import AzureBlobWriter.

Lemma flush_skip (self : t) :
  buffered self = [] → buffer_ok self → flush self = (Return tt, self).
Proof.
  unfold flush, buffered, buffer_ok, bind, get, ret. simpl.
  destruct (_chunk self) as [chunk|]; [|done].
  intros Hb Hok. unfold BytesIO.tell.
  destruct (Z.eqb_spec (Z.of_nat (BytesIO.pos chunk)) 0) as [|Hne]; [done|].
  apply (f_equal length) in Hb. rewrite length_take in Hb. simpl in Hb. lia.
Qed.

Lemma flush_pos_0 (self : t) (chunk : BytesIO.t) :
  _chunk self = Some chunk → BytesIO.pos chunk = 0%nat →
  flush self = (Return tt, self).
Proof.
  unfold flush, bind, get, ret. simpl. intros -> Hpos.
  unfold BytesIO.tell. by rewrite Hpos.
Qed.

Lemma flush_None (self : t) :
  _chunk self = None → flush self = (Return tt, self).
Proof. unfold flush, bind, get, ret. simpl. by intros ->. Qed.

(** A flush of a non-empty buffer: one [stage_block] call with the
    buffered bytes under the next identifier. *)
Lemma flush_stage (self : t) (chunk : BytesIO.t) :
  _chunk self = Some chunk → BytesIO.pos chunk ≠ 0%nat →
  flush self =
    (Return tt,
     {| _client :=
          {| BlobClient.blob_name := BlobClient.blob_name (_client self);
             BlobClient.consumes_stream :=
               BlobClient.consumes_stream (_client self);
             BlobClient.staged :=
               BlobClient.staged (_client self)
               ++ [(block_id_of (_chunk_idx self + 1), buffered self)];
             BlobClient.committed := BlobClient.committed (_client self) |};
        _chunk_size := _chunk_size self;
        _chunk_idx := _chunk_idx self + 1;
        _chunk :=
          Some {| BytesIO.buf := BytesIO.buf chunk;
                  BytesIO.pos :=
                    if BlobClient.consumes_stream (_client self)
                    then length (buffered self) else 0%nat |};
        _blocks := _blocks self ++ [block_id_of (_chunk_idx self + 1)] |}).
Proof.
  intros Hc Hpos. unfold flush, buffered, bind, get, ret. simpl. rewrite Hc.
  unfold BytesIO.tell.
  destruct (Z.eqb_spec (Z.of_nat (BytesIO.pos chunk)) 0) as [|_]; [lia|].
  unfold _new_block_id, on_client, BlobClient.stage_block, bind, modify,
    get, ret, set_chunk, set_blocks, set_client, set_chunk_idx. simpl.
  rewrite Nat2Z.id, drop_0.
  by destruct (BlobClient.consumes_stream (_client self)).
Qed.

Lemma flush_returns (self : t) : (flush self).1 = Return tt.
Proof.
  destruct (_chunk self) as [chunk|] eqn:Hc.
  - destruct (decide (BytesIO.pos chunk = 0%nat)) as [H0|H0].
    + by rewrite (flush_pos_0 self chunk).
    + by rewrite (flush_stage self chunk).
  - by rewrite flush_None.
Qed.

Lemma flush_chunk_size (self : t) :
  _chunk_size (flush self).2 = _chunk_size self.
Proof.
  destruct (_chunk self) as [chunk|] eqn:Hc.
  - destruct (decide (BytesIO.pos chunk = 0%nat)) as [H0|H0].
    + by rewrite (flush_pos_0 self chunk).
    + by rewrite (flush_stage self chunk).
  - by rewrite flush_None.
Qed.

(** [write] when the buffer is unset or has reached the block size:
    flush, then start a new buffer with [b]. *)
Lemma write_roll (self : t) (b : bytes) :
  chunk_is_full self = true →
  write b self =
    (Return (len b),
     set_chunk (Some (BytesIO.write BytesIO.new b).2) (flush self).2).
Proof.
  intros Hfull. unfold write, _append_to_chunk, _next_chunk.
  rewrite (bind_return get _ self self self) by done. rewrite Hfull.
  pose proof (outcome_state _ _ (flush_returns self)) as Hf.
  erewrite (bind_return (bind flush _));
    [|by erewrite (bind_return flush) by exact Hf].
  done.
Qed.

(** [write] otherwise: [b] goes to the current buffer, nothing is
    staged. *)
Lemma write_append (self : t) (b : bytes) (chunk : BytesIO.t) :
  _chunk self = Some chunk → chunk_is_full self = false →
  write b self =
    (Return (len b), set_chunk (Some (BytesIO.write chunk b).2) self).
Proof.
  intros Hc Hfull. unfold write, _append_to_chunk.
  unfold bind, get, ret, modify. rewrite Hfull. simpl. by rewrite Hc.
Qed.

Lemma write_returns (self : t) (b : bytes) :
  (write b self).1 = Return (len b).
Proof.
  destruct (chunk_is_full self) eqn:Hfull.
  - by rewrite write_roll.
  - destruct (_chunk self) as [chunk|] eqn:Hc.
    + by rewrite (write_append self b chunk).
    + unfold chunk_is_full in Hfull. by rewrite Hc in Hfull.
Qed.

Lemma close_eq (self : t) :
  close self =
    (Return tt,
     if bool_decide (_blocks (flush self).2 ≠ []) then
       set_client
         (BlobClient.commit_block_list (_blocks (flush self).2)
            (_client (flush self).2)).2 (flush self).2
     else (flush self).2).
Proof.
  unfold close.
  rewrite (bind_return flush _ _ _ _ (outcome_state _ _ (flush_returns self))).
  rewrite (bind_return get _ _ (flush self).2 (flush self).2) by done.
  destruct (bool_decide _); [|done].
  unfold on_client, BlobClient.commit_block_list. done.
Qed.

Lemma do_call_returns (c : call) (self : t) : (do_call c self).1 = Return tt.
Proof.
  destruct c as [b| |]; simpl.
  - by rewrite (bind_return _ _ _ _ _
                  (outcome_state _ _ (write_returns self b))).
  - apply flush_returns.
  - by rewrite close_eq.
Qed.

Lemma do_calls_cons (c : call) (cs : list call) (self : t) :
  do_calls (c :: cs) self = do_calls cs (do_call c self).2.
Proof.
  simpl.
  by rewrite (bind_return _ _ _ _ _
                (outcome_state _ _ (do_call_returns c self))).
Qed.

Lemma do_calls_app (cs1 cs2 : list call) (self : t) :
  do_calls (cs1 ++ cs2) self = do_calls cs2 (do_calls cs1 self).2.
Proof.
  revert self. induction cs1 as [|c cs1 IH]; intros self; [done|].
  by rewrite <- app_comm_cons, !do_calls_cons, IH.
Qed.

Lemma do_calls_returns (cs : list call) (self : t) :
  (do_calls cs self).1 = Return tt.
Proof.
  revert self. induction cs as [|c cs IH]; intros self; [done|].
  by rewrite do_calls_cons.
Qed.

(** *** What a flush, a write and a close do to the invariants *)

Lemma flush_buffer_ok (self : t) : buffer_ok self → buffer_ok (flush self).2.
Proof.
  intros Hok. destruct (_chunk self) as [chunk|] eqn:Hc.
  - destruct (decide (BytesIO.pos chunk = 0%nat)) as [H0|H0].
    + by rewrite (flush_pos_0 self chunk).
    + rewrite (flush_stage self chunk) by done.
      unfold buffer_ok, buffered. simpl. rewrite Hc.
      destruct (BlobClient.consumes_stream _); simpl; [|lia].
      rewrite length_take. lia.
  - by rewrite flush_None.
Qed.

Lemma flush_ids_ok (self : t) : ids_ok self → ids_ok (flush self).2.
Proof.
  intros (Hidx & Hblocks & Hstaged).
  destruct (_chunk self) as [chunk|] eqn:Hc.
  - destruct (decide (BytesIO.pos chunk = 0%nat)) as [H0|H0].
    + by rewrite (flush_pos_0 self chunk).
    + rewrite (flush_stage self chunk) by done.
      unfold ids_ok. simpl. split_and!; [lia| |].
      * rewrite (seqZ_app 0 (_chunk_idx self + 1) 1) by lia.
        rewrite fmap_app, <- Hblocks. simpl.
        by replace (0 + (_chunk_idx self + 1)) with (_chunk_idx self + 1)
          by lia.
      * by rewrite fmap_app, Hstaged.
  - by rewrite flush_None.
Qed.

Lemma flush_staged_bytes (self : t) :
  buffer_ok self →
  staged_bytes (flush self).2 = staged_bytes self ++ buffered self.
Proof.
  intros Hok. destruct (_chunk self) as [chunk|] eqn:Hc.
  - destruct (decide (BytesIO.pos chunk = 0%nat)) as [H0|H0].
    + rewrite (flush_pos_0 self chunk) by done.
      unfold buffered. rewrite Hc, H0. simpl. by rewrite app_nil_r.
    + rewrite (flush_stage self chunk) by done.
      unfold staged_bytes. simpl.
      by rewrite fmap_app, concat_app; simpl; rewrite app_nil_r.
  - rewrite flush_None by done. unfold buffered. rewrite Hc.
    by rewrite app_nil_r.
Qed.

Lemma flush_committed (self : t) :
  BlobClient.committed (_client (flush self).2)
  = BlobClient.committed (_client self).
Proof.
  destruct (_chunk self) as [chunk|] eqn:Hc.
  - destruct (decide (BytesIO.pos chunk = 0%nat)) as [H0|H0].
    + by rewrite (flush_pos_0 self chunk).
    + by rewrite (flush_stage self chunk).
  - by rewrite flush_None.
Qed.

Lemma flush_nonempty_blocks (self : t) :
  buffer_ok self →
  Forall (λ p, p.2 ≠ []) (BlobClient.staged (_client self)) →
  Forall (λ p, p.2 ≠ []) (BlobClient.staged (_client (flush self).2)).
Proof.
  intros Hok Hne. destruct (_chunk self) as [chunk|] eqn:Hc.
  - destruct (decide (BytesIO.pos chunk = 0%nat)) as [H0|H0].
    + by rewrite (flush_pos_0 self chunk).
    + rewrite (flush_stage self chunk) by done. simpl.
      apply Forall_app. split; [done|]. constructor; [|done]. simpl.
      unfold buffered, buffer_ok in *. rewrite Hc in *.
      intros H. apply (f_equal length) in H.
      rewrite length_take in H. simpl in H. lia.
  - by rewrite flush_None.
Qed.

Lemma write_state (self : t) (b : bytes) :
  ∃ self0 chunk,
    (write b self).2 = set_chunk (Some (BytesIO.write chunk b).2) self0
    ∧ ((self0 = (flush self).2 ∧ chunk = BytesIO.new)
       ∨ (self0 = self ∧ _chunk self = Some chunk
          ∧ chunk_is_full self = false)).
Proof.
  destruct (chunk_is_full self) eqn:Hfull.
  - exists (flush self).2, BytesIO.new. rewrite write_roll by done. auto.
  - destruct (_chunk self) as [chunk|] eqn:Hc.
    + exists self, chunk. rewrite (write_append self b chunk) by done. auto.
    + unfold chunk_is_full in Hfull. by rewrite Hc in Hfull.
Qed.

Lemma length_BytesIO_write (chunk : BytesIO.t) (b : bytes) :
  (BytesIO.pos (BytesIO.write chunk b).2
   ≤ length (BytesIO.buf (BytesIO.write chunk b).2))%nat.
Proof.
  simpl. rewrite !length_app, length_take, length_replicate. lia.
Qed.

Lemma take_BytesIO_write (chunk : BytesIO.t) (b : bytes) :
  (BytesIO.pos chunk ≤ length (BytesIO.buf chunk))%nat →
  take (BytesIO.pos (BytesIO.write chunk b).2)
    (BytesIO.buf (BytesIO.write chunk b).2)
  = take (BytesIO.pos chunk) (BytesIO.buf chunk) ++ b.
Proof.
  intros Hok. simpl.
  replace (BytesIO.pos chunk - length (BytesIO.buf chunk))%nat
    with 0%nat by lia. simpl.
  rewrite app_assoc.
  rewrite take_app_le by (rewrite length_app, length_take; lia).
  rewrite take_ge by (rewrite length_app, length_take; lia). done.
Qed.

Lemma write_buffer_ok (self : t) (b : bytes) : buffer_ok (write b self).2.
Proof.
  destruct (write_state self b) as (self0 & chunk & -> & _).
  unfold buffer_ok, set_chunk. cbn [_chunk].
  apply length_BytesIO_write.
Qed.

Lemma write_ids_ok (self : t) (b : bytes) :
  ids_ok self → ids_ok (write b self).2.
Proof.
  intros Hids.
  destruct (write_state self b) as (self0 & chunk & -> & [[-> _]|[-> _]]).
  - by apply flush_ids_ok in Hids.
  - done.
Qed.

Lemma write_committed (self : t) (b : bytes) :
  BlobClient.committed (_client (write b self).2)
  = BlobClient.committed (_client self).
Proof.
  destruct (write_state self b) as (self0 & chunk & -> & [[-> _]|[-> _]]).
  - apply flush_committed.
  - done.
Qed.

Lemma write_nonempty_blocks (self : t) (b : bytes) :
  buffer_ok self →
  Forall (λ p, p.2 ≠ []) (BlobClient.staged (_client self)) →
  Forall (λ p, p.2 ≠ []) (BlobClient.staged (_client (write b self).2)).
Proof.
  intros Hok Hne.
  destruct (write_state self b) as (self0 & chunk & -> & [[-> _]|[-> _]]).
  - by apply flush_nonempty_blocks.
  - done.
Qed.

(** Staged and buffered bytes together grow by exactly [b]. *)
Lemma write_content (self : t) (b : bytes) :
  buffer_ok self →
  staged_bytes (write b self).2 ++ buffered (write b self).2
  = staged_bytes self ++ buffered self ++ b.
Proof.
  intros Hok.
  destruct (write_state self b)
    as (self0 & chunk & -> & [[-> ->]|(-> & Hc & _)]).
  - unfold buffered at 1. cbn [_chunk set_chunk].
    rewrite take_BytesIO_write by (simpl; lia).
    change (staged_bytes (set_chunk ?c ?s)) with (staged_bytes s).
    rewrite flush_staged_bytes by done. simpl. by rewrite <- app_assoc.
  - unfold buffered. cbn [_chunk set_chunk]. rewrite Hc.
    unfold buffer_ok in Hok. rewrite Hc in Hok.
    by rewrite take_BytesIO_write.
Qed.
End writer.

Section writer_runs.
Import AzureBlobWriter.

Lemma close_ids_ok (self : t) : ids_ok self → ids_ok (close self).2.
Proof.
  intros Hids%flush_ids_ok. rewrite close_eq. simpl.
  by destruct (bool_decide _).
Qed.

Lemma close_buffer_ok (self : t) :
  buffer_ok self → buffer_ok (close self).2.
Proof.
  intros Hok%flush_buffer_ok. rewrite close_eq. simpl.
  by destruct (bool_decide _).
Qed.

Lemma do_call_ids_ok (c : call) (self : t) :
  ids_ok self → ids_ok (do_call c self).2.
Proof.
  intros Hids. destruct c as [b| |]; simpl.
  - rewrite (bind_return _ _ _ _ _
               (outcome_state _ _ (write_returns self b))).
    by apply write_ids_ok.
  - by apply flush_ids_ok.
  - by apply close_ids_ok.
Qed.

Lemma do_calls_ids_ok (cs : list call) (self : t) :
  ids_ok self → ids_ok (do_calls cs self).2.
Proof.
  revert self. induction cs as [|c cs IH]; intros self Hids; [done|].
  rewrite do_calls_cons. by apply IH, do_call_ids_ok.
Qed.

Lemma init_ids_ok (client : BlobClient.t) (size : Z) :
  BlobClient.staged client = [] → ids_ok (__init__ client size).
Proof. intros Hs. unfold ids_ok. simpl. by rewrite Hs. Qed.

(** With the invariant, the number of staged blocks is the index plus
    one. *)
Lemma ids_ok_count (self : t) :
  ids_ok self →
  _chunk_idx self + 1 = len (BlobClient.staged (_client self)).
Proof.
  intros (Hidx & Hblocks & Hstaged). unfold len.
  rewrite <- (length_fmap fst), Hstaged, Hblocks, length_fmap, length_seqZ.
  lia.
Qed.

(** A run of writes only. *)
Lemma writes_invariant (ws : list bytes) (self : t) :
  buffer_ok self →
  Forall (λ p, p.2 ≠ []) (BlobClient.staged (_client self)) →
  let self' := (do_calls (Write <$> ws) self).2 in
  buffer_ok self'
  ∧ Forall (λ p, p.2 ≠ []) (BlobClient.staged (_client self'))
  ∧ BlobClient.committed (_client self')
    = BlobClient.committed (_client self)
  ∧ staged_bytes self' ++ buffered self'
    = staged_bytes self ++ buffered self ++ concat ws.
Proof.
  revert self. induction ws as [|b ws IH]; intros self Hok Hne.
  { simpl. by rewrite app_nil_r. }
  cbn zeta. rewrite fmap_cons, do_calls_cons. simpl (do_call _ _).
  rewrite (bind_return _ _ _ _ _ (outcome_state _ _ (write_returns self b))).
  simpl (_ .2).
  destruct (IH (write b self).2 (write_buffer_ok self b)
              (write_nonempty_blocks self b Hok Hne))
    as (Hok' & Hne' & Hcom & Hcontent).
  split_and!; [done|done| |].
  - by rewrite Hcom, write_committed.
  - rewrite Hcontent, app_assoc, write_content by done. simpl.
    by rewrite <- !app_assoc.
Qed.

(** Looking staged blocks up by identifier gives them back in order when
    no identifier occurs twice. *)
Lemma staged_block_lookup (blocks : list (string * bytes)) :
  NoDup blocks.*1 →
  concat (map (BlobClient.staged_block blocks) blocks.*1)
  = concat blocks.*2.
Proof.
  induction blocks as [|[i data] rest IH]; intros Hnd; [done|].
  rewrite !fmap_cons in *. apply list.NoDup_cons in Hnd as [Hi Hnd].
  cbn [map concat fst snd]. f_equal.
  - cbn [BlobClient.staged_block].
    destruct (existsb (String.eqb i) rest.*1) eqn:Hex.
    + apply existsb_exists in Hex as (x & Hx & Heq).
      apply String.eqb_eq in Heq as <-. by apply list_elem_of_In in Hx.
    + by rewrite String.eqb_refl.
  - rewrite <- IH by done. f_equal. apply map_ext_in. intros x Hx.
    cbn [BlobClient.staged_block].
    replace (existsb (String.eqb x) rest.*1) with true; [done|].
    symmetry. apply existsb_exists. exists x. split; [done|].
    apply String.eqb_refl.
Qed.

Lemma ids_ok_NoDup (self : t) :
  ids_ok self → NoDup (BlobClient.staged (_client self)).*1.
Proof.
  intros (_ & Hblocks & ->). rewrite Hblocks.
  apply (@NoDup_fmap_2 _ _ block_id_of block_id_of_inj), NoDup_seqZ.
Qed.

Lemma nonempty_blocks_nil (blocks : list (string * bytes)) :
  Forall (λ p, p.2 ≠ []) blocks → concat blocks.*2 = [] → blocks = [].
Proof.
  intros Hne Hnil. destruct blocks as [|[i data] rest]; [done|].
  apply list.Forall_cons in Hne as [Hd _]. simpl in *.
  by apply app_eq_nil in Hnil as [? _].
Qed.

(** C1. For every sequence of write calls W1..Wn issued to an
    AzureBlobWriter, with any split of the bytes across the calls and any
    configured block size (positive or not), [close()] commits a block
    list whose staged bytes, concatenated in committed order, are the
    concatenation of W1..Wn in issue order: the identifiers committed are
    those of the [stage_block] calls in staging order, the staged bytes
    concatenate to the written bytes, and the blob the backend assembles
    from the committed list is the written bytes.  (With no byte written
    there is no block and no commit call.) *)
Theorem close_commits_the_written_bytes
    (name : string) (consumes : bool) (size : Z) (ws : list bytes) :
  let run :=
    do_calls ((Write <$> ws) ++ [Close])
      (__init__ (BlobClient.new name consumes) size) in
  let client := _client run.2 in
  run.1 = Return tt
  ∧ (BlobClient.staged client).*1 = _blocks run.2
  ∧ concat (BlobClient.staged client).*2 = concat ws
  ∧ BlobClient.committed client
    = (if decide (concat ws = []) then [] else [_blocks run.2])
  ∧ BlobClient.blob_content client = concat ws.
Proof.
  cbn zeta. split; [apply do_calls_returns|].
  rewrite do_calls_app.
  set (self0 := __init__ (BlobClient.new name consumes) size).
  assert (Hids0 : ids_ok self0) by (by apply init_ids_ok).
  destruct (writes_invariant ws self0 I (Forall_nil_2 _))
    as (Hok & Hne & Hcom & Hcontent).
  pose proof (do_calls_ids_ok (Write <$> ws) self0 Hids0) as Hids.
  set (self1 := (do_calls (Write <$> ws) self0).2) in *.
  rewrite do_calls_cons. simpl (do_calls [] _). simpl (do_call _ _).
  cbn [snd ret]. rewrite close_eq. cbn [snd].
  pose proof (flush_ids_ok self1 Hids) as Hids2.
  pose proof (flush_staged_bytes self1 Hok) as Hbytes.
  pose proof (flush_nonempty_blocks self1 Hok Hne) as Hne2.
  pose proof (flush_committed self1) as Hcom2.
  set (self2 := (flush self1).2) in *.
  rewrite Hcontent in Hbytes. simpl in Hbytes. unfold staged_bytes in Hbytes.
  rewrite Hcom in Hcom2. simpl in Hcom2.
  pose proof Hids2 as (_ & _ & Hstaged).
  pose proof (staged_block_lookup _ (ids_ok_NoDup self2 Hids2)) as Hlookup.
  destruct (decide (concat ws = [])) as [Hnil|Hnonnil].
  - rewrite Hnil in Hbytes.
    pose proof (nonempty_blocks_nil _ Hne2 Hbytes) as Hs.
    assert (Hb : _blocks self2 = []) by (by rewrite <- Hstaged, Hs).
    rewrite bool_decide_eq_false_2 by (by intros []).
    unfold BlobClient.blob_content. rewrite Hcom2, Hs, Hb, Hnil. done.
  - assert (Hb : _blocks self2 ≠ []).
    { intros Hb. rewrite <- Hstaged in Hb.
      apply fmap_nil_inv in Hb. rewrite Hb in Hbytes. done. }
    rewrite bool_decide_eq_true_2 by done.
    unfold BlobClient.blob_content. simpl. rewrite Hcom2. simpl.
    rewrite <- Hstaged, Hlookup. done.
Qed.
End writer_runs.

Section writer_claims.
Import AzureBlobWriter.

(** C2, as the code has it.  For every AzureBlobWriter with configured
    block size S and every write call: if the buffer is unset or already
    holds S bytes or more ([tell() >= S]), the writer flushes (staging the
    buffered bytes as a block when there are any) and starts a new buffer
    before the new bytes are appended; otherwise the bytes are appended to
    the current buffer and nothing is flushed, also when the result
    exceeds S.  So the buffer that receives the bytes of a write is either
    new or holds fewer than S bytes. *)
Theorem write_rolls_over_when_full (self : t) (b : bytes) :
  (_chunk self = None
   ∨ (∃ chunk, _chunk self = Some chunk
               ∧ _chunk_size self ≤ BytesIO.tell chunk) →
   write b self =
     (Return (len b),
      set_chunk (Some (BytesIO.write BytesIO.new b).2) (flush self).2))
  ∧ (∀ chunk, _chunk self = Some chunk →
       _chunk_size self ≤ BytesIO.tell chunk → 0 < BytesIO.tell chunk →
       BlobClient.staged (_client (write b self).2)
       = BlobClient.staged (_client self)
         ++ [(block_id_of (_chunk_idx self + 1), buffered self)]
       ∧ buffered (write b self).2 = b)
  ∧ (∀ chunk, _chunk self = Some chunk →
       BytesIO.tell chunk < _chunk_size self →
       write b self =
         (Return (len b), set_chunk (Some (BytesIO.write chunk b).2) self)).
Proof.
  split_and!.
  - intros Hfull. apply write_roll. unfold chunk_is_full.
    destruct Hfull as [->|(chunk & -> & Hle)]; [done|]. by apply Z.leb_le.
  - intros chunk Hc Hle Hpos. rewrite write_roll.
    2:{ unfold chunk_is_full. rewrite Hc. by apply Z.leb_le. }
    rewrite (flush_stage self chunk Hc) by (unfold BytesIO.tell in Hpos; lia).
    cbn [snd]. split; [done|]. unfold buffered. cbn [_chunk set_chunk].
    rewrite take_BytesIO_write by (simpl; lia). done.
  - intros chunk Hc Hlt. apply write_append; [done|].
    unfold chunk_is_full. rewrite Hc. by apply Z.leb_gt.
Qed.

Lemma write_rolls_over_when_full_witness :
  let self := (write three_bytes (__init__ (BlobClient.new "blob" false) 3)).2 in
  (write two_bytes self =
     (Return 2,
      set_chunk (Some (BytesIO.write BytesIO.new two_bytes).2) (flush self).2)
   ∧ BlobClient.staged (_client (write two_bytes self).2)
     = [("MDAwMDA=", three_bytes)]
   ∧ buffered (write two_bytes self).2 = two_bytes)
  ∧ let self4 :=
      (write three_bytes (__init__ (BlobClient.new "blob" false) 4)).2 in
    write two_bytes self4
    = (Return 2,
       set_chunk
         (Some (BytesIO.write
                  {| BytesIO.buf := three_bytes; BytesIO.pos := 3 |}
                  two_bytes).2) self4).
Proof.
  cbn zeta. split.
  - destruct (write_rolls_over_when_full
                (write three_bytes (__init__ (BlobClient.new "blob" false) 3)).2
                two_bytes) as (Hroll & Hstage & _).
    split.
    + apply Hroll. right. eexists. split; [reflexivity|].
      vm_compute. discriminate.
    + apply (Hstage {| BytesIO.buf := three_bytes; BytesIO.pos := 3 |});
        [reflexivity | vm_compute; discriminate | reflexivity].
  - apply (write_rolls_over_when_full
             (write three_bytes (__init__ (BlobClient.new "blob" false) 4)).2
             two_bytes); reflexivity.
Defined.

(** C2 as stated fails: with block size 4 and 3 bytes buffered, a write of
    2 bytes would make the buffer exceed the block size, yet nothing is
    flushed and the buffer ends up holding 5 bytes. *)
Lemma write_past_block_size_does_not_flush :
  let self :=
    (write three_bytes (__init__ (BlobClient.new "blob" false) 4)).2 in
  let self' := (write two_bytes self).2 in
  buffered self = three_bytes
  ∧ _chunk_size self < len (buffered self) + len two_bytes
  ∧ BlobClient.staged (_client self') = []
  ∧ _blocks self' = []
  ∧ buffered self' = three_bytes ++ two_bytes
  ∧ _chunk_size self' < len (buffered self').
Proof. vm_compute. done. Qed.

(** *** Block identifiers *)

Lemma do_call_Write (b : bytes) (self : t) :
  (do_call (Write b) self).2 = (write b self).2.
Proof.
  unfold do_call.
  by rewrite (bind_return _ _ _ _ _
                (outcome_state _ _ (write_returns self b))).
Qed.

Lemma do_calls_one (c : call) (self : t) :
  (do_calls [c] self).2 = (do_call c self).2.
Proof. by rewrite do_calls_cons. Qed.

(** A run of one-byte writes with block size 1: every write after the
    first stages the byte before it. *)
Lemma one_byte_writes (x : byte) (client : BlobClient.t) (n : nat) :
  let self :=
    (do_calls (replicate (S n) (Write [x])) (__init__ client 1)).2 in
  _chunk self = Some {| BytesIO.buf := [x]; BytesIO.pos := 1 |}
  ∧ _chunk_size self = 1
  ∧ _chunk_idx self = Z.of_nat n - 1.
Proof.
  cbn zeta. induction n as [|n (Hchunk & Hsize & Hidx)].
  { change (replicate 1 (Write [x])) with [Write [x]].
    rewrite do_calls_one, do_call_Write, write_roll by done.
    by rewrite flush_None. }
  rewrite replicate_S_end, do_calls_app.
  set (self := (do_calls (replicate (S n) (Write [x])) (__init__ client 1)).2)
    in *.
  rewrite do_calls_one, do_call_Write, write_roll.
  2:{ unfold chunk_is_full. by rewrite Hchunk, Hsize. }
  rewrite (flush_stage self _ Hchunk) by done. simpl.
  split_and!; [done|done|lia].
Qed.

(** C4, as the code has it.  The AzureBlobWriter has no limit on the
    number of blocks: in every state [_new_block_id] returns normally,
    moves the index on by exactly one and encodes it without wrapping (the
    identifier decodes to the new index), and no write, flush or close
    call raises, however many blocks were staged before.  A capacity error
    can only come from the backend. *)
Theorem block_count_is_not_limited (self : t) (cs : list call) :
  _new_block_id self
  = (Return (block_id_of (_chunk_idx self + 1)),
     set_chunk_idx (_chunk_idx self + 1) self)
  ∧ decode_block_id (block_id_of (_chunk_idx self + 1))
    = Some (_chunk_idx self + 1)
  ∧ (do_calls cs self).1 = Return tt.
Proof.
  split_and!; [done | apply decode_block_id_of | apply do_calls_returns].
Qed.

(** After [n + 1] one-byte writes with block size 1, [n] blocks are
    staged and a flush stages one more, under the identifier of index
    [n]. *)
Lemma one_byte_writes_flush (x : byte) (client : BlobClient.t) (n : nat) :
  BlobClient.staged client = [] →
  let self :=
    (do_calls (replicate (S n) (Write [x])) (__init__ client 1)).2 in
  len (BlobClient.staged (_client self)) = Z.of_nat n
  ∧ (flush self).1 = Return tt
  ∧ len (BlobClient.staged (_client (flush self).2)) = Z.of_nat n + 1
  ∧ _chunk_idx (flush self).2 = Z.of_nat n
  ∧ _blocks (flush self).2 = _blocks self ++ [block_id_of (Z.of_nat n)]
  ∧ _blocks (flush self).2 = block_id_of <$> seqZ 0 (Z.of_nat n + 1).
Proof.
  intros Hstaged.
  destruct (one_byte_writes x client n) as (Hchunk & Hsize & Hidx).
  pose proof (do_calls_ids_ok (replicate (S n) (Write [x]))
                (__init__ client 1) (init_ids_ok client 1 Hstaged)) as Hids.
  cbn zeta.
  generalize dependent
    (do_calls (replicate (S n) (Write [x])) (__init__ client 1)).2.
  intros self Hchunk Hsize Hidx Hids.
  pose proof (ids_ok_count self Hids) as Hcount.
  pose proof (flush_ids_ok self Hids) as Hids'.
  pose proof (ids_ok_count _ Hids') as Hcount'.
  destruct Hids' as (_ & Hblocks' & _). revert Hcount' Hblocks'.
  rewrite (flush_stage self _ Hchunk) by done. simpl.
  intros Hcount' Hblocks'.
  replace (_chunk_idx self + 1) with (Z.of_nat n) in * by lia.
  split_and!; [lia | done | lia | done | done | done].
Qed.

(** C4 as stated fails: after 50001 one-byte writes with block size 1 the
    writer has staged 50000 blocks (indices 0 to 49999) and buffers one
    more byte; the next flush raises nothing and stages block number
    50001 under the identifier of index 50000. *)
Lemma flush_past_50000_blocks_returns :
  let self :=
    (do_calls (replicate (S (Z.to_nat 50000)) (Write ["x"%byte]))
       (__init__ (BlobClient.new "blob" false) 1)).2 in
  len (BlobClient.staged (_client self)) = 50000
  ∧ (flush self).1 = Return tt
  ∧ len (BlobClient.staged (_client (flush self).2)) = 50001
  ∧ _chunk_idx (flush self).2 = 50000
  ∧ _blocks (flush self).2 = _blocks self ++ ["NTAwMDA="].
Proof.
  pose proof (one_byte_writes_flush "x" (BlobClient.new "blob" false)
                (Z.to_nat 50000) eq_refl) as H.
  rewrite Z2Nat.id in H by lia.
  destruct H as (H1 & H2 & H3 & H4 & H5 & _).
  split_and!; [exact H1 | exact H2 | exact H3 | exact H4 | exact H5].
Qed.

Lemma decode_block_ids (l : list Z) :
  mapM decode_block_id (block_id_of <$> l) = Some l.
Proof. apply mapM_fmap_Some, decode_block_id_of. Qed.

(** C5, as the code has it.  For every run of write, flush and close
    calls on a new AzureBlobWriter that makes k staging flushes, the list
    of block identifiers has length k; the identifier at position i is the
    URL-safe base64 encoding of the decimal string of i, zero-padded to
    five digits at least; the identifiers decode to 0, 1, .., k-1, which
    increase strictly in list order; up to 100000 blocks every padded
    string has exactly five digits, and up to 1000000 blocks every
    identifier has the same encoded length, 8. *)
Theorem block_ids_of_a_run
    (name : string) (consumes : bool) (size : Z) (cs : list call) :
  let self :=
    (do_calls cs (__init__ (BlobClient.new name consumes) size)).2 in
  let k := len (BlobClient.staged (_client self)) in
  len (_blocks self) = k
  ∧ _blocks self
    = (λ i, decode_utf8 (urlsafe_b64encode (encode_utf8 (format_05 i))))
        <$> seqZ 0 k
  ∧ mapM decode_block_id (_blocks self) = Some (seqZ 0 k)
  ∧ (∀ (i j : nat) (a b : Z),
       (i < j)%nat → seqZ 0 k !! i = Some a → seqZ 0 k !! j = Some b →
       a < b)
  ∧ (k ≤ 100000 →
     Forall (λ i, String.length (format_05 i) = 5%nat) (seqZ 0 k))
  ∧ (k ≤ 1000000 →
     Forall (λ block_id, String.length block_id = 8%nat) (_blocks self)).
Proof.
  cbn zeta.
  pose proof (do_calls_ids_ok cs _
                (init_ids_ok (BlobClient.new name consumes) size eq_refl))
    as Hids.
  set (self := (do_calls cs _).2) in *.
  pose proof (ids_ok_count self Hids) as Hcount.
  destruct Hids as (Hidx & Hblocks & Hstaged).
  rewrite Hcount in Hblocks.
  set (k := len (BlobClient.staged (_client self))) in *.
  split_and!.
  - unfold len, k. by rewrite <- Hstaged, length_fmap.
  - exact Hblocks.
  - rewrite Hblocks. apply decode_block_ids.
  - intros i j a b Hij [-> _]%lookup_seqZ [-> _]%lookup_seqZ. lia.
  - intros Hk. apply Forall_seqZ. intros i Hi. apply length_format_05. lia.
  - intros Hk. rewrite Hblocks. apply Forall_fmap, Forall_seqZ.
    intros i Hi. apply length_block_id_of. lia.
Qed.

Lemma block_ids_of_a_run_witness :
  let self :=
    (do_calls [Write three_bytes; Write two_bytes; Flush; Write two_bytes;
               Close]
       (__init__ (BlobClient.new "blob" false) 4)).2 in
  Forall (λ block_id, String.length block_id = 8%nat) (_blocks self).
Proof.
  apply (block_ids_of_a_run "blob" false 4
           [Write three_bytes; Write two_bytes; Flush; Write two_bytes;
            Close]).
  vm_compute. discriminate.
Defined.

(** After [n + 1] one-byte writes with block size 1 and a close,
    [n + 1] blocks are staged, with the identifiers of 0 to [n]. *)
Lemma one_byte_writes_close (x : byte) (client : BlobClient.t) (n : nat) :
  BlobClient.staged client = [] →
  let self :=
    (do_calls (replicate (S n) (Write [x]) ++ [Close])
       (__init__ client 1)).2 in
  len (BlobClient.staged (_client self)) = Z.of_nat n + 1
  ∧ _blocks self = block_id_of <$> seqZ 0 (Z.of_nat n + 1).
Proof.
  intros Hstaged. cbn zeta.
  rewrite do_calls_app, do_calls_one. cbn [do_call].
  destruct (one_byte_writes_flush x client n Hstaged)
    as (_ & _ & Hcount & _ & _ & Hblocks).
  revert Hcount Hblocks.
  generalize (do_calls (replicate (S n) (Write [x])) (__init__ client 1)).2.
  intros self Hcount Hblocks. rewrite close_eq. cbn [snd].
  by destruct (bool_decide _).
Qed.

(** C5 as stated fails: 1000001 one-byte writes with block size 1 and a
    close stage 1000001 blocks; the identifier of index 0 has 8
    characters and the identifier of index 1000000 has 12. *)
Lemma block_ids_differ_in_length :
  let self :=
    (do_calls (replicate (S (Z.to_nat 1000000)) (Write ["x"%byte]) ++ [Close])
       (__init__ (BlobClient.new "blob" false) 1)).2 in
  len (BlobClient.staged (_client self)) = 1000001
  ∧ "MDAwMDA=" ∈ _blocks self
  ∧ "MTAwMDAwMA==" ∈ _blocks self
  ∧ String.length "MDAwMDA=" ≠ String.length "MTAwMDAwMA==".
Proof.
  pose proof (one_byte_writes_close "x" (BlobClient.new "blob" false)
                (Z.to_nat 1000000) eq_refl) as H.
  rewrite Z2Nat.id in H by lia. destruct H as [Hcount Hblocks].
  cbn zeta. rewrite Hblocks. split_and!.
  - exact Hcount.
  - change "MDAwMDA=" with (block_id_of 0).
    apply list_elem_of_fmap_2, elem_of_seqZ. lia.
  - change "MTAwMDAwMA==" with (block_id_of 1000000).
    apply list_elem_of_fmap_2, elem_of_seqZ. lia.
  - cbn. lia.
Qed.

(** *** Closing twice *)

(** After a flush through a client that leaves the stream where it found
    it, the buffer is unset or at position 0. *)
Lemma flush_rewinds (self : t) :
  BlobClient.consumes_stream (_client self) = false →
  match _chunk (flush self).2 with
  | None => True
  | Some chunk => BytesIO.pos chunk = 0%nat
  end.
Proof.
  intros Hcons. destruct (_chunk self) as [chunk|] eqn:Hc.
  - destruct (decide (BytesIO.pos chunk = 0%nat)) as [H0|H0].
    + rewrite (flush_pos_0 self chunk) by done. cbn [snd]. by rewrite Hc.
    + rewrite (flush_stage self chunk) by done. simpl. by rewrite Hcons.
  - rewrite flush_None by done. cbn [snd]. by rewrite Hc.
Qed.

Lemma flush_consumes_stream (self : t) :
  BlobClient.consumes_stream (_client (flush self).2)
  = BlobClient.consumes_stream (_client self).
Proof.
  destruct (_chunk self) as [chunk|] eqn:Hc.
  - destruct (decide (BytesIO.pos chunk = 0%nat)) as [H0|H0].
    + by rewrite (flush_pos_0 self chunk).
    + by rewrite (flush_stage self chunk).
  - by rewrite flush_None.
Qed.

Lemma len_buffered (self : t) (chunk : BytesIO.t) :
  buffer_ok self → _chunk self = Some chunk →
  len (buffered self) = BytesIO.tell chunk.
Proof.
  unfold buffer_ok, buffered, len, BytesIO.tell. intros Hok Hchunk.
  rewrite Hchunk in *. rewrite length_take. lia.
Qed.

(** What [flush] stages: nothing, or the buffer as one more block. *)
Lemma flush_staged_cases (self : t) :
  (BlobClient.staged (_client (flush self).2)
   = BlobClient.staged (_client self)
   ∧ _blocks (flush self).2 = _blocks self
   ∧ (_chunk self = None
      ∨ ∃ chunk, _chunk self = Some chunk ∧ BytesIO.pos chunk = 0%nat))
  ∨ (∃ chunk,
       _chunk self = Some chunk ∧ BytesIO.pos chunk ≠ 0%nat
       ∧ BlobClient.staged (_client (flush self).2)
         = BlobClient.staged (_client self)
           ++ [(block_id_of (_chunk_idx self + 1), buffered self)]
       ∧ _blocks (flush self).2
         = _blocks self ++ [block_id_of (_chunk_idx self + 1)]).
Proof.
  destruct (_chunk self) as [chunk|] eqn:Hchunk.
  - destruct (decide (BytesIO.pos chunk = 0%nat)) as [Hpos|Hpos].
    + left. rewrite (flush_pos_0 self chunk Hchunk Hpos).
      split_and!; [done|done|right; by exists chunk].
    + right. exists chunk. by rewrite (flush_stage self chunk Hchunk Hpos).
  - left. rewrite (flush_None self Hchunk). split_and!; [done|done|by left].
Qed.

Lemma flush_blocks_nil (self : t) :
  _blocks (flush self).2 = [] → _blocks self = [].
Proof.
  destruct (flush_staged_cases self)
    as [(_ & -> & _)|(chunk & _ & _ & _ & ->)]; [done|].
  by intros [_ ?]%app_eq_nil.
Qed.

Lemma flush_blocks_nonempty (self : t) :
  _blocks self ≠ [] → _blocks (flush self).2 ≠ [].
Proof. intros Hne Hnil. by apply Hne, flush_blocks_nil. Qed.

(** [close] stages what its flush stages. *)
Lemma close_staged (self : t) :
  BlobClient.staged (_client (close self).2)
  = BlobClient.staged (_client (flush self).2)
  ∧ _blocks (close self).2 = _blocks (flush self).2.
Proof. rewrite close_eq. cbn [snd]. by destruct (bool_decide _). Qed.

Lemma close_chunk (self : t) : _chunk (close self).2 = _chunk (flush self).2.
Proof. rewrite close_eq. cbn [snd]. by destruct (bool_decide _). Qed.

(** When the block list is not empty after the flush, [close] commits
    it. *)
Lemma close_commits (self : t) :
  _blocks (flush self).2 ≠ [] →
  BlobClient.committed (_client (close self).2)
  = BlobClient.committed (_client self) ++ [_blocks (close self).2].
Proof.
  intros Hne. rewrite close_eq. cbn [snd].
  rewrite bool_decide_eq_true_2 by done. simpl. by rewrite flush_committed.
Qed.

(** Through a client that leaves the stream at the end of the bytes it
    sent, a flush keeps the buffered bytes in the buffer. *)
Lemma flush_keeps_a_consumed_buffer (self : t) :
  BlobClient.consumes_stream (_client self) = true →
  buffer_ok self →
  buffered (flush self).2 = buffered self.
Proof.
  intros Hcons Hok. destruct (_chunk self) as [chunk|] eqn:Hc.
  - destruct (decide (BytesIO.pos chunk = 0%nat)) as [H0|H0].
    + by rewrite (flush_pos_0 self chunk).
    + rewrite (flush_stage self chunk) by done. rewrite Hcons.
      unfold buffered at 1. cbn [snd _chunk BytesIO.pos BytesIO.buf].
      unfold buffered. rewrite Hc, length_take.
      unfold buffer_ok in Hok. rewrite Hc in Hok.
      by rewrite Nat.min_l by done.
  - by rewrite flush_None.
Qed.

(** C10, as the code has it.  [close] is not idempotent: for a writer
    whose block list is non-empty after a first [close()], a second
    [close()] calls [commit_block_list] again, with the block list the
    writer then has.  When the client's [stage_block] leaves the buffer at
    position 0, the second close stages no new block (its flush changes
    nothing) and commits the same block list, the one the first close
    committed; the writer is then in the same situation, so every further
    close repeats the commit call.  When [stage_block] leaves the stream
    at the end of the bytes it sent, the buffer still holds after the
    first close what it held before: if that is nothing, the second close
    again commits the same list; otherwise it stages those bytes once
    more, as a new block, and commits the list with the new block's
    identifier added. *)
Theorem second_close_commits_again (self : t) :
  let self1 := (close self).2 in
  _blocks self1 ≠ [] →
  (BlobClient.committed (_client self1)
   = BlobClient.committed (_client self) ++ [_blocks self1]
   ∧ (close self1).1 = Return tt
   ∧ BlobClient.committed (_client (close self1).2)
     = BlobClient.committed (_client self)
       ++ [_blocks self1; _blocks (close self1).2])
  ∧ (BlobClient.consumes_stream (_client self) = false →
     flush self1 = (Return tt, self1)
     ∧ BlobClient.consumes_stream (_client (close self1).2) = false
     ∧ close self1
       = (Return tt,
          set_client
            (BlobClient.commit_block_list (_blocks self1) (_client self1)).2
            self1)
     ∧ BlobClient.staged (_client (close self1).2)
       = BlobClient.staged (_client self1)
     ∧ _blocks (close self1).2 = _blocks self1
     ∧ BlobClient.committed (_client (close self1).2)
       = BlobClient.committed (_client self)
         ++ [_blocks self1; _blocks self1])
  ∧ (BlobClient.consumes_stream (_client self) = true →
     buffer_ok self →
     buffered self1 = buffered self
     ∧ (buffered self = [] →
        BlobClient.staged (_client (close self1).2)
        = BlobClient.staged (_client self1)
        ∧ _blocks (close self1).2 = _blocks self1)
     ∧ (buffered self ≠ [] →
        BlobClient.staged (_client (close self1).2)
        = BlobClient.staged (_client self1)
          ++ [(block_id_of (_chunk_idx self1 + 1), buffered self)]
        ∧ _blocks (close self1).2
          = _blocks self1 ++ [block_id_of (_chunk_idx self1 + 1)])).
Proof.
  cbn zeta. intros Hne.
  destruct (close_staged self) as [_ Hblocks1].
  assert (Hb : _blocks (flush self).2 ≠ []) by by rewrite <- Hblocks1.
  pose proof (close_commits self Hb) as Hcom1.
  assert (Hb2 : _blocks (flush (close self).2).2 ≠ [])
    by by apply flush_blocks_nonempty.
  pose proof (close_commits (close self).2 Hb2) as Hcom2.
  split_and!.
  - done.
  - by rewrite close_eq.
  - rewrite Hcom2, Hcom1. by rewrite <- app_assoc.
  - intros Hcons. rewrite (close_eq self) in *. cbn [snd] in *.
    pose proof (flush_rewinds self Hcons) as Hpos.
    pose proof (flush_committed self) as Hcom.
    pose proof (flush_consumes_stream self) as Hcons0.
    rewrite Hcons in Hcons0.
    set (self0 := (flush self).2) in *.
    rewrite bool_decide_eq_true_2 in * by done.
    set (self1 := set_client _ self0) in *.
    assert (Hflush : flush self1 = (Return tt, self1)).
    { destruct (_chunk self0) as [chunk|] eqn:Hc.
      - by apply (flush_pos_0 self1 chunk).
      - by apply flush_None. }
    assert (Hclose : close self1
              = (Return tt,
                 set_client
                   (BlobClient.commit_block_list (_blocks self1)
                      (_client self1)).2 self1)).
    { rewrite close_eq, Hflush. cbn [snd].
      change (_blocks self1) with (_blocks self0).
      by rewrite bool_decide_eq_true_2. }
    rewrite Hclose. split_and!; [done|done|done|done|done|].
    simpl. rewrite Hcom. by rewrite <- app_assoc.
  - intros Hcons Hok.
    pose proof (flush_keeps_a_consumed_buffer self Hcons Hok) as Hbuf.
    assert (Hbuf1 : buffered (close self).2 = buffered self).
    { unfold buffered at 1. rewrite close_chunk. exact Hbuf. }
    assert (Hok1 : buffer_ok (close self).2) by by apply close_buffer_ok.
    destruct (close_staged (close self).2) as [-> ->].
    split_and!; [done|..].
    + intros Hnil. rewrite Hnil in Hbuf1.
      destruct (flush_staged_cases (close self).2)
        as [(-> & -> & _)|(chunk & Hchunk & Hpos & _)]; [done|].
      pose proof (len_buffered _ chunk Hok1 Hchunk) as Hlen.
      rewrite Hbuf1 in Hlen. unfold len, BytesIO.tell in Hlen.
      simpl in Hlen. lia.
    + intros Hfull. rewrite <- Hbuf1 in *.
      destruct (flush_staged_cases (close self).2)
        as [(_ & _ & [Hchunk|(chunk & Hchunk & Hpos)])
           |(chunk & _ & _ & -> & ->)]; [| |done].
      * unfold buffered in Hfull. by rewrite Hchunk in Hfull.
      * unfold buffered in Hfull. rewrite Hchunk, Hpos in Hfull.
        by rewrite take_0 in Hfull.
Qed.

Lemma second_close_commits_again_witness :
  let self :=
    (write three_bytes (__init__ (BlobClient.new "blob" false) 4)).2 in
  BlobClient.committed (_client (close (close self).2).2)
  = [["MDAwMDA="]; ["MDAwMDA="]]
  ∧ BlobClient.staged (_client (close (close self).2).2)
    = [("MDAwMDA=", three_bytes)].
Proof.
  cbn zeta.
  set (self := (write three_bytes (__init__ (BlobClient.new "blob" false) 4)).2).
  destruct (second_close_commits_again self)
    as (_ & Hrewound & _).
  - vm_compute. discriminate.
  - destruct (Hrewound eq_refl) as (_ & _ & _ & Hstaged & _ & Hcommitted).
    rewrite Hstaged, Hcommitted. vm_compute. done.
Defined.

(** C10 as stated fails: with a client whose [stage_block] leaves the
    stream at its end, the position is not 0 after the first close, and the
    second close stages the buffered bytes once more and commits a longer
    block list. *)
Lemma second_close_stages_again_on_a_consumed_stream :
  let self :=
    (write three_bytes (__init__ (BlobClient.new "blob" true) 4)).2 in
  BlobClient.staged (_client (close (close self).2).2)
  = [("MDAwMDA=", three_bytes); ("MDAwMDE=", three_bytes)]
  ∧ BlobClient.committed (_client (close (close self).2).2)
    = [["MDAwMDA="]; ["MDAwMDA="; "MDAwMDE="]].
Proof. vm_compute. done. Qed.
End writer_claims.

(** ** The reader *)

Section slices.
Context {A : Type}.
Implicit Types l : list A.

Lemma slice_index_nonneg l (i : Z) :
  0 ≤ i → slice_index l i = Z.to_nat (Z.min i (len l)).
Proof. intros Hi. unfold slice_index. by rewrite (proj2 (Z.ltb_ge i 0)). Qed.

Lemma slice_index_le l (i : Z) : (slice_index l i ≤ length l)%nat.
Proof. unfold slice_index, len. destruct (Z.ltb_spec i 0); lia. Qed.

(** A slice that starts inside the list is a prefix of what follows its
    start. *)
Lemma py_slice_from l (lo hi : Z) :
  0 ≤ lo ≤ len l →
  py_slice l lo hi
  = take (slice_index l hi - Z.to_nat lo) (drop (Z.to_nat lo) l).
Proof.
  intros Hlo. unfold py_slice. rewrite slice_index_nonneg by lia.
  rewrite Z.min_l by lia. apply skipn_firstn_comm.
Qed.

Lemma py_slice_positive l (pos size : Z) :
  0 ≤ pos ≤ len l → 0 < size →
  py_slice l pos (pos + size)
  = take (Z.to_nat size) (drop (Z.to_nat pos) l).
Proof.
  intros Hpos Hsize. rewrite py_slice_from by done.
  rewrite slice_index_nonneg by lia. unfold len in *.
  destruct (decide (pos + size ≤ Z.of_nat (length l))) as [Hle|Hgt].
  - rewrite Z.min_l by lia. f_equal. lia.
  - rewrite Z.min_r by lia.
    rewrite !take_ge; [done|rewrite length_drop; lia..].
Qed.

Lemma length_py_slice_from l (lo hi : Z) :
  0 ≤ lo ≤ len l →
  (length (py_slice l lo hi) ≤ length l - Z.to_nat lo)%nat.
Proof.
  intros Hlo. rewrite py_slice_from by done.
  rewrite length_take, length_drop. lia.
Qed.
End slices.

Section reader.
Import AzureBlobReader.

Lemma get_chunk_data_0 (self : t) : _get_chunk_data 0 self = (Return [], self).
Proof. done. Qed.

(** The current chunk has bytes left: they are served, nothing is
    fetched. *)
Lemma get_chunk_data_serve (self : t) (size : Z) (chunk : bytes) :
  size ≠ 0 → _chunk self = Some chunk → _chunk_pos self < len chunk →
  _get_chunk_data size self
  = (Return (py_slice chunk (_chunk_pos self) (_chunk_pos self + size)),
     set_chunk_pos
       (_chunk_pos self
        + len (py_slice chunk (_chunk_pos self) (_chunk_pos self + size)))
       self).
Proof.
  intros Hsize Hc Hpos. unfold _get_chunk_data.
  rewrite (proj2 (Z.eqb_neq size 0)) by done.
  unfold try_except, bind, get, ret, modify, chunk_is_consumed.
  rewrite Hc. rewrite (proj2 (Z.leb_gt _ _)) by done. by rewrite Hc.
Qed.

(** No chunk, or the chunk was handed out entirely: the next chunk is
    fetched and served from its start. *)
Lemma get_chunk_data_fetch (self : t) (size : Z) (chunk : bytes)
    (rest : list bytes) :
  size ≠ 0 → chunk_is_consumed self = true →
  ChunkIter.pending (_chunk_iter self) = chunk :: rest →
  _get_chunk_data size self
  = (Return (py_slice chunk 0 (0 + size)),
     {| _chunk_iter :=
          {| ChunkIter.pending := rest;
             ChunkIter.next_calls :=
               S (ChunkIter.next_calls (_chunk_iter self)) |};
        _chunk_size := _chunk_size self;
        _chunk := Some chunk;
        _chunk_pos := 0 + len (py_slice chunk 0 (0 + size)) |}).
Proof.
  intros Hsize Hcons Hpending. unfold _get_chunk_data.
  rewrite (proj2 (Z.eqb_neq size 0)) by done.
  unfold try_except, bind, get, ret, modify. rewrite Hcons.
  unfold _next_chunk, on_chunk_iter, ChunkIter.next, bind, modify.
  by rewrite Hpending.
Qed.

(** The chunk was handed out entirely and there is no next chunk:
    [StopIteration] is caught and nothing is returned; the chunk and the
    position stay. *)
Lemma get_chunk_data_exhausted (self : t) (size : Z) :
  size ≠ 0 → chunk_is_consumed self = true →
  ChunkIter.pending (_chunk_iter self) = [] →
  _get_chunk_data size self
  = (Return [],
     set_chunk_iter
       {| ChunkIter.pending := [];
          ChunkIter.next_calls :=
            S (ChunkIter.next_calls (_chunk_iter self)) |} self).
Proof.
  intros Hsize Hcons Hpending. unfold _get_chunk_data.
  rewrite (proj2 (Z.eqb_neq size 0)) by done.
  unfold try_except, bind, get, ret, modify. rewrite Hcons.
  unfold _next_chunk, on_chunk_iter, ChunkIter.next, bind, modify.
  by rewrite Hpending.
Qed.

Lemma get_chunk_data_returns (self : t) (size : Z) :
  ∃ data, (_get_chunk_data size self).1 = Return data.
Proof.
  destruct (decide (size = 0)) as [->|Hsize]; [by eexists|].
  destruct (chunk_is_consumed self) eqn:Hcons.
  - destruct (ChunkIter.pending (_chunk_iter self)) as [|c rest] eqn:Hp.
    + rewrite get_chunk_data_exhausted by done. by eexists.
    + rewrite (get_chunk_data_fetch self size c rest) by done. by eexists.
  - unfold chunk_is_consumed in Hcons.
    destruct (_chunk self) as [chunk|] eqn:Hc; [|done].
    apply Z.leb_gt in Hcons.
    rewrite (get_chunk_data_serve self size chunk) by done. by eexists.
Qed.

Lemma init_wf (chunks : list bytes) (chunk_size : Z) :
  wf (__init__ chunks chunk_size).
Proof. done. Qed.

(** What one call of [_get_chunk_data] does, in terms of the unread
    bytes. *)
Lemma get_chunk_data_spec (self : t) (size : Z) :
  wf self →
  ∃ data self',
    _get_chunk_data size self = (Return data, self')
    ∧ wf self'
    ∧ unread self = data ++ unread self'
    ∧ _chunk_size self' = _chunk_size self
    ∧ (ChunkIter.pending (_chunk_iter self')
         `suffix_of` ChunkIter.pending (_chunk_iter self)).
Proof.
  intros Hwf. destruct (decide (size = 0)) as [->|Hsize].
  { exists [], self. by rewrite get_chunk_data_0. }
  destruct (chunk_is_consumed self) eqn:Hcons.
  - assert (Hnil : match _chunk self with
                   | None => []
                   | Some chunk => drop (Z.to_nat (_chunk_pos self)) chunk
                   end = []).
    { unfold chunk_is_consumed, wf in *.
      destruct (_chunk self) as [chunk|]; [|done].
      apply Z.leb_le in Hcons. apply drop_ge. unfold len in *. lia. }
    destruct (ChunkIter.pending (_chunk_iter self)) as [|c rest] eqn:Hp.
    + eexists _, _. rewrite get_chunk_data_exhausted by done.
      split_and!; [done|done| |done|done].
      unfold unread. simpl. by rewrite Hp.
    + eexists _, _. rewrite (get_chunk_data_fetch self size c rest) by done.
      split_and!; [done| | |done|].
      * unfold wf. simpl.
        pose proof (length_py_slice_from c 0 (0 + size)) as Hlen.
        unfold len in *. lia.
      * unfold unread. simpl. rewrite Hnil, Hp. simpl.
        rewrite py_slice_from by (unfold len; lia).
        change (Z.to_nat 0) with 0%nat. rewrite drop_0, Nat.sub_0_r.
        rewrite Z.add_0_l. unfold len. rewrite Z.add_0_l, Nat2Z.id.
        rewrite app_assoc. f_equal.
        rewrite length_take.
        rewrite Nat.min_l by apply slice_index_le.
        by rewrite take_drop.
      * simpl. by apply suffix_cons_r.
  - unfold chunk_is_consumed in Hcons.
    destruct (_chunk self) as [chunk|] eqn:Hc; [|done].
    apply Z.leb_gt in Hcons.
    assert (Hpos : 0 ≤ _chunk_pos self ≤ len chunk).
    { unfold wf in Hwf. by rewrite Hc in Hwf. }
    eexists _, _. rewrite (get_chunk_data_serve self size chunk) by done.
    pose proof (length_py_slice_from chunk (_chunk_pos self)
                  (_chunk_pos self + size) Hpos) as Hlen.
    split_and!; [done| | |done|done].
    + unfold wf. simpl. rewrite Hc. unfold len in *. lia.
    + unfold unread. simpl. rewrite Hc. rewrite app_assoc. f_equal.
      rewrite py_slice_from by done.
      set (k := (slice_index chunk (_chunk_pos self + size)
                 - Z.to_nat (_chunk_pos self))%nat).
      unfold len. rewrite length_take, length_drop.
      replace (Z.to_nat (_chunk_pos self
                         + Z.of_nat (k `min` (length chunk
                                              - Z.to_nat (_chunk_pos self)))))
        with (Z.to_nat (_chunk_pos self)
              + k `min` (length chunk - Z.to_nat (_chunk_pos self)))%nat
        by lia.
      rewrite <- drop_drop.
      rewrite <- (take_drop k (drop (Z.to_nat (_chunk_pos self)) chunk)) at 1.
      f_equal. destruct (decide (k ≤ length chunk - Z.to_nat (_chunk_pos self))%nat).
      * by rewrite Nat.min_l by done.
      * rewrite Nat.min_r by lia.
        rewrite !drop_ge; [done|rewrite length_drop; lia..].
Qed.

(** The three cases of a call with a positive size. *)
Lemma get_chunk_data_positive (self : t) (size : Z) :
  wf self → 0 < size →
  (∃ chunk,
     chunk_is_consumed self = false ∧ _chunk self = Some chunk
     ∧ 0 ≤ _chunk_pos self < len chunk
     ∧ _get_chunk_data size self
       = (Return (take (Z.to_nat size)
                    (drop (Z.to_nat (_chunk_pos self)) chunk)),
          set_chunk_pos
            (_chunk_pos self
             + len (take (Z.to_nat size)
                      (drop (Z.to_nat (_chunk_pos self)) chunk))) self))
  ∨ (∃ chunk rest,
       chunk_is_consumed self = true
       ∧ ChunkIter.pending (_chunk_iter self) = chunk :: rest
       ∧ _get_chunk_data size self
         = (Return (take (Z.to_nat size) chunk),
            {| _chunk_iter :=
                 {| ChunkIter.pending := rest;
                    ChunkIter.next_calls :=
                      S (ChunkIter.next_calls (_chunk_iter self)) |};
               _chunk_size := _chunk_size self;
               _chunk := Some chunk;
               _chunk_pos := len (take (Z.to_nat size) chunk) |}))
  ∨ (chunk_is_consumed self = true
     ∧ ChunkIter.pending (_chunk_iter self) = []
     ∧ _get_chunk_data size self
       = (Return [],
          set_chunk_iter
            {| ChunkIter.pending := [];
               ChunkIter.next_calls :=
                 S (ChunkIter.next_calls (_chunk_iter self)) |} self)).
Proof.
  intros Hwf Hsize. destruct (chunk_is_consumed self) eqn:Hcons.
  - right.
    destruct (ChunkIter.pending (_chunk_iter self)) as [|c rest] eqn:Hp.
    + right. by rewrite get_chunk_data_exhausted by (done || lia).
    + left. exists c, rest.
      rewrite (get_chunk_data_fetch self size c rest) by (done || lia).
      rewrite (py_slice_positive c 0 size) by (unfold len; lia).
      change (Z.to_nat 0) with 0%nat. by rewrite drop_0.
  - left. unfold chunk_is_consumed in Hcons.
    destruct (_chunk self) as [chunk|] eqn:Hc; [|done].
    apply Z.leb_gt in Hcons.
    assert (Hpos : 0 ≤ _chunk_pos self ≤ len chunk).
    { unfold wf in Hwf. by rewrite Hc in Hwf. }
    exists chunk.
    rewrite (get_chunk_data_serve self size chunk) by (done || lia).
    rewrite py_slice_positive by done. split_and!; [done|done|lia|lia|done].
Qed.

Lemma unread_consumed (self : t) :
  wf self → chunk_is_consumed self = true →
  unread self = concat (ChunkIter.pending (_chunk_iter self)).
Proof.
  unfold wf, chunk_is_consumed, unread. intros Hwf Hcons.
  destruct (_chunk self) as [chunk|]; [|done].
  apply Z.leb_le in Hcons. rewrite drop_ge; [done|]. unfold len in *. lia.
Qed.

Lemma unread_serving (self : t) (chunk : bytes) :
  _chunk self = Some chunk →
  unread self
  = drop (Z.to_nat (_chunk_pos self)) chunk
    ++ concat (ChunkIter.pending (_chunk_iter self)).
Proof. unfold unread. by intros ->. Qed.

(** A call with a positive size that returns nothing, while no pending
    chunk is empty, has reached the end of the data. *)
Lemma get_chunk_data_end (self : t) (size : Z) :
  wf self → 0 < size →
  Forall (λ c, c ≠ []) (ChunkIter.pending (_chunk_iter self)) →
  (_get_chunk_data size self).1 = Return [] →
  unread (_get_chunk_data size self).2 = [].
Proof.
  intros Hwf Hsize Hne.
  destruct (get_chunk_data_positive self size Hwf Hsize)
    as [(chunk & Hcons & Hc & Hpos & ->)
       |[(chunk & rest & Hcons & Hp & ->)|(Hcons & Hp & ->)]];
    cbn [fst snd]; intros Hdata.
  - injection Hdata as Hdata. apply (f_equal length) in Hdata.
    rewrite length_take, length_drop in Hdata. unfold len in *.
    simpl in Hdata. lia.
  - injection Hdata as Hdata. rewrite Hp in Hne.
    apply list.Forall_cons in Hne as [Hchunk _].
    destruct chunk; [done|].
    destruct (Z.to_nat size) eqn:Hs; [lia|done].
  - by rewrite unread_consumed by done.
Qed.

Lemma suffix_Forall {A} (P : A → Prop) (l1 l2 : list A) :
  l1 `suffix_of` l2 → Forall P l2 → Forall P l1.
Proof. intros [k ->] H. by apply Forall_app in H as [_ ?]. Qed.

(** The loop of [readinto] ends within its fuel and hands out the unread
    bytes in order. *)
Lemma readinto_loop_spec (fuel : nat) (size : Z) (data stream : bytes)
    (self : t) :
  wf self →
  (length (unread self) + (if decide (data = []) then 1 else 2) ≤ fuel)%nat →
  ∃ out self',
    readinto_loop fuel size data stream self
    = Some (Return (stream ++ data ++ out), self')
    ∧ wf self'
    ∧ unread self = out ++ unread self'
    ∧ _chunk_size self' = _chunk_size self
    ∧ (ChunkIter.pending (_chunk_iter self')
         `suffix_of` ChunkIter.pending (_chunk_iter self))
    ∧ (0 < size →
       Forall (λ c, c ≠ []) (ChunkIter.pending (_chunk_iter self)) →
       (data = [] → unread self = []) →
       unread self' = []).
Proof.
  revert data stream self.
  induction fuel as [|fuel IH]; intros data stream self Hwf Hfuel.
  { destruct (decide (data = [])); lia. }
  cbn [readinto_loop]. destruct data as [|b data].
  { exists [], self. simpl. rewrite app_nil_r.
    split_and!; [done|done|done|done|done|auto]. }
  change (0 <? len (b :: data)) with true. cbn match.
  destruct (get_chunk_data_spec self size Hwf)
    as (data' & self1 & Hget & Hwf1 & Hunread & Hsize & Hsuffix).
  rewrite Hget.
  destruct (IH data' (stream ++ b :: data) self1 Hwf1)
    as (out & self' & Hloop & Hwf' & Hunread' & Hsize' & Hsuffix' & Hend).
  { rewrite decide_False in Hfuel by done.
    apply (f_equal length) in Hunread. rewrite length_app in Hunread.
    destruct (decide (data' = [])) as [->|Hne]; [simpl in Hunread; lia|].
    destruct data'; [done|]. simpl in Hunread. lia. }
  exists (data' ++ out), self'. rewrite Hloop.
  split_and!; [|done| | | |].
  - by rewrite <- !app_assoc.
  - by rewrite Hunread, Hunread', app_assoc.
  - by rewrite Hsize'.
  - by etrans.
  - intros Hpos Hne _. apply Hend; [done| |].
    + by apply (suffix_Forall _ _ _ Hsuffix).
    + intros ->. pose proof (get_chunk_data_end self size Hwf Hpos Hne) as H.
      rewrite Hget in H. by apply H.
Qed.

Lemma readall_spec (self : t) :
  wf self →
  ∃ out self',
    readall self = Some (Return out, self')
    ∧ wf self'
    ∧ unread self = out ++ unread self'
    ∧ _chunk_size self' = _chunk_size self
    ∧ (ChunkIter.pending (_chunk_iter self')
         `suffix_of` ChunkIter.pending (_chunk_iter self))
    ∧ (0 < _chunk_size self →
       Forall (λ c, c ≠ []) (ChunkIter.pending (_chunk_iter self)) →
       unread self' = []).
Proof.
  intros Hwf. unfold readall, readinto.
  destruct (get_chunk_data_spec self (_chunk_size self) Hwf)
    as (data & self1 & Hget & Hwf1 & Hunread & Hsize & Hsuffix).
  rewrite Hget.
  destruct (readinto_loop_spec (S (length (unread self))) (_chunk_size self)
              data [] self1 Hwf1)
    as (out & self' & Hloop & Hwf' & Hunread' & Hsize' & Hsuffix' & Hend).
  { apply (f_equal length) in Hunread. rewrite length_app in Hunread.
    destruct (decide (data = [])) as [->|Hne]; [simpl in Hunread; lia|].
    destruct data; [done|]. simpl in Hunread. lia. }
  exists (data ++ out), self'. rewrite Hloop.
  split_and!; [done|done| | | |].
  - by rewrite Hunread, Hunread', app_assoc.
  - by rewrite Hsize'.
  - by etrans.
  - intros Hpos Hne. apply Hend; [done| |].
    + by apply (suffix_Forall _ _ _ Hsuffix).
    + intros ->.
      pose proof (get_chunk_data_end self _ Hwf Hpos Hne) as H.
      rewrite Hget in H. by apply H.
Qed.

Lemma read_spec (self : t) (size : Z) :
  wf self →
  ∃ data self',
    read size self = Some (Return data, self')
    ∧ wf self'
    ∧ unread self = data ++ unread self'.
Proof.
  intros Hwf. unfold read. destruct (size <? 0).
  - destruct (readall_spec self Hwf) as (out & self' & -> & ? & ? & _).
    by exists out, self'.
  - destruct (get_chunk_data_spec self size Hwf)
      as (data & self' & -> & ? & ? & _).
    by exists data, self'.
Qed.

Lemma reads_spec (sizes : list Z) (self : t) :
  wf self →
  ∃ datas self',
    reads sizes self = Some (Return datas, self')
    ∧ length datas = length sizes
    ∧ wf self'
    ∧ unread self = concat datas ++ unread self'.
Proof.
  revert self. induction sizes as [|size sizes IH]; intros self Hwf.
  { by exists [], self. }
  destruct (read_spec self size Hwf) as (data & self1 & Hread & Hwf1 & Hun).
  destruct (IH self1 Hwf1) as (datas & self' & Hreads & Hlen & Hwf' & Hun').
  exists (data :: datas), self'. cbn [reads]. rewrite Hread, Hreads.
  split_and!; [done|by simpl; rewrite Hlen|done|].
  simpl. by rewrite Hun, Hun', app_assoc.
Qed.

(** Every read of a positive size takes a byte or a chunk, so a run of
    them drains the reader. *)
Lemma read_positive_progress (self : t) (size : Z) :
  wf self → 0 < size →
  ∃ data self',
    read size self = Some (Return data, self')
    ∧ (length (unread self')
       + length (ChunkIter.pending (_chunk_iter self'))
       ≤ length (unread self)
         + length (ChunkIter.pending (_chunk_iter self)) - 1)%nat.
Proof.
  intros Hwf Hsize. unfold read. rewrite (proj2 (Z.ltb_ge size 0)) by lia.
  destruct (get_chunk_data_positive self size Hwf Hsize)
    as [(chunk & Hcons & Hc & Hpos & ->)
       |[(chunk & rest & Hcons & Hp & ->)|(Hcons & Hp & ->)]];
    eexists _, _; (split; [done|]).
  - rewrite (unread_serving self chunk Hc).
    rewrite (unread_serving _ chunk) by done. simpl.
    rewrite !length_app, !length_drop. unfold len in *.
    rewrite length_take, length_drop. lia.
  - rewrite (unread_consumed self Hwf Hcons), Hp. unfold unread. simpl.
    rewrite !length_app, length_drop. unfold len. lia.
  - rewrite (unread_consumed self Hwf Hcons), Hp. unfold unread. simpl.
    destruct (_chunk self) as [chunk|] eqn:Hc; [|simpl; lia].
    unfold chunk_is_consumed in Hcons. rewrite Hc in Hcons.
    apply Z.leb_le in Hcons. rewrite app_nil_r.
    rewrite length_drop. unfold len in *. lia.
Qed.

Lemma reads_positive_drain (sizes : list Z) (self : t) :
  wf self → Forall (λ size, 0 < size) sizes →
  (length (unread self) + length (ChunkIter.pending (_chunk_iter self))
   ≤ length sizes)%nat →
  ∃ datas self',
    reads sizes self = Some (Return datas, self') ∧ unread self' = [].
Proof.
  revert self. induction sizes as [|size sizes IH]; intros self Hwf Hpos Hlen.
  { exists [], self. split; [done|]. simpl in Hlen.
    destruct (unread self); [done | simpl in Hlen; lia]. }
  apply list.Forall_cons in Hpos as [Hsize Hpos].
  destruct (read_positive_progress self size Hwf Hsize)
    as (data & self1 & Hread & Hprogress).
  destruct (read_spec self size Hwf) as (data' & self1' & Hread' & Hwf1 & _).
  rewrite Hread in Hread'. injection Hread' as <- <-.
  destruct (IH self1 Hwf1 Hpos) as (datas & self' & Hreads & Hdone).
  { simpl in Hlen. lia. }
  exists (data :: datas), self'. cbn [reads]. by rewrite Hread, Hreads.
Qed.
End reader.

Section reader_claims.
Import AzureBlobReader.

Lemma concat_nil_replicate (datas : list bytes) :
  concat datas = [] → datas = replicate (length datas) [].
Proof.
  induction datas as [|d datas IH]; [done|]. simpl.
  intros [-> H]%app_eq_nil. by rewrite <- IH.
Qed.

(** C3, as the code has it.  For every AzureBlobReader and every n > 0,
    [read(n)] returns at most n bytes, and it returns fewer than n bytes
    only when it has handed out the rest of the current chunk (the one
    buffered before the call or the one the call fetched), which need not
    be the end of the data; once every chunk has been fetched and handed
    out, every subsequent read returns the empty byte string; [read] with
    a negative (or omitted) size reads to exhaustion and returns all
    remaining bytes, when the configured chunk size is positive and the
    backend yields no empty chunk. *)
Theorem read_contract (self : t) :
  wf self →
  (∀ n, 0 < n →
     ∃ data self',
       read n self = Some (Return data, self')
       ∧ len data ≤ n
       ∧ (len data < n → chunk_is_consumed self' = true))
  ∧ (unread self = [] →
     ∀ sizes, ∃ self',
       reads sizes self = Some (Return (replicate (length sizes) []), self'))
  ∧ (∀ n, n < 0 → 0 < _chunk_size self →
     Forall (λ c, c ≠ []) (ChunkIter.pending (_chunk_iter self)) →
     ∃ self',
       read n self = Some (Return (unread self), self')
       ∧ unread self' = []).
Proof.
  intros Hwf. split_and!.
  - intros n Hn. unfold read. rewrite (proj2 (Z.ltb_ge n 0)) by lia.
    destruct (get_chunk_data_positive self n Hwf Hn)
      as [(chunk & Hcons & Hc & Hpos & ->)
         |[(chunk & rest & Hcons & Hp & ->)|(Hcons & Hp & ->)]];
      eexists _, _; (split; [done|]).
    + unfold chunk_is_consumed. simpl. rewrite Hc.
      unfold len in *. rewrite length_take, length_drop.
      split; [lia|]. intros Hlt. apply Z.leb_le. lia.
    + unfold chunk_is_consumed. simpl.
      unfold len in *. rewrite length_take.
      split; [lia|]. intros Hlt. apply Z.leb_le. lia.
    + split; [unfold len; simpl; lia|done].
  - intros Hnil sizes.
    destruct (reads_spec sizes self Hwf)
      as (datas & self' & Hreads & Hlen & _ & Hun).
    exists self'. rewrite Hreads, <- Hlen. do 3 f_equal.
    apply concat_nil_replicate. rewrite Hnil in Hun.
    symmetry in Hun. by apply app_eq_nil in Hun as [? _].
  - intros n Hn Hsize Hne. unfold read. rewrite (proj2 (Z.ltb_lt n 0)) by done.
    destruct (readall_spec self Hwf)
      as (out & self' & -> & _ & Hun & _ & _ & Hend).
    exists self'. specialize (Hend Hsize Hne).
    by rewrite Hun, Hend, app_nil_r.
Qed.

Lemma read_contract_witness :
  let self := __init__ [three_bytes; two_bytes] 4 in
  (∃ data self',
     read 2 self = Some (Return data, self') ∧ len data ≤ 2)
  ∧ (∃ self',
       read (-1) self = Some (Return (three_bytes ++ two_bytes), self')
       ∧ unread self' = []).
Proof.
  cbn zeta.
  destruct (read_contract (__init__ [three_bytes; two_bytes] 4)
              (init_wf _ _)) as (Hpos & _ & Hneg).
  split.
  - destruct (Hpos 2 ltac:(lia)) as (data & self' & Hread & Hle & _).
    by exists data, self'.
  - apply (Hneg (-1)); [lia | simpl; lia |].
    repeat constructor; discriminate.
Defined.

(** C3 as stated fails.  With chunks of 3 and 2 bytes, [read(4)] returns
    3 bytes although 2 more follow: fewer than asked, and not at the end
    of the data.  With an empty chunk among the chunks, or a chunk size
    of 0, [read(-1)] stops before the end and leaves bytes for the next
    read. *)
Lemma read_returns_fewer_before_the_end :
  fst <$> reads [4; 4] (__init__ [three_bytes; two_bytes] 4)
  = Some (Return [three_bytes; two_bytes])
  ∧ fst <$> reads [-1; -1] (__init__ [three_bytes; []; two_bytes] 4)
    = Some (Return [three_bytes; two_bytes])
  ∧ fst <$> reads [-1; 4] (__init__ [three_bytes] 0)
    = Some (Return [[]; three_bytes]).
Proof. vm_compute. done. Qed.

(** C6.  For every AzureBlobReader over a backend chunk sequence, any
    sequence of read calls with arbitrary request sizes yields the
    original bytes in order: what the calls return, followed by what is
    still unread, is the concatenation of the chunks, so the reads have
    returned exactly the original N bytes once nothing is unread, which
    any run of N + (number of chunks) reads of positive sizes achieves; a
    read of size 0 returns no bytes and leaves the reader as it is (no
    chunk is fetched); and a read of positive size calls the chunk
    iterator at most once: exactly once when the buffered chunk is unset
    or fully consumed, and then the bytes served are those of the chunk
    just fetched, and not at all otherwise. *)
Theorem reads_yield_the_chunks_in_order
    (chunks : list bytes) (chunk_size : Z) (sizes : list Z) :
  (∃ datas self',
     reads sizes (__init__ chunks chunk_size) = Some (Return datas, self')
     ∧ length datas = length sizes
     ∧ concat datas ++ unread self' = concat chunks
     ∧ (unread self' = [] → concat datas = concat chunks)
     ∧ (Forall (λ size, 0 < size) sizes →
        (length (concat chunks) + length chunks ≤ length sizes)%nat →
        concat datas = concat chunks))
  ∧ (∀ self, read 0 self = Some (Return [], self))
  ∧ (∀ self n, wf self → 0 < n →
     ∃ data self',
       read n self = Some (Return data, self')
       ∧ ChunkIter.next_calls (_chunk_iter self')
         = (ChunkIter.next_calls (_chunk_iter self)
            + (if chunk_is_consumed self then 1 else 0))%nat
       ∧ (chunk_is_consumed self = false →
          _chunk_iter self' = _chunk_iter self ∧ _chunk self' = _chunk self)
       ∧ (∀ chunk rest,
            chunk_is_consumed self = true →
            ChunkIter.pending (_chunk_iter self) = chunk :: rest →
            ChunkIter.pending (_chunk_iter self') = rest
            ∧ _chunk self' = Some chunk
            ∧ data = take (Z.to_nat n) chunk)).
Proof.
  split_and!.
  - pose proof (init_wf chunks chunk_size) as Hwf.
    destruct (reads_spec sizes _ Hwf)
      as (datas & self' & Hreads & Hlen & _ & Hun).
    change (unread (__init__ chunks chunk_size)) with (concat chunks) in Hun.
    exists datas, self'. split_and!; [done|done|done| |].
    + intros Hnil. by rewrite Hun, Hnil, app_nil_r.
    + intros Hpos Hlong.
      destruct (reads_positive_drain sizes _ Hwf Hpos Hlong)
        as (datas' & self'' & Hreads' & Hnil).
      rewrite Hreads in Hreads'. injection Hreads' as <- <-.
      by rewrite Hun, Hnil, app_nil_r.
  - done.
  - intros self n Hwf Hn. unfold read. rewrite (proj2 (Z.ltb_ge n 0)) by lia.
    destruct (get_chunk_data_positive self n Hwf Hn)
      as [(chunk & Hcons & Hc & Hpos & ->)
         |[(chunk & rest & Hcons & Hp & ->)|(Hcons & Hp & ->)]];
      eexists _, _; (split; [done|]); rewrite Hcons; simpl.
    + split_and!; [lia|done|done].
    + split_and!; [lia|done|].
      intros chunk' rest' _ Heq. rewrite Hp in Heq. by injection Heq as <- <-.
    + split_and!; [lia|done|].
      intros chunk' rest' _ Heq. by rewrite Hp in Heq.
Qed.

Lemma reads_yield_the_chunks_in_order_witness :
  ∃ datas self',
    reads [2; 2; 2; 2; 2; 2; 2] (__init__ [three_bytes; two_bytes] 4)
    = Some (Return datas, self')
    ∧ concat datas = three_bytes ++ two_bytes.
Proof.
  destruct (reads_yield_the_chunks_in_order [three_bytes; two_bytes] 4
              [2; 2; 2; 2; 2; 2; 2])
    as ((datas & self' & Hreads & _ & _ & _ & Hall) & _ & _).
  exists datas, self'. split; [exact Hreads|].
  apply Hall; [repeat constructor; lia | simpl; lia].
Defined.
End reader_claims.

(** ** The non-blocking IO manager *)

Section manager.
Import NonBlockingIOManager Manager.

(** One call on a handle whose path is registered: the closure goes to
    the end of the path's queue, and nothing else changes. *)
Lemma notify_manager_registered (path : string) (io_callable : job)
    (m : t) (pd : PathData.t) :
  _path_to_data m !! path = Some pd →
  NonBlockingIO._notify_manager path io_callable m
  = (Return tt,
     set_path_to_data
       (<[path := PathData.put (Some io_callable) pd]> (_path_to_data m)) m).
Proof. unfold NonBlockingIO._notify_manager. by intros ->. Qed.

(** On a handle whose path is not registered (any more) the lookup
    fails. *)
Lemma notify_manager_unregistered (path : string) (io_callable : job)
    (m : t) :
  _path_to_data m !! path = None →
  NonBlockingIO._notify_manager path io_callable m
  = (Raise (KeyError path), m).
Proof. unfold NonBlockingIO._notify_manager. by intros ->. Qed.

Lemma do_call_registered (self : NonBlockingIO.t) (c : NonBlockingIO.call)
    (m : t) (pd : PathData.t) :
  _path_to_data m !! NonBlockingIO._path self = Some pd →
  NonBlockingIO.do_call self c m
  = (Return tt,
     set_path_to_data
       (<[NonBlockingIO._path self :=
            PathData.put (Some (NonBlockingIO.job_of self c)) pd]>
          (_path_to_data m)) m).
Proof.
  intros Hpd. destruct c; simpl;
    unfold NonBlockingIO.write, NonBlockingIO.close;
    by rewrite (notify_manager_registered _ _ m pd).
Qed.

(** C7.  For every NonBlockingIO handle whose path is registered, each
    write call and each close call enqueues exactly one closure into the
    queue registered for that handle's path, in the order the calls were
    made: after any run of calls the queue is the old queue followed by
    the closures of the calls, one per call, in call order.  Neither call
    executes the underlying file write or close on the caller's thread:
    the file objects, the pool and the jobs it has run, and the other
    paths' entries are unchanged. *)
Theorem handle_calls_enqueue_in_order
    (self : NonBlockingIO.t) (cs : list NonBlockingIO.call) (m : t)
    (pd : PathData.t) :
  _path_to_data m !! NonBlockingIO._path self = Some pd →
  ∃ m',
    NonBlockingIO.do_calls self cs m = (Return tt, m')
    ∧ _path_to_data m'
      = <[NonBlockingIO._path self :=
            {| PathData.queue :=
                 PathData.queue pd
                 ++ (Some ∘ NonBlockingIO.job_of self <$> cs);
               PathData.thread := PathData.thread pd;
               PathData.thread_status := PathData.thread_status pd |}]>
          (_path_to_data m)
    ∧ files m' = files m
    ∧ _pool m' = _pool m
    ∧ threads_created m' = threads_created m.
Proof.
  revert m pd. induction cs as [|c cs IH]; intros m pd Hpd.
  { exists m. simpl. rewrite app_nil_r. split_and!; try done.
    symmetry. apply insert_id. by destruct pd. }
  cbn [NonBlockingIO.do_calls].
  rewrite (bind_return _ _ _ _ _ (do_call_registered self c m pd Hpd)).
  set (pd1 := PathData.put (Some (NonBlockingIO.job_of self c)) pd).
  set (m1 := set_path_to_data
               (<[NonBlockingIO._path self := pd1]> (_path_to_data m)) m).
  destruct (IH m1 pd1) as (m' & -> & Hreg & Hfiles & Hpool & Hn).
  { simpl. apply lookup_insert_eq. }
  exists m'. split_and!; [done| |done|done|done].
  rewrite Hreg. simpl. rewrite insert_insert_eq.
  by rewrite <- app_assoc.
Qed.

Lemma handle_calls_enqueue_in_order_witness :
  ∃ m',
    NonBlockingIO.do_calls sample_handle
      [NonBlockingIO.Write three_bytes; NonBlockingIO.Close] sample_manager
    = (Return tt, m')
    ∧ _path_to_data m' !! "p"
      = Some {| PathData.queue :=
                  [Some (FileWrite 0 three_bytes); Some (FileClose 0)];
                PathData.thread := 0;
                PathData.thread_status := Polling |}
    ∧ files m' = files sample_manager.
Proof.
  destruct (handle_calls_enqueue_in_order sample_handle
              [NonBlockingIO.Write three_bytes; NonBlockingIO.Close]
              sample_manager
              {| PathData.queue := []; PathData.thread := 0;
                 PathData.thread_status := Polling |})
    as (m' & Hcalls & Hreg & Hfiles & _).
  - vm_compute. reflexivity.
  - exists m'. split_and!; [exact Hcalls | | exact Hfiles].
    rewrite Hreg. apply lookup_insert_eq.
Defined.

(** *** Joining *)

Lemma truthy_Some (path : string) : path ≠ "" → truthy (Some path) = true.
Proof.
  intros Hne. unfold truthy. apply negb_true_iff. by apply String.eqb_neq.
Qed.

(** The polling loop over a queue that ends with the sentinel: the thread
    ends, having run a prefix of the jobs, in order. *)
Lemma poll_jobs_sentinel (jobs : list job) (pool : Pool.t)
    (fs : gmap nat File.t) :
  ∃ st rest pool' fs' k,
    _poll_jobs ((Some <$> jobs) ++ [None]) pool fs = (st, rest, pool', fs')
    ∧ st ≠ Polling
    ∧ Pool.executed pool' = Pool.executed pool ++ take k jobs
    ∧ Pool.is_shutdown pool' = Pool.is_shutdown pool.
Proof.
  revert pool fs. induction jobs as [|j jobs IH]; intros pool fs.
  { exists Finished, [], pool, fs, 0%nat. simpl. by rewrite app_nil_r. }
  cbn [fmap list_fmap app _poll_jobs].
  destruct (Pool.is_shutdown pool) eqn:Hshut.
  { eexists _, _, pool, fs, 0%nat. simpl. by rewrite app_nil_r. }
  destruct (call_job j fs) as [[[]|e] fs1].
  - destruct (IH {| Pool.is_shutdown := false;
                    Pool.executed := Pool.executed pool ++ [j] |} fs1)
      as (st & rest & pool' & fs' & k & -> & Hst & Hex & Hshut').
    exists st, rest, pool', fs', (S k). split_and!; [done|done| |done].
    rewrite Hex. simpl. by rewrite <- app_assoc.
  - eexists _, _, _, fs1, 1%nat. split_and!; [done|done| |done].
    simpl. by rewrite take_0.
Qed.

(** When the pool is running and no job raises, the loop runs them all
    and leaves on the sentinel. *)
Lemma poll_jobs_all (jobs : list job) (pool : Pool.t)
    (fs : gmap nat File.t) :
  Pool.is_shutdown pool = false →
  (call_jobs jobs fs).1 = Return tt →
  _poll_jobs ((Some <$> jobs) ++ [None]) pool fs
  = (Finished, [],
     {| Pool.is_shutdown := false;
        Pool.executed := Pool.executed pool ++ jobs |},
     (call_jobs jobs fs).2).
Proof.
  revert pool fs. induction jobs as [|j jobs IH]; intros pool fs Hshut Hok.
  { simpl. rewrite app_nil_r. destruct pool. simpl in *. by subst. }
  cbn [fmap list_fmap app _poll_jobs]. rewrite Hshut.
  cbn [call_jobs] in *. unfold bind in *.
  destruct (call_job j fs) as [[[]|e] fs1]; [|done].
  rewrite IH by done. simpl. by rewrite <- app_assoc.
Qed.

Lemma join_registered (path : string) (m : t) (pd : PathData.t) :
  path ≠ "" →
  _path_to_data m !! path = Some pd →
  PathData.thread_status pd = Polling →
  _join (Some path) m
  = (Return true,
     let '(_, _, pool, fs) :=
       _poll_jobs (PathData.queue pd ++ [None]) (_pool m) (files m) in
     {| _path_to_data := delete path (_path_to_data m); _pool := pool;
        files := fs; threads_created := threads_created m |}).
Proof.
  intros Hne Hpd Hst. unfold _join. rewrite truthy_Some by done.
  change (default "" (Some path)) with path. cbn [negb andb].
  rewrite bool_decide_eq_false_2
    by (intros Hnot; apply Hnot, elem_of_dom; eauto).
  unfold join_loop, join_one. rewrite Hpd.
  unfold run_thread, PathData.put. cbn [PathData.thread_status]. rewrite Hst.
  cbn [PathData.queue].
  by destruct (_poll_jobs _ _ _) as [[[st rest] pool] fs].
Qed.

(** C8, as the code has it.  For every registered, non-empty path whose
    polling thread is running, with N jobs in its queue, [join(path)]
    puts the terminal sentinel after those N jobs, so that the thread runs
    the jobs in order and then ends: all N of them when the pool is
    running and no job raises (a job that raises ends the thread, and the
    jobs after it are not run); it waits for the thread and removes the
    path's entry from the registry, so that a subsequent open for the same
    path creates a new, empty queue and a new polling thread. *)
Theorem join_runs_the_queue_and_unregisters
    (m : t) (path mode : string) (pd : PathData.t) (jobs : list job) :
  path ≠ "" →
  _path_to_data m !! path = Some pd →
  PathData.queue pd = Some <$> jobs →
  PathData.thread_status pd = Polling →
  ∃ m' st rest k,
    _join (Some path) m = (Return true, m')
    ∧ _poll_jobs ((Some <$> jobs) ++ [None]) (_pool m) (files m)
      = (st, rest, _pool m', files m')
    ∧ st ≠ Polling
    ∧ Pool.executed (_pool m') = Pool.executed (_pool m) ++ take k jobs
    ∧ (Pool.is_shutdown (_pool m) = false →
       (call_jobs jobs (files m)).1 = Return tt →
       st = Finished
       ∧ Pool.executed (_pool m') = Pool.executed (_pool m) ++ jobs
       ∧ files m' = (call_jobs jobs (files m)).2)
    ∧ _path_to_data m' = delete path (_path_to_data m)
    ∧ ∃ handle m'',
        get_non_blocking_io path mode m' = (Return handle, m'')
        ∧ _path_to_data m'' !! path
          = Some {| PathData.queue := [];
                    PathData.thread := threads_created m;
                    PathData.thread_status := Polling |}
        ∧ threads_created m'' = S (threads_created m).
Proof.
  intros Hne Hpd Hqueue Hst.
  rewrite (join_registered path m pd Hne Hpd Hst), Hqueue.
  destruct (poll_jobs_sentinel jobs (_pool m) (files m))
    as (st & rest & pool' & fs' & k & Hpoll & Hend & Hex & Hshut).
  rewrite Hpoll. eexists _, st, rest, k.
  split_and!; [done|done|done|done| |done|].
  - intros Hrun Hok. rewrite poll_jobs_all in Hpoll by done.
    injection Hpoll as <- <- <- <-. done.
  - unfold get_non_blocking_io. cbn [_path_to_data].
    rewrite bool_decide_eq_true_2
      by apply not_elem_of_dom, lookup_delete_eq.
    unfold open_file. cbn [files _path_to_data threads_created].
    eexists _, _. split_and!; [done| |done].
    cbn [_path_to_data]. apply lookup_insert_eq.
Qed.

Lemma join_runs_the_queue_and_unregisters_witness :
  ∃ m',
    _join (Some "p")
      (NonBlockingIO.do_calls sample_handle
         [NonBlockingIO.Write three_bytes; NonBlockingIO.Close]
         sample_manager).2
    = (Return true, m')
    ∧ Pool.executed (_pool m') = [FileWrite 0 three_bytes; FileClose 0]
    ∧ _path_to_data m' !! "p" = None.
Proof.
  set (m := (NonBlockingIO.do_calls sample_handle
               [NonBlockingIO.Write three_bytes; NonBlockingIO.Close]
               sample_manager).2).
  destruct (join_runs_the_queue_and_unregisters m "p" "wb"
              {| PathData.queue :=
                   [Some (FileWrite 0 three_bytes); Some (FileClose 0)];
                 PathData.thread := 0;
                 PathData.thread_status := Polling |}
              [FileWrite 0 three_bytes; FileClose 0])
    as (m' & st & rest & k & Hjoin & _ & _ & _ & Hall & Hreg & _).
  - discriminate.
  - vm_compute. reflexivity.
  - reflexivity.
  - reflexivity.
  - exists m'. split_and!; [exact Hjoin | |].
    + destruct Hall as (_ & -> & _); [reflexivity|vm_compute; reflexivity|].
      reflexivity.
    + rewrite Hreg. apply lookup_delete_eq.
Defined.

(** C8 as stated fails: the queue of ["p"] holds three jobs, a close and
    two writes through the same file object.  The first write raises (the
    file is closed), the polling thread ends there, and [join("p")]
    returns with the second write never run. *)
Lemma join_leaves_jobs_after_a_failing_job :
  (PathData.queue <$> _path_to_data sample_manager_closed_early !! "p")
  = Some [Some (FileClose 0); Some (FileWrite 0 three_bytes);
          Some (FileWrite 0 two_bytes)]
  ∧ (_join (Some "p") sample_manager_closed_early).1 = Return true
  ∧ Pool.executed (_pool (_join (Some "p") sample_manager_closed_early).2)
    = [FileClose 0; FileWrite 0 three_bytes]
  ∧ files (_join (Some "p") sample_manager_closed_early).2 !! 0%nat
    = Some {| File.closed := true; File.written := [] |}.
Proof. vm_compute. done. Qed.

(** C9, as the code has it.  Calling [join(path)] with a non-empty path
    that has no registered async IO raises [ValueError], and does so
    before it changes the registry, a queue, the pool or a file. *)
Theorem join_unregistered_path_raises (m : t) (path : string) :
  path ≠ "" →
  _path_to_data m !! path = None →
  ∃ msg, _join (Some path) m = (Raise (ValueError msg), m).
Proof.
  intros Hne Hnone. unfold _join. rewrite truthy_Some by done.
  change (default "" (Some path)) with path. cbn [andb].
  rewrite bool_decide_eq_true_2 by (by apply not_elem_of_dom).
  by eexists.
Qed.

Lemma join_unregistered_path_raises_witness :
  _join (Some "q") sample_manager_closed_early
  = (Raise (ValueError
              ("q has no async IO associated with it. "
               +:+ "Make sure `opena(q)` is called first.")),
     sample_manager_closed_early).
Proof.
  destruct (join_unregistered_path_raises sample_manager_closed_early "q")
    as [msg Hjoin].
  - discriminate.
  - vm_compute. reflexivity.
  - rewrite Hjoin. f_equal.
    apply (f_equal fst) in Hjoin. vm_compute in Hjoin.
    by injection Hjoin as <-.
Defined.

(** C9 as stated fails for the empty path: it has no registered async IO,
    yet [join("")] raises nothing; it treats the empty string like no path
    at all, joins every registered path and shuts the pool down. *)
Lemma join_empty_path_joins_all :
  _path_to_data sample_manager_closed_early !! "" = None
  ∧ (_join (Some "") sample_manager_closed_early).1 = Return true
  ∧ _path_to_data (_join (Some "") sample_manager_closed_early).2 = ∅
  ∧ Pool.is_shutdown (_pool (_join (Some "") sample_manager_closed_early).2)
    = true
  ∧ Pool.executed (_pool (_join (Some "") sample_manager_closed_early).2)
    = [FileClose 0; FileWrite 0 three_bytes].
Proof. vm_compute. done. Qed.

(** The handle of the sample is the one that the open call returns, and a
    closure that a call on it enqueues runs when the polling thread is
    scheduled, not in the call. *)
Lemma sample_handle_opened :
  (get_non_blocking_io "p" "wb" __new__).1 = Return sample_handle.
Proof. reflexivity. Qed.

Lemma scheduled_thread_runs_the_job :
  let m := (NonBlockingIO.write sample_handle three_bytes sample_manager).2 in
  files m !! 0%nat = Some File.new
  ∧ files (schedule "p" m) !! 0%nat
    = Some {| File.closed := false; File.written := three_bytes |}
  ∧ Pool.executed (_pool (schedule "p" m)) = [FileWrite 0 three_bytes].
Proof. vm_compute. done. Qed.
End manager.

(** ** Strings *)

Section strings.
Import Str.
Import Stdlib.Strings.Ascii.

Lemma string_app_cons (c : Ascii.ascii) (s t : string) :
  String c s +:+ t = String c (s +:+ t).
Proof. reflexivity. Qed.

Lemma string_app_nil_l (t : string) : "" +:+ t = t.
Proof. reflexivity. Qed.

Lemma string_app_nil_r (s : string) : s +:+ "" = s.
Proof.
  induction s as [|c s IH]; [done|]. by rewrite string_app_cons, IH.
Qed.

Lemma string_app_assoc (s1 s2 s3 : string) :
  (s1 +:+ s2) +:+ s3 = s1 +:+ (s2 +:+ s3).
Proof.
  induction s1 as [|c s1 IH]; [done|]. by rewrite !string_app_cons, IH.
Qed.

Lemma startswith_app (p s : string) : startswith p (p +:+ s) = true.
Proof.
  induction p as [|c p IH]; [done|]. rewrite string_app_cons.
  cbn [startswith]. by rewrite Ascii.eqb_refl.
Qed.

Lemma startswith_head (a b : Ascii.ascii) (p s : string) :
  a ≠ b → startswith (String a p) (String b s) = false.
Proof. intros Hne. simpl. by rewrite (proj2 (Ascii.eqb_neq a b)). Qed.

(** Skipping the rest of an occurrence. *)
Lemma replace_from_skip (old new q s : string) :
  replace_from old new (q +:+ s) (String.length q) = replace_from old new s 0.
Proof.
  induction q as [|c q IH]; [done|].
  rewrite string_app_cons. cbn [String.length replace_from]. exact IH.
Qed.

Lemma replace_from_absent (old new s : string) :
  contains old s = false → replace_from old new s 0 = s.
Proof.
  induction s as [|c s IH]; [done|]. cbn [contains replace_from].
  intros [Hstart Hrest]%orb_false_elim. rewrite Hstart. by rewrite IH.
Qed.

(** Removing a prefix that occurs nowhere else. *)
Lemma replace_prefix (c : Ascii.ascii) (p rest : string) :
  contains (String c p) rest = false →
  replace (String c p) "" (String c p +:+ rest) = rest.
Proof.
  intros Habsent. unfold replace.
  rewrite string_app_cons. cbn [replace_from].
  rewrite <- string_app_cons, startswith_app.
  replace (String.length (String c p) - 1)%nat with (String.length p)
    by (cbn [String.length]; lia).
  rewrite replace_from_skip, string_app_nil_l.
  by apply replace_from_absent.
Qed.

Lemma contains_slash_cons (c : Ascii.ascii) (s : string) :
  contains "/" (String c s) = Ascii.eqb "/"%char c || contains "/" s.
Proof.
  cbn [contains startswith]. by rewrite andb_true_r.
Qed.

Lemma split_from_nonempty (sep s : string) (skip : nat) :
  split_from sep s skip ≠ [].
Proof.
  revert skip. induction s as [|c s IH]; intros skip; [done|].
  cbn [split_from]. destruct skip; [|apply IH].
  destruct (startswith sep (String c s)); [done|].
  by destruct (split_from sep s 0).
Qed.

Lemma split_slash_cons (c : Ascii.ascii) (s : string) :
  split "/" (String c s)
  = if Ascii.eqb "/"%char c then "" :: split "/" s
    else match split "/" s with
         | head :: tail => String c head :: tail
         | [] => [String c ""]
         end.
Proof.
  unfold split. cbn [split_from startswith]. rewrite andb_true_r.
  by destruct (Ascii.eqb "/"%char c).
Qed.

(** A string without the separator is one piece. *)
Lemma split_slash_absent (s : string) :
  contains "/" s = false → split "/" s = [s].
Proof.
  induction s as [|c s IH]; [done|].
  rewrite contains_slash_cons, split_slash_cons.
  intros [-> Hs]%orb_false_elim. by rewrite IH.
Qed.

Lemma split_slash_app (a rest : string) :
  contains "/" a = false →
  split "/" (a +:+ "/" +:+ rest) = a :: split "/" rest.
Proof.
  induction a as [|c a IH]; [done|].
  rewrite contains_slash_cons. intros [Hc Ha]%orb_false_elim.
  rewrite string_app_cons, split_slash_cons, Hc, IH by done. done.
Qed.

Lemma join_cons (sep s : string) (l : list string) :
  l ≠ [] → join sep (s :: l) = s +:+ sep +:+ join sep l.
Proof. by destruct l. Qed.

Lemma join_split_slash (s : string) : join "/" (split "/" s) = s.
Proof.
  induction s as [|c s IH]; [done|]. rewrite split_slash_cons.
  pose proof (split_from_nonempty "/" s 0) as Hne. fold (split "/" s) in Hne.
  destruct (Ascii.eqb_spec "/"%char c) as [<-|_].
  - rewrite join_cons by done. by rewrite IH.
  - destruct (split "/" s) as [|head tail] eqn:Hs; [done|].
    destruct tail as [|s2 tail]; simpl in *; by rewrite <- IH.
Qed.

Lemma split_slash_pieces (s : string) :
  Forall (λ piece, contains "/" piece = false) (split "/" s).
Proof.
  induction s as [|c s IH]; [by constructor|]. rewrite split_slash_cons.
  destruct (Ascii.eqb "/"%char c) eqn:Hc; [by constructor|].
  destruct (split "/" s) as [|head tail]; [by repeat constructor; rewrite contains_slash_cons, Hc|].
  apply list.Forall_cons in IH as [Hhead Htail]. constructor; [|done].
  by rewrite contains_slash_cons, Hc.
Qed.

Lemma endswith_slash_app (x y : string) :
  y ≠ "" → endswith "/" (x +:+ y) = endswith "/" y.
Proof.
  intros Hy. induction x as [|c x IH]; [done|].
  rewrite string_app_cons. cbn [endswith]. rewrite IH.
  replace (String.eqb "/" (String c (x +:+ y))) with false; [done|].
  symmetry. apply String.eqb_neq. intros [= _ Hnil].
  destruct x; [by subst | done].
Qed.

Lemma endswith_slash_contains (s : string) :
  contains "/" s = false → endswith "/" s = false.
Proof.
  induction s as [|c s IH]; [done|]. rewrite contains_slash_cons.
  intros [Hc Hs]%orb_false_elim. cbn [endswith]. rewrite IH by done.
  rewrite orb_false_r. apply String.eqb_neq. intros [= <- _].
  by rewrite Ascii.eqb_refl in Hc.
Qed.

Lemma string_eqb_app_nonempty (x y : string) :
  y ≠ "" → String.eqb (x +:+ y) "" = false.
Proof. intros Hy. apply String.eqb_neq. by destruct x. Qed.
End strings.

(** ** The path handler *)

Section path_handler.
Import Str AzureBlobPathHandler.

Lemma contains_startswith (sub s : string) :
  contains sub s = false → startswith sub s = false.
Proof. destruct s; cbn [contains]; by intros [? _]%orb_false_elim. Qed.

Lemma supported_prefix_cases (prefix : string) :
  prefix ∈ SUPPORTED_PREFIXES → prefix = "az://" ∨ prefix = "blob://".
Proof.
  unfold SUPPORTED_PREFIXES. intros H.
  apply elem_of_cons in H as [->|H]; [by left|].
  apply elem_of_cons in H as [->|H]; [by right|].
  by apply elem_of_nil in H.
Qed.

(** The first supported prefix that the URI starts with decides the
    parse. *)
Lemma parse_uri_prefixed (prefix rest : string) :
  prefix ∈ SUPPORTED_PREFIXES →
  contains prefix rest = false →
  _parse_uri (prefix +:+ rest)
  = match split "/" rest with
    | account :: container :: pieces =>
        Ok (account, container, join "/" pieces)
    | _ => Err (IndexError "list index out of range")
    end.
Proof.
  intros [->| ->]%supported_prefix_cases Habsent;
    unfold _parse_uri, SUPPORTED_PREFIXES; cbn [parse_uri_loop].
  - rewrite startswith_app. cbn [negb].
    by rewrite (replace_prefix _ _ rest Habsent).
  - replace (startswith "az://" ("blob://" +:+ rest)) with false
      by reflexivity.
    cbn [negb]. rewrite startswith_app. cbn [negb].
    by rewrite (replace_prefix _ _ rest Habsent).
Qed.

(** X1.  [_parse_uri] raises [ValueError] with the URI in its message when
    the URI starts with neither supported prefix, and [IndexError] when it
    starts with one but what follows the prefix has no ["/"]: there is no
    container to return. *)
Theorem parse_uri_errors (uri : string) :
  (startswith "az://" uri = false → startswith "blob://" uri = false →
   _parse_uri uri = Err (Builtin (ValueError ("Unsupported URI: " +:+ uri))))
  ∧ (∀ prefix rest,
       prefix ∈ SUPPORTED_PREFIXES → uri = prefix +:+ rest →
       contains prefix rest = false → contains "/" rest = false →
       _parse_uri uri = Err (IndexError "list index out of range")).
Proof.
  split.
  - intros Haz Hblob. unfold _parse_uri, SUPPORTED_PREFIXES.
    cbn [parse_uri_loop]. by rewrite Haz, Hblob.
  - intros prefix rest Hprefix -> Habsent Hslash.
    rewrite parse_uri_prefixed by done. by rewrite split_slash_absent.
Qed.

Lemma parse_uri_errors_witness :
  _parse_uri "s3://bucket/key"
  = Err (Builtin (ValueError "Unsupported URI: s3://bucket/key"))
  ∧ _parse_uri "az://account" = Err (IndexError "list index out of range").
Proof.
  split.
  - apply (proj1 (parse_uri_errors "s3://bucket/key")); reflexivity.
  - apply (proj2 (parse_uri_errors "az://account") "az://" "account");
      [by left | reflexivity..].
Defined.

(** X2.  A URI [<prefix><account>/<container>/<path>], with either
    supported prefix, parses into its three components when the account and
    the container hold no ["/"] and the prefix does not occur again after
    the start. *)
Theorem parse_uri_round_trip (prefix account container path : string) :
  prefix ∈ SUPPORTED_PREFIXES →
  contains "/" account = false →
  contains "/" container = false →
  contains prefix (account +:+ "/" +:+ container +:+ "/" +:+ path) = false →
  _parse_uri (prefix +:+ account +:+ "/" +:+ container +:+ "/" +:+ path)
  = Ok (account, container, path).
Proof.
  intros Hprefix Ha Hc Habsent. rewrite parse_uri_prefixed by done.
  rewrite split_slash_app by done. rewrite split_slash_app by done.
  pose proof (split_from_nonempty "/" path 0) as Hne.
  fold (split "/" path) in Hne.
  destruct (split "/" path) as [|piece pieces] eqn:Hsplit; [done|].
  by rewrite <- Hsplit, join_split_slash.
Qed.

Lemma parse_uri_round_trip_witness :
  _parse_uri "blob://account/container/dir/file.bin"
  = Ok ("account", "container", "dir/file.bin").
Proof.
  apply (parse_uri_round_trip "blob://" "account" "container" "dir/file.bin");
    [by right; left | reflexivity..].
Defined.

(** X3.  Whenever [_parse_uri] returns, the URI starts with a supported
    prefix, the account and the container hold no ["/"], and the URI with
    the occurrences of the prefix removed is [account/container], and then
    the path is empty, or [account/container/path]. *)
Theorem parse_uri_components (uri account container path : string) :
  _parse_uri uri = Ok (account, container, path) →
  contains "/" account = false
  ∧ contains "/" container = false
  ∧ ∃ prefix,
      prefix ∈ SUPPORTED_PREFIXES
      ∧ startswith prefix uri = true
      ∧ ((path = "" ∧ replace prefix "" uri = account +:+ "/" +:+ container)
         ∨ replace prefix "" uri
           = account +:+ "/" +:+ container +:+ "/" +:+ path).
Proof.
  assert (Hone : ∀ prefix,
            match split "/" (replace prefix "" uri) with
            | a :: c :: pieces => Ok (a, c, join "/" pieces)
            | _ => Err (IndexError "list index out of range")
            end = Ok (account, container, path) →
            contains "/" account = false
            ∧ contains "/" container = false
            ∧ ((path = ""
                ∧ replace prefix "" uri = account +:+ "/" +:+ container)
               ∨ replace prefix "" uri
                 = account +:+ "/" +:+ container +:+ "/" +:+ path)).
  { intros prefix Hparse.
    pose proof (split_slash_pieces (replace prefix "" uri)) as Hpieces.
    pose proof (join_split_slash (replace prefix "" uri)) as Hjoin.
    destruct (split "/" (replace prefix "" uri)) as [|a [|c pieces]];
      [done..|].
    injection Hparse as -> -> <-.
    apply list.Forall_cons in Hpieces as [Ha Hpieces].
    apply list.Forall_cons in Hpieces as [Hc _].
    split_and!; [done..|]. rewrite <- Hjoin.
    destruct pieces as [|piece pieces]; [by left|right].
    by rewrite !join_cons by done. }
  unfold _parse_uri, SUPPORTED_PREFIXES. cbn [parse_uri_loop].
  destruct (startswith "az://" uri) eqn:Haz; cbn [negb].
  - intros (Ha & Hc & Hjoin)%Hone. split_and!; [done..|].
    exists "az://". split_and!; [by left|done..].
  - destruct (startswith "blob://" uri) eqn:Hblob; cbn [negb]; [|done].
    intros (Ha & Hc & Hjoin)%Hone. split_and!; [done..|].
    exists "blob://". split_and!; [by right; left|done..].
Qed.

Lemma parse_uri_components_witness :
  (contains "/" "account" = false ∧ contains "/" "container" = false)
  ∧ ∃ prefix,
      prefix ∈ SUPPORTED_PREFIXES
      ∧ startswith prefix "az://account/container" = true
      ∧ (("" = "" ∧ replace prefix "" "az://account/container"
                    = "account" +:+ "/" +:+ "container")
         ∨ replace prefix "" "az://account/container"
           = "account" +:+ "/" +:+ "container" +:+ "/" +:+ "").
Proof.
  split.
  - destruct (parse_uri_components "az://account/container/dir/file.bin"
                "account" "container" "dir/file.bin" eq_refl)
      as (Ha & Hc & _).
    by split.
  - apply (parse_uri_components "az://account/container"
             "account" "container" "" eq_refl).
Defined.

Lemma account_uri_no_trailing_slash (account : string) :
  endswith "/" (account_uri_of account) = false
  ∧ String.eqb (account_uri_of account) "" = false.
Proof.
  unfold account_uri_of. split; [|done].
  rewrite endswith_slash_app by (by destruct account).
  by rewrite endswith_slash_app.
Qed.

(** X4.  For a non-empty container without ["/"] and a blob path that does
    not start with ["/"], the service URI is
    [https://<account>.blob.core.windows.net/<container>/<blob>], followed
    by [?] and the SAS token when authentication is asked for; an error of
    the token provider is passed on. *)
Theorem service_uri_of_a_blob (self : t) (account container blob : string) :
  container ≠ "" → contains "/" container = false →
  startswith "/" blob = false →
  let uri :=
    "https://" +:+ account +:+ ".blob.core.windows.net" +:+ "/"
    +:+ container +:+ "/" +:+ blob in
  _get_service_uri self account container blob false = Ok uri
  ∧ _get_service_uri self account container blob true
    = match token_provider self account with
      | Ok sas_token => Ok (uri +:+ "?" +:+ sas_token)
      | Err e => Err e
      end.
Proof.
  intros Hne Hslash Hblob.
  assert (Hjoin : os_path_join (account_uri_of account) [container; blob]
                  = "https://" +:+ account +:+ ".blob.core.windows.net"
                    +:+ "/" +:+ container +:+ "/" +:+ blob).
  { unfold os_path_join. cbn [foldl].
    destruct (account_uri_no_trailing_slash account) as [Hend Hnil].
    rewrite (contains_startswith _ _ Hslash), Hnil, Hend. cbn [orb].
    rewrite Hblob, string_eqb_app_nonempty by (by destruct container).
    rewrite endswith_slash_app by (by destruct container).
    rewrite endswith_slash_app by done.
    rewrite (endswith_slash_contains _ Hslash). cbn [orb].
    unfold account_uri_of. by rewrite !string_app_assoc. }
  cbn zeta. unfold _get_service_uri. rewrite Hjoin. split; [done|].
  by destruct (token_provider self account).
Qed.

Lemma service_uri_of_a_blob_witness :
  _get_service_uri sample_path_handler "account" "container" "dir/file.bin"
    true
  = Ok ("https://account.blob.core.windows.net/container/dir/file.bin?sig").
Proof.
  apply (service_uri_of_a_blob sample_path_handler "account" "container"
           "dir/file.bin"); [discriminate | reflexivity..].
Defined.

(** X5.  The local cache path of a URI whose path starts with ["/"] (a
    double ["/"] after the container) is that path itself, outside of the
    cache directory; otherwise it is [<cache root>/blob_cache/<path>]. *)
Theorem local_cache_path_of_uri (env : environment) (self : t)
    (prefix account container path : string) :
  prefix ∈ SUPPORTED_PREFIXES →
  contains "/" account = false →
  contains "/" container = false →
  contains prefix (account +:+ "/" +:+ container +:+ "/" +:+ path) = false →
  let uri := prefix +:+ account +:+ "/" +:+ container +:+ "/" +:+ path in
  let root := get_cache_dir env (cache_dir self) in
  (startswith "/" path = true → _local_cache_path env self uri = Ok path)
  ∧ (startswith "/" path = false → root ≠ "" → endswith "/" root = false →
     _local_cache_path env self uri
     = Ok (root +:+ "/" +:+ "blob_cache" +:+ "/" +:+ path)).
Proof.
  intros Hprefix Ha Hc Habsent. cbn zeta. unfold _local_cache_path.
  rewrite parse_uri_prefixed by done.
  rewrite split_slash_app by done. rewrite split_slash_app by done.
  pose proof (split_from_nonempty "/" path 0) as Hne.
  fold (split "/" path) in Hne.
  destruct (split "/" path) as [|piece pieces] eqn:Hsplit; [done|].
  rewrite <- Hsplit, join_split_slash.
  unfold os_path_join, CACHE_SUBDIR_NAME. cbn [foldl]. split.
  - by intros ->.
  - intros -> Hroot Hend.
    replace (startswith "/" "blob_cache") with false by reflexivity.
    rewrite (proj2 (String.eqb_neq _ _) Hroot), Hend. cbn [orb].
    rewrite string_eqb_app_nonempty by done.
    rewrite endswith_slash_app by done.
    replace (endswith "/" ("/" +:+ "blob_cache")) with false by reflexivity.
    cbn [orb]. by rewrite !string_app_assoc.
Qed.

Lemma local_cache_path_of_uri_witness :
  _local_cache_path sample_environment sample_path_handler
    "az://account/container//etc/passwd"
  = Ok "/etc/passwd"
  ∧ _local_cache_path sample_environment sample_path_handler
      "az://account/container/dir/file.bin"
    = Ok "/tmp/cache/blob_cache/dir/file.bin".
Proof.
  split.
  - apply (local_cache_path_of_uri _ _ "az://" "account" "container"
             "/etc/passwd"); [by left | reflexivity..].
  - destruct (local_cache_path_of_uri sample_environment sample_path_handler
                "az://" "account" "container" "dir/file.bin")
      as [_ Hinside]; [by left | reflexivity..|].
    apply Hinside; [reflexivity | discriminate | reflexivity].
Defined.

(** *** The cached client and [_open] *)

(** X6.  A handler as [__init__] leaves it has a [client] attribute, set to
    [None], so [_get_client] returns [None] for every account, creates no
    service client and does not ask the token provider; [_open] with a URI
    that parses and a supported mode then raises [AttributeError]. *)
Theorem open_after_init_raises (env : environment)
    (provider : option (string → result string)) (cache : option string)
    (path mode : string) (buffering : Z)
    (account container blob : string) :
  mode ∈ ["rb"; "wb"] →
  _parse_uri path = Ok (account, container, blob) →
  _get_client env account (__init__ env provider cache)
  = (Ok None, __init__ env provider cache)
  ∧ _open env path mode buffering (__init__ env provider cache)
    = (Err (AttributeError
              "'NoneType' object has no attribute 'get_blob_client'"),
       __init__ env provider cache).
Proof.
  intros Hmode Hparse. split; [done|]. unfold _open.
  rewrite bool_decide_eq_true_2 by done. cbn [negb]. by rewrite Hparse.
Qed.

Lemma open_after_init_raises_witness :
  _open sample_environment "az://account/container/dir/file.bin" "rb" (-1)
    sample_path_handler
  = (Err (AttributeError
            "'NoneType' object has no attribute 'get_blob_client'"),
     sample_path_handler).
Proof.
  apply (open_after_init_raises sample_environment None None
           "az://account/container/dir/file.bin" "rb" (-1)
           "account" "container" "dir/file.bin"); [by left | reflexivity].
Defined.

(** X7.  Without the attribute, [_get_client] builds a service client for
    the account it is called with, from that account's SAS token, and
    stores it; from then on every call returns that client, whatever the
    account, and the token provider is not asked again. *)
Theorem get_client_is_cached (env : environment) (self : t)
    (account other : string) (sas_token : string) :
  client self = None →
  token_provider self account = Ok sas_token →
  let service :=
    BlobServiceClient_new env
      ("https://" +:+ account +:+ ".blob.core.windows.net") sas_token in
  let self' := (_get_client env account self).2 in
  _get_client env account self = (Ok (Some service), self')
  ∧ client self' = Some (Some service)
  ∧ _get_client env other self' = (Ok (Some service), self').
Proof.
  intros Hclient Htoken. cbn zeta.
  assert (Hget : _get_client env account self
            = (Ok (Some (BlobServiceClient_new env
                           ("https://" +:+ account
                            +:+ ".blob.core.windows.net") sas_token)),
               {| token_provider := token_provider self;
                  cache_dir := cache_dir self;
                  client :=
                    Some (Some (BlobServiceClient_new env
                                  ("https://" +:+ account
                                   +:+ ".blob.core.windows.net")
                                  sas_token)) |})).
  { unfold _get_client. by rewrite Hclient, Htoken. }
  rewrite Hget. cbn [snd]. split_and!; done.
Qed.

Lemma get_client_is_cached_witness :
  let self :=
    {| token_provider := EnvironmentTokenProvider sample_environment;
       cache_dir := None; client := None |} in
  (_get_client sample_environment "other"
     (_get_client sample_environment "account" self).2).1
  = Ok (Some (BlobServiceClient_new sample_environment
                "https://account.blob.core.windows.net" "sig")).
Proof.
  cbn zeta.
  destruct (get_client_is_cached sample_environment
              {| token_provider := EnvironmentTokenProvider sample_environment;
                 cache_dir := None; client := None |}
              "account" "other" "sig" eq_refl eq_refl) as (_ & _ & ->).
  reflexivity.
Defined.

(** X8.  [_open] hands the streams a positive chunk size: [buffering]
    when it is positive, 50 MiB otherwise.  A mode other than ["rb"] and
    ["wb"] fails the assertion before the URI is looked at, whatever the
    URI and the client are; with one of the two modes, the error of a URI
    that does not parse is passed on.  With a service client set and a URI
    that parses, mode ["wb"] returns a new writer on the blob, and mode
    ["rb"] a reader over the chunks of the download, from which [read(-1)]
    returns the whole blob when no chunk is empty, or the error of the
    download. *)
Theorem open_with_client (env : environment) (self : t)
    (path mode : string) (buffering : Z) :
  let chunk_size := if 0 <? buffering then buffering else 52428800 in
  0 < chunk_size
  ∧ (mode ∉ ["rb"; "wb"] →
     _open env path mode buffering self = (Err (Builtin AssertionError), self))
  ∧ (mode ∈ ["rb"; "wb"] → ∀ e,
       _parse_uri path = Err e →
       _open env path mode buffering self = (Err e, self))
  ∧ (∀ service account container blob,
       client self = Some (Some service) →
       _parse_uri path = Ok (account, container, blob) →
       (mode = "wb" →
        _open env path mode buffering self
        = (Ok (Writer
                 (AzureBlobWriter.__init__
                    (BlobClient.new blob
                       (BlobServiceClient.consumes_stream service))
                    chunk_size)), self))
       ∧ (mode = "rb" → ∀ chunks,
            BlobServiceClient.download_blob service container blob
            = Ok chunks →
            _open env path mode buffering self
            = (Ok (Reader (AzureBlobReader.__init__ chunks chunk_size)), self)
            ∧ (Forall (λ c, c ≠ []) chunks →
               ∃ reader',
                 AzureBlobReader.read (-1)
                   (AzureBlobReader.__init__ chunks chunk_size)
                 = Some (Return (concat chunks), reader')
                 ∧ AzureBlobReader.unread reader' = []))
       ∧ (mode = "rb" → ∀ e,
            BlobServiceClient.download_blob service container blob = Err e →
            _open env path mode buffering self = (Err e, self))).
Proof.
  cbn zeta.
  assert (Hsize : 0 < (if 0 <? buffering then buffering else 52428800)).
  { destruct (Z.ltb_spec 0 buffering); lia. }
  split_and!; [done|..].
  - intros Hmode. unfold _open. by rewrite bool_decide_eq_false_2.
  - intros Hmode e Hparse. unfold _open.
    rewrite bool_decide_eq_true_2 by done. cbn [negb]. by rewrite Hparse.
  - intros service account container blob Hclient Hparse. split_and!.
    + intros ->. unfold _open, _get_client. by rewrite Hparse, Hclient.
    + intros -> chunks Hdownload. split.
      * unfold _open, _get_client. rewrite Hparse, Hclient. cbn.
        by rewrite Hdownload.
      * intros Hne.
        destruct (readall_spec (AzureBlobReader.__init__ chunks
                                  (if 0 <? buffering then buffering
                                   else 52428800)) (init_wf _ _))
          as (out & reader' & Hread & _ & Hunread & _ & _ & Hend).
        exists reader'. specialize (Hend Hsize Hne).
        change (AzureBlobReader.unread (AzureBlobReader.__init__ chunks _))
          with (concat chunks) in Hunread.
        rewrite Hend, app_nil_r in Hunread. by subst out.
    + intros -> e Hdownload. unfold _open, _get_client.
      rewrite Hparse, Hclient. cbn. by rewrite Hdownload.
Qed.

Lemma open_with_client_witness :
  (∃ reader',
     AzureBlobReader.read (-1)
       (AzureBlobReader.__init__ [three_bytes; two_bytes] 52428800)
     = Some (Return (three_bytes ++ two_bytes), reader'))
  ∧ _open sample_environment "s3://bucket/key" "r" 0 sample_path_handler
    = (Err (Builtin AssertionError), sample_path_handler)
  ∧ _open sample_environment "s3://bucket/key" "rb" 0 sample_path_handler
    = (Err (Builtin (ValueError "Unsupported URI: s3://bucket/key")),
       sample_path_handler).
Proof.
  split_and!.
  - destruct (open_with_client sample_environment
                sample_path_handler_connected
                "az://account/container/dir/file.bin" "rb" 0)
      as (_ & _ & _ & Hopen).
    destruct (Hopen sample_service "account" "container" "dir/file.bin"
                eq_refl eq_refl) as (_ & Hrb & _).
    destruct (Hrb eq_refl [three_bytes; two_bytes] eq_refl) as [_ Hall].
    destruct Hall as (reader' & Hread & _);
      [repeat constructor; discriminate|].
    by exists reader'.
  - destruct (open_with_client sample_environment sample_path_handler
                "s3://bucket/key" "r" 0) as (_ & Hmode & _).
    apply Hmode. intros Hin.
    repeat (apply elem_of_cons in Hin as [Hin|Hin]; [discriminate|]).
    by apply elem_of_nil in Hin.
  - destruct (open_with_client sample_environment sample_path_handler
                "s3://bucket/key" "rb" 0) as (_ & _ & Hparse & _).
    apply Hparse; [by left|reflexivity].
Defined.
End path_handler.

(** ** Waiting for a copy *)

Section copy_wait.
Import CopyWait.

(** [n] rounds of the loop while the copy stays pending and the deadline is
    not reached: each sleeps once and polls once. *)
Lemma wait_loop_rounds (w : world) (polling_secs deadline : Z) (n : nat) :
  0 ≤ polling_secs →
  ∀ (fuel j : nat) (slept : list Z) (s s' : string),
    status_at w j = Ok s →
    (∀ i, (j ≤ i < j + n)%nat → status_at w i = Ok "pending") →
    (∀ i, (j < i ≤ j + n)%nat → clock_at w i < deadline) →
    status_at w (j + n) = Ok s' →
    wait_loop (n + fuel) w polling_secs deadline s
      {| polls := S j; clock_reads := S j; sleeps := slept |}
    = wait_loop fuel w polling_secs deadline s'
        {| polls := S (j + n); clock_reads := S (j + n);
           sleeps := slept ++ replicate n polling_secs |}.
Proof.
  intros Hp. induction n as [|n IH]; intros fuel j slept s s' Hs Hpend Hclk Hs'.
  { rewrite Nat.add_0_r in *. rewrite app_nil_r.
    rewrite Hs in Hs'. by injection Hs' as ->. }
  assert (s = "pending") as ->.
  { specialize (Hpend j ltac:(lia)). rewrite Hs in Hpend.
    by injection Hpend. }
  assert (∃ s1, status_at w (S j) = Ok s1) as [s1 Hs1].
  { destruct n as [|n].
    - exists s'. by rewrite <- Hs', Nat.add_1_r.
    - exists "pending". apply Hpend. lia. }
  cbn [Nat.add wait_loop String.eqb Ascii.eqb Bool.eqb polls clock_reads sleeps].
  assert ((clock_at w (S j) <? deadline) = true) as ->
    by (apply Z.ltb_lt, Hclk; lia).
  assert ((polling_secs <? 0) = false) as -> by (apply Z.ltb_ge; lia).
  rewrite Hs1.
  rewrite (IH fuel (S j) (slept ++ [polling_secs]) s1 s'); [|done|..].
  - rewrite <- app_assoc. cbn [app replicate].
    by replace (S j + n)%nat with (j + S n)%nat by lia.
  - intros i Hi. apply Hpend. lia.
  - intros i Hi. apply Hclk. lia.
  - by replace (S j + n)%nat with (j + S n)%nat by lia.
Qed.

(** X9. [_wait_for_copy] polls until the copy status is no longer
    ["pending"] or the clock reaches the deadline, the first clock reading
    plus [timeout_secs].  If poll number [k] is the first that reports
    another status, and the clock readings before it are under the deadline,
    the method returns [True] whatever that status is (a failed or aborted
    copy too), after [k + 1] polls and [k] sleeps of [polling_secs].  If the
    copy is still pending when a clock reading reaches the deadline, it
    returns [False]; with a timeout of zero or less that is after the first
    poll, without any sleep. *)
Theorem wait_for_copy_outcomes (w : world) (timeout_secs polling_secs : Z)
    (k fuel : nat) :
  0 ≤ polling_secs →
  (k < fuel)%nat →
  (∀ i, (i < k)%nat → status_at w i = Ok "pending") →
  (∀ i, (0 < i ≤ k)%nat → clock_at w i < clock_at w 0 + timeout_secs) →
  (∀ s, status_at w k = Ok s → s ≠ "pending" →
     _wait_for_copy fuel w timeout_secs polling_secs
     = Some (Ok true,
             {| polls := S k; clock_reads := S k;
                sleeps := replicate k polling_secs |}))
  ∧ (status_at w k = Ok "pending" →
     clock_at w 0 + timeout_secs ≤ clock_at w (S k) →
     _wait_for_copy fuel w timeout_secs polling_secs
     = Some (Ok false,
             {| polls := S k; clock_reads := S (S k);
                sleeps := replicate k polling_secs |}))
  ∧ (timeout_secs ≤ 0 → clock_at w 0 ≤ clock_at w 1 →
     status_at w 0 = Ok "pending" →
     _wait_for_copy fuel w timeout_secs polling_secs
     = Some (Ok false, {| polls := 1; clock_reads := 2; sleeps := [] |})).
Proof.
  intros Hp Hfuel Hpend Hclk.
  assert (Hrun : ∀ s, status_at w k = Ok s →
            _wait_for_copy fuel w timeout_secs polling_secs
            = wait_loop (fuel - k) w polling_secs
                (clock_at w 0 + timeout_secs) s
                {| polls := S k; clock_reads := S k;
                   sleeps := replicate k polling_secs |}).
  { intros s Hs. unfold _wait_for_copy.
    assert (∃ s0, status_at w 0 = Ok s0) as [s0 Hs0].
    { destruct k as [|k]; [by exists s|].
      exists "pending". apply Hpend. lia. }
    rewrite Hs0. cbv zeta.
    replace fuel with (k + (fuel - k))%nat at 1 by lia.
    rewrite (wait_loop_rounds w polling_secs _ k Hp (fuel - k) 0 [] s0 s);
      [done|done|..|done].
    - intros i Hi. apply Hpend. lia.
    - intros i Hi. apply Hclk. lia. }
  destruct (fuel - k)%nat as [|fuel'] eqn:Hfuel'; [lia|].
  split_and!.
  - intros s Hs Hne. rewrite (Hrun s Hs). cbn [wait_loop].
    by apply String.eqb_neq in Hne as ->.
  - intros Hs Hdead. rewrite (Hrun _ Hs).
    cbn [wait_loop String.eqb Ascii.eqb Bool.eqb polls clock_reads sleeps].
    by assert ((clock_at w (S k) <? clock_at w 0 + timeout_secs) = false) as ->
      by (apply Z.ltb_ge; lia).
  - intros Ht Hmono Hs. unfold _wait_for_copy. rewrite Hs. cbv zeta.
    destruct fuel as [|fuel0]; [lia|].
    cbn [wait_loop String.eqb Ascii.eqb Bool.eqb polls clock_reads sleeps].
    by assert ((clock_at w 1 <? clock_at w 0 + timeout_secs) = false) as ->
      by (apply Z.ltb_ge; lia).
Qed.

Lemma wait_for_copy_outcomes_witness :
  _wait_for_copy 10 sample_copy 1800 30
  = Some (Ok true, {| polls := 3; clock_reads := 3; sleeps := [30; 30] |}).
Proof.
  assert (Hpend : ∀ i, (i < 2)%nat → status_at sample_copy i = Ok "pending").
  { intros i Hi. simpl. by destruct i as [|[|i]]; [| |lia]. }
  assert (Hclk : ∀ i, (0 < i ≤ 2)%nat →
            clock_at sample_copy i < clock_at sample_copy 0 + 1800).
  { intros i Hi. simpl. lia. }
  destruct (wait_for_copy_outcomes sample_copy 1800 30 2 10
              ltac:(lia) ltac:(lia) Hpend Hclk) as [H _].
  apply (H "failed"); [reflexivity|discriminate].
Defined.
End copy_wait.

(** ** Runs of the manager *)

Section manager_runs.
Import NonBlockingIOManager Manager ManagerRun.

Lemma run_snoc (es : list event) (e : event) (m : t) :
  run (es ++ [e]) m = step e (run es m).
Proof. unfold run. by rewrite foldl_snoc. Qed.

Lemma run_app (es es' : list event) (m : t) :
  run (es ++ es') m = run es' (run es m).
Proof. unfold run. by rewrite foldl_app. Qed.

(** *** The polling loop on a queue that grows *)

Lemma poll_jobs_polling (items : list (option job)) (pool : Pool.t)
    (fs : gmap nat File.t) :
  (_poll_jobs items pool fs).1.1.1 = Polling →
  (_poll_jobs items pool fs).1.1.2 = [].
Proof.
  revert pool fs. induction items as [|[j|] items IH]; intros pool fs;
    [done| |done].
  cbn [_poll_jobs]. destruct (Pool.is_shutdown pool); [done|].
  destruct (call_job j fs) as [[[]|e] fs1]; [apply IH|done].
Qed.

(** Items put while the thread works are handled as if they had been in the
    queue from the start. *)
Lemma poll_jobs_app (items more : list (option job)) (pool : Pool.t)
    (fs : gmap nat File.t) :
  _poll_jobs (items ++ more) pool fs
  = let '(st, rest, pool', fs') := _poll_jobs items pool fs in
    match st with
    | Polling => _poll_jobs more pool' fs'
    | _ => (st, rest ++ more, pool', fs')
    end.
Proof.
  revert pool fs. induction items as [|[j|] items IH]; intros pool fs;
    [done| |done].
  cbn [app _poll_jobs]. destruct (Pool.is_shutdown pool); [done|].
  destruct (call_job j fs) as [[[]|e] fs1]; [apply IH|done].
Qed.

Lemma run_thread_put (item : option job) (pd : PathData.t) (pool : Pool.t)
    (fs : gmap nat File.t) :
  run_thread (PathData.put item pd) pool fs
  = let '(pd1, pool1, fs1) := run_thread pd pool fs in
    run_thread (PathData.put item pd1) pool1 fs1.
Proof.
  unfold run_thread, PathData.put.
  cbn [PathData.thread_status PathData.queue PathData.thread].
  destruct (PathData.thread_status pd) eqn:Hst;
    cbn [PathData.thread_status PathData.queue PathData.thread];
    [|by rewrite Hst..].
  rewrite poll_jobs_app.
  pose proof (poll_jobs_polling (PathData.queue pd) pool fs) as Hrest.
  destruct (_poll_jobs (PathData.queue pd) pool fs)
    as [[[st rest] pool1] fs1].
  cbn [PathData.thread_status PathData.queue PathData.thread].
  destruct st; [|done..].
  cbn [fst snd] in Hrest. by rewrite Hrest.
Qed.

(** A thread that has run as far as it can does nothing when it runs
    again. *)
Lemma run_thread_idem (pd : PathData.t) (pool : Pool.t)
    (fs : gmap nat File.t) :
  let '(pd1, pool1, fs1) := run_thread pd pool fs in
  run_thread pd1 pool1 fs1 = (pd1, pool1, fs1).
Proof.
  unfold run_thread.
  destruct (PathData.thread_status pd) eqn:Hst; [|by rewrite Hst..].
  pose proof (poll_jobs_polling (PathData.queue pd) pool fs) as Hrest.
  destruct (_poll_jobs (PathData.queue pd) pool fs)
    as [[[st rest] pool1] fs1].
  cbn [PathData.thread_status PathData.queue PathData.thread].
  destruct st; [|done..].
  cbn [fst snd] in Hrest. by rewrite Hrest.
Qed.

Lemma schedule_idem (p : string) (m : t) :
  schedule p (schedule p m) = schedule p m.
Proof.
  destruct (_path_to_data m !! p) as [pd|] eqn:Hpd.
  - assert (Hm : schedule p m
              = let '(pd, pool, fs) := run_thread pd (_pool m) (files m) in
                {| _path_to_data := <[p := pd]> (_path_to_data m);
                   _pool := pool; files := fs;
                   threads_created := threads_created m |})
      by (unfold schedule; by rewrite Hpd).
    rewrite Hm.
    pose proof (run_thread_idem pd (_pool m) (files m)) as Hidem.
    destruct (run_thread pd (_pool m) (files m)) as [[pd1 pool1] fs1].
    unfold schedule. cbn [_path_to_data _pool files threads_created].
    rewrite lookup_insert_eq, Hidem. by rewrite insert_insert_eq.
  - assert (Hm : schedule p m = m) by (unfold schedule; by rewrite Hpd).
    by rewrite !Hm.
Qed.

(** A call through a handle gives the same state, once the thread has run,
    whether or not the thread ran before the call. *)
Lemma schedule_call (handle : NonBlockingIO.t) (c : NonBlockingIO.call)
    (m : t) :
  schedule (NonBlockingIO._path handle) (step (Call handle c) m)
  = schedule (NonBlockingIO._path handle)
      (step (Call handle c) (schedule (NonBlockingIO._path handle) m)).
Proof.
  set (p := NonBlockingIO._path handle). cbn [step].
  destruct (_path_to_data m !! p) as [pd|] eqn:Hpd.
  - rewrite (do_call_registered handle c m pd Hpd). fold p.
    assert (Hm : schedule p m
              = let '(pd, pool, fs) := run_thread pd (_pool m) (files m) in
                {| _path_to_data := <[p := pd]> (_path_to_data m);
                   _pool := pool; files := fs;
                   threads_created := threads_created m |})
      by (unfold schedule; by rewrite Hpd).
    rewrite Hm.
    pose proof (run_thread_put (Some (NonBlockingIO.job_of handle c)) pd
                  (_pool m) (files m)) as Hput.
    destruct (run_thread pd (_pool m) (files m)) as [[pd1 pool1] fs1].
    rewrite (do_call_registered handle c _ pd1)
      by (cbn [_path_to_data]; apply lookup_insert_eq).
    fold p. unfold schedule, set_path_to_data.
    cbn [snd _path_to_data _pool files threads_created].
    rewrite !lookup_insert_eq, Hput.
    destruct (run_thread _ pool1 fs1) as [[pd2 pool2] fs2].
    by rewrite !insert_insert_eq.
  - assert (Hsched : schedule p m = m) by (unfold schedule; by rewrite Hpd).
    by rewrite Hsched.
Qed.

(** Joining a registered path: the entry is removed, the sentinel is put
    and the thread runs to its end. *)
Lemma join_one_registered (path : string) (m : t) (pd : PathData.t) :
  _path_to_data m !! path = Some pd →
  join_one path m
  = (Return tt,
     let '(_, pool, fs) :=
       run_thread (PathData.put None pd) (_pool m) (files m) in
     {| _path_to_data := delete path (_path_to_data m); _pool := pool;
        files := fs; threads_created := threads_created m |}).
Proof.
  intros Hpd. unfold join_one. rewrite Hpd.
  by destruct (run_thread _ _ _) as [[pd1 pool1] fs1].
Qed.

Lemma join_path_registered (path : string) (m : t) (pd : PathData.t) :
  path ≠ "" →
  _path_to_data m !! path = Some pd →
  _join (Some path) m = (Return true, (join_one path m).2).
Proof.
  intros Hne Hpd. unfold _join. rewrite truthy_Some by done.
  change (default "" (Some path)) with path. cbn [negb andb].
  rewrite bool_decide_eq_false_2
    by (intros Hnot; apply Hnot, elem_of_dom; eauto).
  cbn [join_loop]. rewrite (join_one_registered path m pd Hpd).
  by destruct (run_thread _ _ _) as [[pd1 pool1] fs1].
Qed.

Lemma join_schedule (p : string) (m : t) :
  p ≠ "" → _join (Some p) (schedule p m) = _join (Some p) m.
Proof.
  intros Hne. destruct (_path_to_data m !! p) as [pd|] eqn:Hpd.
  - rewrite (join_path_registered p m pd Hne Hpd).
    rewrite (join_one_registered p m pd Hpd).
    assert (Hm : schedule p m
              = let '(pd, pool, fs) := run_thread pd (_pool m) (files m) in
                {| _path_to_data := <[p := pd]> (_path_to_data m);
                   _pool := pool; files := fs;
                   threads_created := threads_created m |})
      by (unfold schedule; by rewrite Hpd).
    rewrite Hm.
    pose proof (run_thread_put None pd (_pool m) (files m)) as Hput.
    destruct (run_thread pd (_pool m) (files m)) as [[pd1 pool1] fs1].
    rewrite (join_path_registered p _ pd1 Hne)
      by (cbn [_path_to_data]; apply lookup_insert_eq).
    rewrite (join_one_registered p _ pd1)
      by (cbn [_path_to_data]; apply lookup_insert_eq).
    cbn [_path_to_data _pool files threads_created]. rewrite Hput.
    destruct (run_thread _ pool1 fs1) as [[pd2 pool2] fs2].
    cbn [snd]. by rewrite delete_insert_eq.
  - unfold schedule. by rewrite Hpd.
Qed.

(** The state after the thread of [p] has run does not depend on the
    moments at which it ran before. *)
Lemma schedule_run_filter (p : string) (es : list event) (m : t) :
  Forall (on_path p) es →
  schedule p (run es m)
  = schedule p (run (filter (λ e, is_schedule e = false) es) m).
Proof.
  induction es as [|e es IH] using rev_ind; [done|].
  intros [Hes He]%Forall_app. apply list.Forall_cons in He as [He _].
  specialize (IH Hes). rewrite list.filter_app, run_snoc.
  destruct e as [| handle c | |q]; try done; cbn [on_path] in He; subst.
  - rewrite filter_cons_True by done. rewrite filter_nil, run_snoc.
    rewrite schedule_call, IH. by rewrite <- schedule_call.
  - rewrite filter_cons_False by done.
    rewrite filter_nil, app_nil_r. cbn [step]. by rewrite schedule_idem.
Qed.

(** X10.  The moments at which the polling thread of a path runs between
    the calls made through the handles of that path do not change what
    [_join(path)] returns nor the state it leaves: the files, the jobs the
    pool has run and their order, the registry.  A run with scheduling
    events joins like the same run without them. *)
Theorem join_ignores_scheduling (p : string) (es : list event) (m : t) :
  p ≠ "" →
  Forall (on_path p) es →
  _join (Some p) (run es m)
  = _join (Some p) (run (filter (λ e, is_schedule e = false) es) m).
Proof.
  intros Hne Hes.
  rewrite <- (join_schedule p (run es m)) by done.
  rewrite (schedule_run_filter p es m Hes). by apply join_schedule.
Qed.

Lemma join_ignores_scheduling_witness :
  _join (Some "p")
    (run [Call sample_handle (NonBlockingIO.Write three_bytes);
          Schedule "p"; Call sample_handle NonBlockingIO.Close]
       sample_manager)
  = _join (Some "p")
      (run [Call sample_handle (NonBlockingIO.Write three_bytes);
            Call sample_handle NonBlockingIO.Close]
         sample_manager).
Proof.
  apply (join_ignores_scheduling "p"
           [Call sample_handle (NonBlockingIO.Write three_bytes);
            Schedule "p"; Call sample_handle NonBlockingIO.Close]
           sample_manager).
  - discriminate.
  - repeat constructor.
Defined.

(** *** Several handles on one path *)

Lemma run_calls (p : string)
    (hcs : list (NonBlockingIO.t * NonBlockingIO.call)) (m : t)
    (pd : PathData.t) :
  _path_to_data m !! p = Some pd →
  Forall (λ hc, NonBlockingIO._path hc.1 = p) hcs →
  run ((λ hc, Call hc.1 hc.2) <$> hcs) m
  = set_path_to_data
      (<[p := {| PathData.queue :=
                   PathData.queue pd
                   ++ ((λ hc, Some (NonBlockingIO.job_of hc.1 hc.2)) <$> hcs);
                 PathData.thread := PathData.thread pd;
                 PathData.thread_status := PathData.thread_status pd |}]>
         (_path_to_data m)) m.
Proof.
  revert m pd. induction hcs as [|[h c] hcs IH]; intros m pd Hpd Hall.
  { cbn [fmap list_fmap run foldl]. rewrite app_nil_r.
    rewrite insert_id by (by destruct pd). by destruct m. }
  apply list.Forall_cons in Hall as [Hh Hall]. cbn [fst snd] in Hh.
  cbn [fmap list_fmap]. change (run (?e :: ?es) m) with (run es (step e m)).
  cbn [step fst snd]. rewrite (do_call_registered h c m pd) by by rewrite Hh.
  rewrite Hh. cbn [snd].
  rewrite (IH _ (PathData.put (Some (NonBlockingIO.job_of h c)) pd));
    [|apply lookup_insert_eq|done].
  unfold set_path_to_data, PathData.put.
  cbn [_path_to_data _pool files threads_created PathData.queue
       PathData.thread PathData.thread_status].
  rewrite insert_insert_eq. by rewrite <- app_assoc.
Qed.

(** X11.  Opening a path that is already registered creates no queue and
    no thread: the call only opens a new file object and returns a handle
    on the registered entry.  All the handles of one path share its
    queue: after any run of write and close calls made through handles of
    that path, the queue is the old queue followed by one closure per call,
    in call order across the handles, and nothing else has changed. *)
Theorem handles_of_a_path_share_its_queue (m : t) (p mode : string)
    (pd : PathData.t) (hcs : list (NonBlockingIO.t * NonBlockingIO.call)) :
  _path_to_data m !! p = Some pd →
  Forall (λ hc, NonBlockingIO._path hc.1 = p) hcs →
  (∃ file,
     files m !! file = None
     ∧ get_non_blocking_io p mode m
       = (Return {| NonBlockingIO._path := p; NonBlockingIO._mode := mode;
                    NonBlockingIO._file := file |},
          {| _path_to_data := _path_to_data m; _pool := _pool m;
             files := <[file := File.new]> (files m);
             threads_created := threads_created m |}))
  ∧ run ((λ hc, Call hc.1 hc.2) <$> hcs) m
    = set_path_to_data
        (<[p := {| PathData.queue :=
                     PathData.queue pd
                     ++ ((λ hc, Some (NonBlockingIO.job_of hc.1 hc.2))
                           <$> hcs);
                   PathData.thread := PathData.thread pd;
                   PathData.thread_status := PathData.thread_status pd |}]>
           (_path_to_data m)) m.
Proof.
  intros Hpd Hall. split; [|by apply run_calls].
  exists (fresh (dom (files m))). split.
  { apply not_elem_of_dom, is_fresh. }
  unfold get_non_blocking_io.
  rewrite bool_decide_eq_false_2
    by (intros Hnot; apply Hnot, elem_of_dom; eauto).
  done.
Qed.

Lemma handles_of_a_path_share_its_queue_witness :
  let second :=
    {| NonBlockingIO._path := "p"; NonBlockingIO._mode := "ab";
       NonBlockingIO._file := 1 |} in
  (get_non_blocking_io "p" "ab" sample_manager).1 = Return second
  ∧ _path_to_data
      (run [Call sample_handle (NonBlockingIO.Write three_bytes);
            Call second (NonBlockingIO.Write two_bytes);
            Call sample_handle NonBlockingIO.Close]
         (get_non_blocking_io "p" "ab" sample_manager).2) !! "p"
    = Some {| PathData.queue :=
                [Some (FileWrite 0 three_bytes);
                 Some (FileWrite 1 two_bytes); Some (FileClose 0)];
              PathData.thread := 0; PathData.thread_status := Polling |}.
Proof.
  intros second. split; [reflexivity|].
  destruct (handles_of_a_path_share_its_queue
              (get_non_blocking_io "p" "ab" sample_manager).2 "p" "ab"
              {| PathData.queue := []; PathData.thread := 0;
                 PathData.thread_status := Polling |}
              [(sample_handle, NonBlockingIO.Write three_bytes);
               (second, NonBlockingIO.Write two_bytes);
               (sample_handle, NonBlockingIO.Close)]) as [_ Hrun].
  - vm_compute. reflexivity.
  - repeat constructor.
  - cbn [fmap list_fmap fst snd] in Hrun. rewrite Hrun.
    cbn [set_path_to_data _path_to_data]. apply lookup_insert_eq.
Defined.

(** *** What the steps keep *)

Lemma do_call_unregistered (self : NonBlockingIO.t) (c : NonBlockingIO.call)
    (m : t) :
  _path_to_data m !! NonBlockingIO._path self = None →
  NonBlockingIO.do_call self c m
  = (Raise (KeyError (NonBlockingIO._path self)), m).
Proof.
  intros Hpd. destruct c; simpl;
    unfold NonBlockingIO.write, NonBlockingIO.close;
    by rewrite notify_manager_unregistered.
Qed.

Lemma run_thread_thread (pd : PathData.t) (pool : Pool.t)
    (fs : gmap nat File.t) :
  PathData.thread (run_thread pd pool fs).1.1 = PathData.thread pd.
Proof.
  unfold run_thread. destruct (PathData.thread_status pd); [|done..].
  by destruct (_poll_jobs _ _ _) as [[[st rest] pool1] fs1].
Qed.

(** The pool stays as it is but for the jobs it runs, which are added at
    the end. *)
Lemma poll_jobs_pool (items : list (option job)) (pool : Pool.t)
    (fs : gmap nat File.t) :
  Pool.is_shutdown (_poll_jobs items pool fs).1.2 = Pool.is_shutdown pool
  ∧ Pool.executed pool `prefix_of`
      Pool.executed (_poll_jobs items pool fs).1.2.
Proof.
  revert pool fs. induction items as [|[j|] items IH]; intros pool fs;
    [done| |done].
  cbn [_poll_jobs]. destruct (Pool.is_shutdown pool) eqn:Hshut; [done|].
  destruct (call_job j fs) as [[[]|e] fs1].
  - destruct (IH {| Pool.is_shutdown := false;
                    Pool.executed := Pool.executed pool ++ [j] |} fs1)
      as [-> Hpre].
    split; [done|]. etrans; [|exact Hpre]. by apply prefix_app_r.
  - split; [done|]. by apply prefix_app_r.
Qed.

Lemma run_thread_pool (pd : PathData.t) (pool : Pool.t)
    (fs : gmap nat File.t) :
  Pool.is_shutdown (run_thread pd pool fs).1.2 = Pool.is_shutdown pool
  ∧ Pool.executed pool `prefix_of` Pool.executed (run_thread pd pool fs).1.2.
Proof.
  unfold run_thread. destruct (PathData.thread_status pd); [|done..].
  pose proof (poll_jobs_pool (PathData.queue pd) pool fs) as Hpool.
  by destruct (_poll_jobs _ _ _) as [[[st rest] pool1] fs1].
Qed.

(** Once the pool is shut down the threads run nothing. *)
Lemma run_thread_shutdown (pd : PathData.t) (pool : Pool.t)
    (fs : gmap nat File.t) :
  Pool.is_shutdown pool = true →
  (run_thread pd pool fs).1.2 = pool ∧ (run_thread pd pool fs).2 = fs.
Proof.
  intros Hshut. unfold run_thread.
  destruct (PathData.thread_status pd); [|done..].
  destruct (PathData.queue pd) as [|[j|] items]; [done| |done].
  cbn [_poll_jobs]. by rewrite Hshut.
Qed.

(** The loop of [_join] only removes entries. *)
Lemma join_loop_keeps (l : list string) (success : bool) (m : t) :
  threads_created (join_loop l success m).2 = threads_created m
  ∧ (∀ q pd, _path_to_data (join_loop l success m).2 !! q = Some pd →
             _path_to_data m !! q = Some pd)
  ∧ Pool.is_shutdown (_pool (join_loop l success m).2)
    = Pool.is_shutdown (_pool m)
  ∧ (Pool.is_shutdown (_pool m) = true →
     _pool (join_loop l success m).2 = _pool m
     ∧ files (join_loop l success m).2 = files m).
Proof.
  revert success m. induction l as [|p l IH]; intros success m; [done|].
  cbn [join_loop]. destruct (_path_to_data m !! p) as [pd|] eqn:Hpd.
  - rewrite (join_one_registered p m pd Hpd).
    pose proof (run_thread_pool (PathData.put None pd) (_pool m) (files m))
      as [Hshut _].
    pose proof (run_thread_shutdown (PathData.put None pd) (_pool m)
                  (files m)) as Hquiet.
    destruct (run_thread _ _ _) as [[pd1 pool1] fs1].
    cbn [fst snd] in Hshut, Hquiet.
    destruct (IH success
                {| _path_to_data := delete p (_path_to_data m);
                   _pool := pool1; files := fs1;
                   threads_created := threads_created m |})
      as (Hn & Hreg & Hs & Hq).
    cbn [_path_to_data _pool files threads_created] in *.
    split_and!; [done| |congruence|].
    + intros q pd' Hq'. apply Hreg in Hq'.
      by apply lookup_delete_Some in Hq' as [_ ?].
    + intros Hm. destruct (Hquiet Hm) as [-> ->]. by apply Hq.
  - unfold join_one. rewrite Hpd. apply IH.
Qed.

Lemma join_loop_executed (l : list string) (success : bool) (m : t) :
  Pool.executed (_pool m) `prefix_of`
    Pool.executed (_pool (join_loop l success m).2).
Proof.
  revert success m. induction l as [|p l IH]; intros success m; [done|].
  cbn [join_loop]. destruct (_path_to_data m !! p) as [pd|] eqn:Hpd.
  - rewrite (join_one_registered p m pd Hpd).
    pose proof (run_thread_pool (PathData.put None pd) (_pool m) (files m))
      as [_ Hpre].
    destruct (run_thread _ _ _) as [[pd1 pool1] fs1]. cbn [fst snd] in Hpre.
    etrans; [exact Hpre|].
    apply (IH success
             {| _path_to_data := delete p (_path_to_data m);
                _pool := pool1; files := fs1;
                threads_created := threads_created m |}).
  - unfold join_one. rewrite Hpd. apply IH.
Qed.

Lemma join_keeps (path : option string) (m : t) :
  threads_created (_join path m).2 = threads_created m
  ∧ (∀ q pd, _path_to_data (_join path m).2 !! q = Some pd →
             _path_to_data m !! q = Some pd)
  ∧ (Pool.is_shutdown (_pool m) = true →
     _pool (_join path m).2 = _pool m ∧ files (_join path m).2 = files m).
Proof.
  unfold _join.
  destruct (truthy path && bool_decide _); [done|].
  set (l := if truthy path then _ else _).
  destruct (join_loop_keeps l true m) as (Hn & Hreg & Hs & Hq).
  destruct (join_loop l true m) as [success m1]. cbn [snd] in *.
  destruct (negb (truthy path));
    cbn [_path_to_data _pool files threads_created]; [|done].
  split_and!; [done|done|]. intros Hm. destruct (Hq Hm) as [Hpool Hfs].
  split; [|done]. rewrite Hpool. unfold Pool.shutdown.
  revert Hm. destruct (_pool m) as [shut ex]. simpl. by intros ->.
Qed.

Lemma threads_ok_sub (m m' : t) :
  threads_created m' = threads_created m →
  (∀ q pd', _path_to_data m' !! q = Some pd' →
     ∃ pd, _path_to_data m !! q = Some pd
           ∧ PathData.thread pd' = PathData.thread pd) →
  threads_ok m → threads_ok m'.
Proof.
  intros Hn Hsub [Hlt Hinj]. split.
  - intros p pd' [pd [Hpd Ht]]%Hsub. rewrite Hn, Ht. by eapply Hlt.
  - intros p q pd1 pd2 [pd1' [Hp H1]]%Hsub [pd2' [Hq H2]]%Hsub Heq.
    eapply Hinj; [exact Hp|exact Hq|congruence].
Qed.

Lemma step_threads_ok (e : event) (m : t) :
  threads_ok m → threads_ok (step e m).
Proof.
  intros Hok. destruct e as [p mode|h c|path|p]; cbn [step].
  - unfold get_non_blocking_io, open_file, threads_ok in *.
    destruct (bool_decide (p ∉ dom (_path_to_data m))) eqn:Hnew;
      cbn [snd _path_to_data threads_created]; [|exact Hok].
    apply bool_decide_eq_true_1, not_elem_of_dom in Hnew.
    destruct Hok as [Hlt Hinj]. split.
    + intros q pd [[<- <-]|[Hne Hq]]%lookup_insert_Some;
        [simpl; lia|].
      specialize (Hlt q pd Hq). lia.
    + intros q q' pd pd' [[<- <-]|[Hne Hq]]%lookup_insert_Some
        [[<- <-]|[Hne' Hq']]%lookup_insert_Some Heq; [done| | |by eauto].
      * specialize (Hlt q' pd' Hq'). simpl in Heq. lia.
      * specialize (Hlt q pd Hq). simpl in Heq. lia.
  - destruct (_path_to_data m !! NonBlockingIO._path h) as [pd|] eqn:Hpd.
    + rewrite (do_call_registered h c m pd Hpd). cbn [snd].
      apply (threads_ok_sub m); [done| |done].
      unfold set_path_to_data. cbn [_path_to_data].
      intros q pd' [[<- <-]|[Hne Hq]]%lookup_insert_Some; eauto.
    + by rewrite (do_call_unregistered h c m Hpd).
  - destruct (join_keeps path m) as (Hn & Hreg & _).
    apply (threads_ok_sub m); [done| |done]. eauto.
  - unfold schedule. destruct (_path_to_data m !! p) as [pd|] eqn:Hpd;
      [|done].
    pose proof (run_thread_thread pd (_pool m) (files m)) as Ht.
    destruct (run_thread _ _ _) as [[pd1 pool1] fs1]. cbn [fst] in Ht.
    apply (threads_ok_sub m); [done| |done]. cbn [_path_to_data].
    intros q pd' [[<- <-]|[Hne Hq]]%lookup_insert_Some; eauto.
Qed.

(** X12.  Every path in the registry has a polling thread of its own:
    after any run of opens, handle calls, joins and scheduling events on a
    new manager, the registered threads were all created by the manager and
    no two registered paths have the same thread. *)
Theorem registered_threads_are_distinct (es : list event) :
  threads_ok (run es __new__).
Proof.
  induction es as [|e es IH] using rev_ind.
  - split; intros *; cbn [run foldl __new__ _path_to_data];
      by rewrite lookup_empty.
  - rewrite run_snoc. by apply step_threads_ok.
Qed.

(** *** Joining all the paths *)

Lemma join_loop_all (l : list string) (success : bool) (m : t) :
  NoDup l →
  (∀ p, p ∈ l → is_Some (_path_to_data m !! p)) →
  (join_loop l success m).1 = Return success
  ∧ ∀ q, _path_to_data (join_loop l success m).2 !! q
         = if decide (q ∈ l) then None else _path_to_data m !! q.
Proof.
  revert m. induction l as [|p l IH]; intros m Hnd Hreg.
  { split; [done|]. intros q.
    destruct (decide (q ∈ [])) as [Hq|]; [|done]. by apply elem_of_nil in Hq. }
  apply list.NoDup_cons in Hnd as [Hp Hnd].
  destruct (Hreg p) as [pd Hpd]; [apply elem_of_cons; by left|].
  cbn [join_loop]. rewrite (join_one_registered p m pd Hpd).
  destruct (run_thread _ _ _) as [[pd1 pool1] fs1].
  destruct (IH {| _path_to_data := delete p (_path_to_data m);
                  _pool := pool1; files := fs1;
                  threads_created := threads_created m |} Hnd)
    as [Hret Hlook].
  { intros q Hq. cbn [_path_to_data].
    rewrite lookup_delete_ne by (by intros ->).
    apply Hreg, elem_of_cons. by right. }
  split; [done|]. intros q. rewrite Hlook. cbn [_path_to_data].
  destruct (decide (q ∈ p :: l)) as [Hin|Hout].
  - apply elem_of_cons in Hin as [->|Hin].
    + rewrite lookup_delete_eq. by destruct (decide (p ∈ l)).
    + by destruct (decide (q ∈ l)).
  - apply not_elem_of_cons in Hout as [Hne Hout].
    destruct (decide (q ∈ l)); [done|]. by apply lookup_delete_ne.
Qed.

(** X13.  [_join()] without a path, and [_join("")] like it, joins every
    registered path and shuts the pool down: it returns [True] (the
    [except] branch of its loop is never taken), leaves the registry empty
    and the pool shut down, creates no thread, and the jobs the pool had
    run are a prefix of the jobs it has run afterwards. *)
Theorem join_without_path_joins_every_path (m : t) :
  ∃ m',
    _join None m = (Return true, m')
    ∧ _join (Some "") m = (Return true, m')
    ∧ _path_to_data m' = ∅
    ∧ Pool.is_shutdown (_pool m') = true
    ∧ threads_created m' = threads_created m
    ∧ Pool.executed (_pool m) `prefix_of` Pool.executed (_pool m').
Proof.
  unfold _join. cbn [truthy String.eqb negb andb].
  set (l := (map_to_list (_path_to_data m)).*1).
  destruct (join_loop_all l true m) as [Hret Hreg].
  { apply NoDup_fst_map_to_list. }
  { intros p [[p' pd] [-> Hin]]%list_elem_of_fmap.
    apply elem_of_map_to_list in Hin. eauto. }
  destruct (join_loop_keeps l true m) as (Hn & _).
  pose proof (join_loop_executed l true m) as Hpre.
  destruct (join_loop l true m) as [r m1]. cbn [fst snd] in *. subst r.
  eexists. split_and!; [done|done| |done|done|done].
  cbn [_path_to_data]. apply map_empty. intros q. rewrite Hreg.
  destruct (decide (q ∈ l)) as [|Hq]; [done|].
  destruct (_path_to_data m !! q) as [pd|] eqn:Hpd; [|done].
  exfalso. apply Hq. apply list_elem_of_fmap. exists (q, pd).
  split; [done|]. by apply elem_of_map_to_list.
Qed.

(** *** After the pool is shut down *)

Lemma step_shutdown (e : event) (m : t) :
  Pool.is_shutdown (_pool m) = true →
  _pool (step e m) = _pool m
  ∧ ∀ f x, files m !! f = Some x → files (step e m) !! f = Some x.
Proof.
  intros Hshut. destruct e as [p mode|h c|path|p]; cbn [step].
  - unfold get_non_blocking_io, open_file.
    split; [by destruct (bool_decide _)|].
    intros f x Hf.
    assert (Hfiles : ∀ m0 : t, files m0 = files m →
              files m0 !! f = Some x →
              <[fresh (dom (files m0)) := File.new]> (files m0) !! f
              = Some x).
    { intros m0 Hm0 Hf0. rewrite lookup_insert_ne; [done|].
      intros <-. pose proof (is_fresh (dom (files m0))) as Hfresh.
      apply Hfresh, elem_of_dom. eauto. }
    destruct (bool_decide _); cbn [snd files]; by apply Hfiles.
  - destruct (_path_to_data m !! NonBlockingIO._path h) as [pd|] eqn:Hpd.
    + by rewrite (do_call_registered h c m pd Hpd).
    + by rewrite (do_call_unregistered h c m Hpd).
  - destruct (join_keeps path m) as (_ & _ & Hq).
    destruct (Hq Hshut) as [-> ->]. done.
  - unfold schedule. destruct (_path_to_data m !! p) as [pd|]; [|done].
    destruct (run_thread_shutdown pd (_pool m) (files m) Hshut) as [Hp Hf].
    destruct (run_thread _ _ _) as [[pd1 pool1] fs1].
    cbn [fst snd] in *. by subst.
Qed.

(** X14.  Once the pool is shut down (which [_join()] without a path
    does, on the one manager of the process) no job is run any more:
    whatever is opened, written, closed, scheduled or joined afterwards,
    the pool stays shut down, the list of the jobs it has run stays as it
    is, and no file object that exists is written or closed. *)
Theorem nothing_runs_after_shutdown (m : t) (es : list event) :
  Pool.is_shutdown (_pool m) = true →
  Pool.is_shutdown (_pool (run es m)) = true
  ∧ Pool.executed (_pool (run es m)) = Pool.executed (_pool m)
  ∧ ∀ f x, files m !! f = Some x → files (run es m) !! f = Some x.
Proof.
  intros Hshut.
  assert (Hrun : _pool (run es m) = _pool m
                 ∧ ∀ f x, files m !! f = Some x →
                          files (run es m) !! f = Some x).
  { induction es as [|e es [IHp IHf]] using rev_ind; [done|].
    rewrite run_snoc.
    destruct (step_shutdown e (run es m)) as [Hp Hf]; [by rewrite IHp|].
    split; [congruence|]. auto. }
  destruct Hrun as [-> Hf]. done.
Qed.

Lemma nothing_runs_after_shutdown_witness :
  let m := (_join None sample_manager).2 in
  let handle :=
    {| NonBlockingIO._path := "q"; NonBlockingIO._mode := "wb";
       NonBlockingIO._file := 1 |} in
  let m' :=
    run [Open "q" "wb"; Call handle (NonBlockingIO.Write three_bytes);
         Call handle NonBlockingIO.Close; Join (Some "q")] m in
  Pool.executed (_pool m') = [] ∧ files m' !! 0%nat = Some File.new.
Proof.
  intros m handle m'.
  destruct (nothing_runs_after_shutdown m
              [Open "q" "wb"; Call handle (NonBlockingIO.Write three_bytes);
               Call handle NonBlockingIO.Close; Join (Some "q")])
    as (_ & Hex & Hfiles).
  - vm_compute. reflexivity.
  - split; [exact Hex|]. apply Hfiles. vm_compute. reflexivity.
Defined.

(** *** A whole session on one path *)

Lemma call_jobs_session (file : nat) (bs : list bytes)
    (fs : gmap nat File.t) (w : bytes) :
  fs !! file = Some {| File.closed := false; File.written := w |} →
  call_jobs ((FileWrite file <$> bs) ++ [FileClose file]) fs
  = (Return tt,
     <[file := {| File.closed := true; File.written := w ++ concat bs |}]>
       fs).
Proof.
  revert fs w. induction bs as [|b bs IH]; intros fs w Hf.
  { cbn [fmap list_fmap app call_jobs call_job]. unfold bind.
    cbn [call_job]. rewrite Hf. cbn [File.close File.written concat].
    by rewrite app_nil_r. }
  cbn [fmap list_fmap app call_jobs]. unfold bind at 1.
  cbn [call_job]. rewrite Hf. cbn [File.write File.closed File.written].
  rewrite (IH _ (w ++ b)) by apply lookup_insert_eq.
  rewrite insert_insert_eq. cbn [concat]. by rewrite <- app_assoc.
Qed.

Lemma session_events (p : string) (h : NonBlockingIO.t) (es : list event) :
  Forall (λ e, e = Schedule p ∨ ∃ b, e = Call h (NonBlockingIO.Write b)) es →
  ∃ bs,
    filter (λ e, is_schedule e = false) es
    = (λ b, Call h (NonBlockingIO.Write b)) <$> bs
    ∧ concat (written_by <$> es) = concat bs.
Proof.
  induction 1 as [|e es [->|[b ->]] _ (bs & Hfilter & Hbytes)].
  - by exists [].
  - exists bs. by rewrite filter_cons_False by done.
  - exists (b :: bs). rewrite filter_cons_True by done.
    cbn [fmap list_fmap written_by concat]. by rewrite Hfilter, Hbytes.
Qed.

(** X15.  A whole asynchronous session, in mode ["wb"], on a path that was
    not registered: [opena(path, "wb")] returns a handle, then bytes are
    written through the handle, then [close], then [_join(path)].
    Whenever the polling thread got to run in between, the join returns
    [True], the file object of the handle is closed and holds the written
    bytes in call order, no other file object is touched, and the registry
    is as it was before the session. *)
Theorem session_writes_in_call_order (m m0 : t) (p : string)
    (h : NonBlockingIO.t) (es : list event) :
  p ≠ "" →
  _path_to_data m !! p = None →
  Pool.is_shutdown (_pool m) = false →
  get_non_blocking_io p "wb" m = (Return h, m0) →
  Forall (λ e, e = Schedule p ∨ ∃ b, e = Call h (NonBlockingIO.Write b)) es →
  ∃ m',
    _join (Some p) (run (es ++ [Call h NonBlockingIO.Close]) m0)
    = (Return true, m')
    ∧ files m !! NonBlockingIO._file h = None
    ∧ files m'
      = <[NonBlockingIO._file h :=
            {| File.closed := true;
               File.written := concat (written_by <$> es) |}]> (files m)
    ∧ _path_to_data m' = _path_to_data m.
Proof.
  intros Hne Hnew Hrun Hopen Hes.
  unfold get_non_blocking_io, open_file in Hopen.
  rewrite bool_decide_eq_true_2 in Hopen by by apply not_elem_of_dom.
  cbn [files _path_to_data _pool threads_created] in Hopen.
  injection Hopen as <- <-. cbn [NonBlockingIO._file].
  set (file := fresh (dom (files m))).
  set (h := {| NonBlockingIO._path := p; NonBlockingIO._mode := "wb";
               NonBlockingIO._file := file |}).
  set (m0 := {| _path_to_data := _; _pool := _pool m; files := _;
                threads_created := _ |}).
  assert (Hfile : files m !! file = None)
    by apply not_elem_of_dom, is_fresh.
  assert (Hon : Forall (on_path p) (es ++ [Call h NonBlockingIO.Close])).
  { apply Forall_app. split; [|by repeat constructor].
    eapply list.Forall_impl; [exact Hes|]. by intros e [->|[b ->]]. }
  rewrite <- (join_schedule p (run _ m0)) by done.
  rewrite (schedule_run_filter p _ m0 Hon), join_schedule by done.
  rewrite list.filter_app, filter_cons_True, filter_nil by done.
  destruct (session_events p h es Hes) as (bs & -> & ->).
  assert (Hcalls :
    ((λ b, Call h (NonBlockingIO.Write b)) <$> bs)
      ++ [Call h NonBlockingIO.Close]
    = (λ hc : NonBlockingIO.t * NonBlockingIO.call, Call hc.1 hc.2)
        <$> (((λ b, (h, NonBlockingIO.Write b)) <$> bs)
               ++ [(h, NonBlockingIO.Close)])).
  { rewrite fmap_app, <- list_fmap_compose. done. }
  rewrite Hcalls.
  rewrite (run_calls p _ m0
             {| PathData.queue := []; PathData.thread := threads_created m;
                PathData.thread_status := Polling |});
    [|apply lookup_insert_eq|].
  2:{ apply Forall_app. split; [|by repeat constructor].
      apply Forall_fmap, Forall_true. done. }
  cbn [PathData.queue PathData.thread PathData.thread_status app].
  rewrite fmap_app, <- list_fmap_compose.
  rewrite (join_registered p _ _ Hne (lookup_insert_eq _ _ _)) by done.
  unfold set_path_to_data.
  cbn [_path_to_data _pool files threads_created PathData.queue m0].
  assert (Hqueue :
    ((λ hc : NonBlockingIO.t * NonBlockingIO.call,
        Some (NonBlockingIO.job_of hc.1 hc.2))
       ∘ (λ b, (h, NonBlockingIO.Write b)) <$> bs)
      ++ ((λ hc : NonBlockingIO.t * NonBlockingIO.call,
             Some (NonBlockingIO.job_of hc.1 hc.2))
            <$> [(h, NonBlockingIO.Close)])
    = Some <$> ((FileWrite file <$> bs) ++ [FileClose file])).
  { rewrite fmap_app, <- list_fmap_compose. done. }
  rewrite Hqueue.
  pose proof (call_jobs_session file bs
                (<[file := File.new]> (files m)) []
                (lookup_insert_eq _ _ _)) as Hjobs.
  rewrite poll_jobs_all by (by rewrite ?Hjobs).
  rewrite Hjobs. cbn [snd app]. eexists. split_and!; [done|done| |].
  - cbn [files]. by rewrite insert_insert_eq.
  - cbn [_path_to_data]. rewrite insert_insert_eq.
    by apply delete_insert_id.
Qed.

Lemma session_writes_in_call_order_witness :
  ∃ m',
    _join (Some "p")
      (run [Call sample_handle (NonBlockingIO.Write three_bytes);
            Schedule "p";
            Call sample_handle (NonBlockingIO.Write two_bytes);
            Call sample_handle NonBlockingIO.Close] sample_manager)
    = (Return true, m')
    ∧ files m' !! 0%nat
      = Some {| File.closed := true;
                File.written := ["a"; "b"; "c"; "d"; "e"]%byte |}.
Proof.
  destruct (session_writes_in_call_order __new__ sample_manager "p"
              sample_handle
              [Call sample_handle (NonBlockingIO.Write three_bytes);
               Schedule "p";
               Call sample_handle (NonBlockingIO.Write two_bytes)])
    as (m' & Hjoin & _ & Hfiles & _).
  - discriminate.
  - reflexivity.
  - reflexivity.
  - reflexivity.
  - constructor; [right; by eexists|]. constructor; [by left|].
    constructor; [right; by eexists|]. constructor.
  - exists m'. split; [exact Hjoin|]. rewrite Hfiles. apply lookup_insert_eq.
Defined.
End manager_runs.

(** ** Runs of the writer: block sizes and interleaved flushes *)

Section writer_blocks.
Import AzureBlobWriter.

Lemma buffered_fresh_write (self : t) (b : bytes) :
  buffered (set_chunk (Some (BytesIO.write BytesIO.new b).2) self) = b.
Proof.
  unfold buffered, set_chunk. cbn [_chunk].
  rewrite take_BytesIO_write by (simpl; lia). done.
Qed.

Lemma buffered_append (self : t) (chunk : BytesIO.t) (b : bytes) :
  buffer_ok self → _chunk self = Some chunk →
  buffered (set_chunk (Some (BytesIO.write chunk b).2) self)
  = buffered self ++ b.
Proof.
  unfold buffer_ok, buffered, set_chunk. cbn [_chunk]. intros Hok Hchunk.
  rewrite Hchunk in *. by rewrite take_BytesIO_write.
Qed.

Lemma write_blocks_ok (bound : Z) (self : t) (b : bytes) :
  0 < _chunk_size self → len b ≤ bound →
  blocks_ok bound self →
  blocks_ok bound (write b self).2
  ∧ _chunk_size (write b self).2 = _chunk_size self.
Proof.
  intros Hsize Hb (Hok & Hblocks & Hbuf).
  destruct (chunk_is_full self) eqn:Hfull.
  - rewrite (write_roll self b Hfull). cbn [snd].
    assert (Hsz : _chunk_size (flush self).2 = _chunk_size self)
      by apply flush_chunk_size.
    split; [|done]. unfold blocks_ok.
    rewrite buffered_fresh_write.
    change (_chunk_size (set_chunk ?c ?s)) with (_chunk_size s).
    change (_client (set_chunk ?c ?s)) with (_client s).
    rewrite Hsz. split_and!.
    + unfold buffer_ok, set_chunk. cbn [_chunk]. apply length_BytesIO_write.
    + destruct (flush_staged_cases self)
        as [(-> & _)|(chunk & Hchunk & Hpos & -> & _)]; [done|].
      apply Forall_app. split; [done|]. apply Forall_singleton. cbn [snd].
      split; [|done]. rewrite (len_buffered self chunk Hok Hchunk).
      unfold chunk_is_full in Hfull. rewrite Hchunk in Hfull.
      by apply Z.leb_le in Hfull.
    + pose proof (Zle_0_nat (length b)). unfold len in *. lia.
  - destruct (_chunk self) as [chunk|] eqn:Hchunk;
      [|by unfold chunk_is_full in Hfull; rewrite Hchunk in Hfull].
    rewrite (write_append self b chunk Hchunk Hfull). cbn [snd].
    split; [|done]. unfold blocks_ok.
    rewrite (buffered_append self chunk b Hok Hchunk).
    change (_chunk_size (set_chunk ?c ?s)) with (_chunk_size s).
    change (_client (set_chunk ?c ?s)) with (_client s).
    split_and!; [|done|].
    + unfold buffer_ok, set_chunk. cbn [_chunk]. apply length_BytesIO_write.
    + pose proof (len_buffered self chunk Hok Hchunk) as Hlen.
      unfold chunk_is_full in Hfull. rewrite Hchunk in Hfull.
      apply Z.leb_gt in Hfull. unfold len in *. rewrite length_app. lia.
Qed.

Lemma writes_blocks_ok (bound : Z) (ws : list bytes) (self : t) :
  0 < _chunk_size self → Forall (λ b, len b ≤ bound) ws →
  blocks_ok bound self →
  blocks_ok bound (do_calls (Write <$> ws) self).2
  ∧ _chunk_size (do_calls (Write <$> ws) self).2 = _chunk_size self.
Proof.
  revert self. induction ws as [|b ws IH]; intros self Hsize Hws Hok;
    [done|].
  apply list.Forall_cons in Hws as [Hb Hws].
  cbn [fmap list_fmap]. rewrite do_calls_cons, do_call_Write.
  destruct (write_blocks_ok bound self b Hsize Hb Hok) as [Hok' Hsz].
  destruct (IH (write b self).2) as [Hok'' Hsz'];
    [by rewrite Hsz|done|done|].
  split; [done|congruence].
Qed.

Lemma blocks_total (size : Z) (blocks : list (string * bytes)) :
  Forall (λ p, size ≤ len p.2) blocks →
  size * len blocks ≤ len (concat blocks.*2).
Proof.
  unfold len. induction 1 as [|[i d] blocks Hd _ IH]; [simpl; lia|].
  cbn [fmap list_fmap concat snd length] in *. rewrite length_app. lia.
Qed.

(** X16.  Block sizes of a run of writes and a close, for a positive block
    size: every staged block is non-empty; every block but the last holds
    at least [_chunk_size] bytes, so that there are at most
    [total / _chunk_size + 1] blocks; and no block holds more than
    [_chunk_size - 1] bytes plus the longest single write, so a block can
    exceed the block size by nearly a whole write. *)
Theorem block_sizes_of_a_run (name : string) (consumes : bool)
    (size bound : Z) (ws : list bytes) :
  0 < size →
  0 ≤ bound →
  Forall (λ b, len b ≤ bound) ws →
  let run :=
    do_calls ((Write <$> ws) ++ [Close])
      (__init__ (BlobClient.new name consumes) size) in
  let blocks := (BlobClient.staged (_client run.2)).*2 in
  Forall (λ d, 0 < len d ∧ len d ≤ size - 1 + bound) blocks
  ∧ Forall (λ d, size ≤ len d) (take (length blocks - 1) blocks)
  ∧ size * (len blocks - 1) ≤ len (concat ws).
Proof.
  intros Hsize Hbound Hws run blocks. subst run blocks.
  set (self0 := __init__ (BlobClient.new name consumes) size).
  rewrite do_calls_app, do_calls_one. cbn [do_call].
  assert (Hinit : blocks_ok bound self0).
  { unfold blocks_ok, self0, buffer_ok, buffered, __init__.
    cbn [_chunk _chunk_size _client BlobClient.new BlobClient.staged].
    split_and!; [done|done|]. unfold len. simpl. lia. }
  destruct (writes_blocks_ok bound ws self0 Hsize Hws Hinit)
    as [(Hok & Hblocks & Hbuf) Hsz].
  destruct (writes_invariant ws self0) as (_ & _ & _ & Hcontent);
    [done|done|].
  set (self := (do_calls (Write <$> ws) self0).2) in *.
  change (_chunk_size self0) with size in Hsz. rewrite Hsz in *.
  assert (Hstaged : BlobClient.staged (_client (close self).2)
                    = BlobClient.staged (_client (flush self).2)).
  { rewrite close_eq. cbn [snd]. by destruct (bool_decide _). }
  rewrite Hstaged.
  change (staged_bytes self0 ++ buffered self0 ++ concat ws)
    with (concat ws) in Hcontent.
  assert (Htotal : size * len (BlobClient.staged (_client self))
                   ≤ len (concat ws)).
  { etrans; [apply blocks_total|].
    - eapply list.Forall_impl; [exact Hblocks|]. by intros p [? _].
    - rewrite <- Hcontent. unfold staged_bytes, len.
      rewrite length_app. lia. }
  destruct (flush_staged_cases self)
    as [(-> & _)|(chunk & Hchunk & Hpos & -> & _)].
  - split_and!.
    + apply Forall_fmap. eapply list.Forall_impl; [exact Hblocks|].
      intros p [? ?]. simpl. lia.
    + apply Forall_take, Forall_fmap.
      eapply list.Forall_impl; [exact Hblocks|]. by intros p [? _].
    + unfold len in *. rewrite length_fmap. nia.
  - rewrite fmap_app. cbn [fmap list_fmap snd].
    pose proof (len_buffered self chunk Hok Hchunk) as Hlen.
    unfold BytesIO.tell in Hlen.
    split_and!.
    + apply Forall_app. split.
      * apply Forall_fmap. eapply list.Forall_impl; [exact Hblocks|].
        intros p [? ?]. simpl. lia.
      * apply Forall_singleton. lia.
    + rewrite length_app. cbn [length].
      replace (length (BlobClient.staged (_client self)).*2 + 1 - 1)%nat
        with (length (BlobClient.staged (_client self)).*2) by lia.
      rewrite take_app_length. apply Forall_fmap.
      eapply list.Forall_impl; [exact Hblocks|]. by intros p [? _].
    + unfold len in *. rewrite length_app, length_fmap. cbn [length].
      replace (Z.of_nat (length (BlobClient.staged (_client self)) + 1) - 1)
        with (Z.of_nat (length (BlobClient.staged (_client self)))) by lia.
      done.
Qed.

Lemma block_sizes_of_a_run_witness :
  let run :=
    do_calls ((Write <$> [three_bytes; two_bytes; three_bytes]) ++ [Close])
      (__init__ (BlobClient.new "blob" false) 4) in
  let blocks := (BlobClient.staged (_client run.2)).*2 in
  blocks = [three_bytes ++ two_bytes; three_bytes]
  ∧ Forall (λ d, 0 < len d ∧ len d ≤ 4 - 1 + 3) blocks.
Proof.
  split; [reflexivity|].
  apply (block_sizes_of_a_run "blob" false 4 3
           [three_bytes; two_bytes; three_bytes]); [lia|lia|].
  repeat constructor; unfold len; simpl; lia.
Defined.

(** *** Interleaved flushes and closes *)

Lemma write_consumes_stream (self : t) (b : bytes) :
  BlobClient.consumes_stream (_client (write b self).2)
  = BlobClient.consumes_stream (_client self).
Proof.
  destruct (write_state self b) as (self0 & chunk & -> & [[-> _]|[-> _]]);
    [apply flush_consumes_stream|done].
Qed.

Lemma write_blocks_nil (self : t) (b : bytes) :
  _blocks (write b self).2 = [] → _blocks self = [].
Proof.
  destruct (write_state self b) as (self0 & chunk & -> & [[-> _]|[-> _]]);
    [apply flush_blocks_nil|done].
Qed.

Lemma flush_buffered_nil (self : t) :
  BlobClient.consumes_stream (_client self) = false →
  buffered (flush self).2 = [].
Proof.
  intros Hrewind%flush_rewinds. unfold buffered.
  destruct (_chunk (flush self).2) as [chunk|]; [|done].
  by rewrite Hrewind.
Qed.

Lemma write_rewound_ok (acc : bytes) (self : t) (b : bytes) :
  rewound_ok acc self → rewound_ok (acc ++ b) (write b self).2.
Proof.
  intros (Hrewind & Hok & Hids & Hnone & Hacc). unfold rewound_ok.
  split_and!.
  - by rewrite write_consumes_stream.
  - apply write_buffer_ok.
  - by apply write_ids_ok.
  - intros Hnil%write_blocks_nil. rewrite write_committed. auto.
  - rewrite (write_content self b Hok), <- Hacc. by rewrite app_assoc.
Qed.

Lemma flush_rewound_ok (acc : bytes) (self : t) :
  rewound_ok acc self →
  rewound_ok acc (flush self).2 ∧ staged_bytes (flush self).2 = acc.
Proof.
  intros (Hrewind & Hok & Hids & Hnone & Hacc).
  assert (Hstaged : staged_bytes (flush self).2 = acc)
    by by rewrite (flush_staged_bytes self Hok).
  split; [|done]. unfold rewound_ok. split_and!.
  - by rewrite flush_consumes_stream.
  - by apply flush_buffer_ok.
  - by apply flush_ids_ok.
  - intros Hnil%flush_blocks_nil. rewrite flush_committed. auto.
  - rewrite Hstaged, (flush_buffered_nil self Hrewind). apply app_nil_r.
Qed.

Lemma close_rewound_ok (acc : bytes) (self : t) :
  rewound_ok acc self →
  rewound_ok acc (close self).2
  ∧ staged_bytes (close self).2 = acc
  ∧ BlobClient.blob_content (_client (close self).2) = acc.
Proof.
  intros Hself.
  destruct (flush_rewound_ok acc self Hself)
    as [(Hrewind & Hok & Hids & Hnone & Hacc) Hstaged].
  rewrite close_eq. cbn [snd].
  destruct (bool_decide (_blocks (flush self).2 ≠ [])) eqn:Hblocks.
  - apply bool_decide_eq_true_1 in Hblocks.
    split_and!; [|exact Hstaged|].
    + unfold rewound_ok. split_and!;
        [exact Hrewind|exact Hok|exact Hids| |exact Hacc].
      intros Hnil. by destruct Hblocks.
    + unfold BlobClient.blob_content.
      cbn [set_client _client BlobClient.commit_block_list snd
           BlobClient.staged BlobClient.committed].
      rewrite last_snoc. destruct Hids as (_ & _ & <-).
      rewrite staged_block_lookup; [done|].
      apply (ids_ok_NoDup (flush self).2).
      by apply flush_ids_ok; destruct Hself as (_ & _ & ? & _).
  - apply bool_decide_eq_false_1 in Hblocks.
    assert (Hnil : _blocks (flush self).2 = [])
      by (destruct (_blocks (flush self).2); [done|by destruct Hblocks]).
    split_and!; [done|done|].
    unfold BlobClient.blob_content. rewrite (Hnone Hnil). cbn [list.last].
    destruct Hids as (_ & _ & Hfst). rewrite Hnil in Hfst.
    apply fmap_nil_inv in Hfst. unfold staged_bytes in Hstaged.
    by rewrite Hfst in Hstaged.
Qed.

Lemma do_calls_rewound_ok (cs : list call) (acc : bytes) (self : t) :
  rewound_ok acc self → rewound_ok (acc ++ written cs) (do_calls cs self).2.
Proof.
  revert acc self. induction cs as [|c cs IH]; intros acc self Hself.
  { cbn [written do_calls]. by rewrite app_nil_r. }
  rewrite do_calls_cons. destruct c as [b| |].
  - rewrite do_call_Write. cbn [written]. rewrite app_assoc.
    by apply IH, write_rewound_ok.
  - cbn [written do_call]. by apply IH, flush_rewound_ok.
  - cbn [written do_call]. by apply IH, close_rewound_ok.
Qed.

Lemma init_rewound_ok (name : string) (size : Z) :
  rewound_ok [] (__init__ (BlobClient.new name false) size).
Proof.
  unfold rewound_ok. split_and!; done.
Qed.

Lemma run_commits_written (name : string) (size : Z) (cs : list call) :
  let run :=
    do_calls (cs ++ [Close]) (__init__ (BlobClient.new name false) size) in
  concat (BlobClient.staged (_client run.2)).*2 = written cs
  ∧ BlobClient.blob_content (_client run.2) = written cs.
Proof.
  intros run. subst run. rewrite do_calls_app, do_calls_one. cbn [do_call].
  pose proof (do_calls_rewound_ok cs [] _ (init_rewound_ok name size))
    as Hrun.
  destruct (close_rewound_ok _ _ Hrun) as (_ & Hstaged & Hcontent).
  done.
Qed.

(** X17.  With a client whose [stage_block] leaves the stream where the
    writer put it, writes may be interleaved with explicit flushes and
    closes at will: after any run of [write], [flush] and [close] calls on
    a new writer that ends with [close], the staged blocks, in order, and
    the committed blob both hold exactly the written bytes in write order,
    for every block size (zero and negative sizes too). *)
Theorem any_run_commits_what_was_written (name : string) (size : Z)
    (cs : list call) :
  let run :=
    do_calls (cs ++ [Close]) (__init__ (BlobClient.new name false) size) in
  run.1 = Return tt
  ∧ concat (BlobClient.staged (_client run.2)).*2 = written cs
  ∧ BlobClient.blob_content (_client run.2) = written cs.
Proof.
  intros run. split; [apply do_calls_returns|].
  apply run_commits_written.
Qed.

(** X18.  With a client whose [stage_block] leaves the stream at the end
    of the bytes it sent, an explicit [flush()] on a buffer that is not
    full does not empty it: the next write is appended after the bytes
    already staged, and the next flush stages them a second time, in a
    block that holds the old bytes followed by the new ones. *)
Theorem flush_then_write_stages_the_buffer_twice (self : t)
    (chunk : BytesIO.t) (b : bytes) :
  BlobClient.consumes_stream (_client self) = true →
  _chunk self = Some chunk →
  buffer_ok self →
  0 < BytesIO.tell chunk →
  BytesIO.tell chunk < _chunk_size self →
  BlobClient.staged (_client (do_calls [Flush; Write b; Flush] self).2)
  = BlobClient.staged (_client self)
    ++ [(block_id_of (_chunk_idx self + 1), buffered self);
        (block_id_of (_chunk_idx self + 2), buffered self ++ b)].
Proof.
  intros Hconsumes Hchunk Hok Hpos Hsize.
  rewrite !do_calls_cons, do_call_Write. cbn [do_calls do_call ret snd].
  pose proof (len_buffered self chunk Hok Hchunk) as Hlen.
  unfold BytesIO.tell, len in *.
  assert (Hne : BytesIO.pos chunk ≠ 0%nat) by lia.
  pose proof (flush_buffer_ok self Hok) as Hok1.
  rewrite (flush_stage self chunk Hchunk Hne) in *. cbn [snd] in *.
  rewrite Hconsumes in *.
  set (chunk1 := {| BytesIO.buf := BytesIO.buf chunk;
                    BytesIO.pos := length (buffered self) |}) in *.
  set (self1 := {| _client := _; _chunk_size := _chunk_size self;
                   _chunk_idx := _; _chunk := Some chunk1;
                   _blocks := _ |}) in *.
  assert (Hbuf1 : buffered self1 = buffered self).
  { unfold buffered at 1. cbn [self1 _chunk chunk1 BytesIO.pos BytesIO.buf].
    unfold buffered. rewrite Hchunk, length_take.
    unfold buffer_ok in Hok. rewrite Hchunk in Hok.
    by rewrite Nat.min_l by done. }
  assert (Hfull : chunk_is_full self1 = false).
  { unfold chunk_is_full. cbn [self1 _chunk _chunk_size].
    apply Z.leb_gt. unfold BytesIO.tell. cbn [chunk1 BytesIO.pos]. lia. }
  rewrite (write_append self1 b chunk1 eq_refl Hfull). cbn [snd].
  set (self2 := set_chunk (Some (BytesIO.write chunk1 b).2) self1).
  assert (Hbuf2 : buffered self2 = buffered self ++ b).
  { unfold self2. rewrite (buffered_append self1 chunk1 b Hok1 eq_refl).
    by rewrite Hbuf1. }
  rewrite (flush_stage self2 (BytesIO.write chunk1 b).2 eq_refl).
  2:{ cbn [BytesIO.write snd BytesIO.pos chunk1]. lia. }
  cbn [snd _client BlobClient.staged]. rewrite Hbuf2.
  cbn [self2 set_chunk _client self1 BlobClient.staged _chunk_idx].
  rewrite <- app_assoc. cbn [app].
  by replace (_chunk_idx self + 1 + 1) with (_chunk_idx self + 2) by lia.
Qed.

Lemma flush_then_write_stages_the_buffer_twice_witness :
  let self :=
    (write three_bytes (__init__ (BlobClient.new "blob" true) 4)).2 in
  BlobClient.staged
    (_client (do_calls [Flush; Write two_bytes; Flush] self).2)
  = [("MDAwMDA=", three_bytes); ("MDAwMDE=", three_bytes ++ two_bytes)].
Proof.
  intros self.
  apply (flush_then_write_stages_the_buffer_twice self
           {| BytesIO.buf := three_bytes; BytesIO.pos := 3 |} two_bytes).
  - reflexivity.
  - reflexivity.
  - vm_compute. lia.
  - reflexivity.
  - reflexivity.
Defined.

(** X19.  What is written can be read back: when the service serves the
    blob that a run of calls ending in [close] has committed, in non-empty
    chunks of any sizes, [read(-1)] on a reader with a positive chunk size
    returns exactly the written bytes and leaves nothing unread. *)
Theorem written_bytes_are_read_back (name : string) (size : Z)
    (cs : list call) (chunks : list bytes) (chunk_size : Z) :
  0 < chunk_size →
  Forall (λ c, c ≠ []) chunks →
  concat chunks
  = BlobClient.blob_content
      (_client (do_calls (cs ++ [Close])
                  (__init__ (BlobClient.new name false) size)).2) →
  ∃ reader,
    AzureBlobReader.read (-1) (AzureBlobReader.__init__ chunks chunk_size)
    = Some (Return (written cs), reader)
    ∧ AzureBlobReader.unread reader = [].
Proof.
  intros Hsize Hchunks Hblob.
  destruct (run_commits_written name size cs) as [_ Hcontent].
  cbv zeta in Hcontent. rewrite Hcontent in Hblob.
  destruct (readall_spec (AzureBlobReader.__init__ chunks chunk_size)
              (init_wf chunks chunk_size))
    as (out & reader & Hread & _ & Hunread & _ & _ & Hend).
  specialize (Hend Hsize Hchunks). exists reader. split; [|done].
  change (AzureBlobReader.read (-1) ?r) with (AzureBlobReader.readall r).
  rewrite Hread. rewrite Hend, app_nil_r in Hunread.
  change (AzureBlobReader.unread (AzureBlobReader.__init__ chunks chunk_size))
    with (concat chunks) in Hunread.
  congruence.
Qed.

Lemma written_bytes_are_read_back_witness :
  ∃ reader,
    AzureBlobReader.read (-1)
      (AzureBlobReader.__init__ [["a"; "b"]; ["c"; "d"]; ["e"]]%byte 4)
    = Some (Return (three_bytes ++ two_bytes), reader)
    ∧ AzureBlobReader.unread reader = [].
Proof.
  apply (written_bytes_are_read_back "blob" 4
           [Write three_bytes; Flush; Write two_bytes]
           [["a"; "b"]; ["c"; "d"]; ["e"]]%byte 4).
  - lia.
  - repeat constructor; discriminate.
  - reflexivity.
Defined.
End writer_blocks.

(** ** The reader: how often the chunk iterator is advanced *)

Section reader_fetches.
Import AzureBlobReader.

Lemma take_nonempty {A} (n : nat) (l : list A) :
  (0 < n)%nat → l ≠ [] → take n l ≠ [].
Proof. destruct n, l; [lia|lia|done|done]. Qed.

(** A call of [_get_chunk_data] with a positive size advances the iterator
    without taking a chunk exactly when it returns no data. *)
Lemma get_chunk_data_count (self : t) (size : Z) :
  wf self → 0 < size →
  Forall (λ c, c ≠ []) (ChunkIter.pending (_chunk_iter self)) →
  ∃ data self1,
    _get_chunk_data size self = (Return data, self1)
    ∧ (ChunkIter.next_calls (_chunk_iter self1)
       + length (ChunkIter.pending (_chunk_iter self1))
       = ChunkIter.next_calls (_chunk_iter self)
         + length (ChunkIter.pending (_chunk_iter self))
         + (if decide (data = []) then 1 else 0))%nat.
Proof.
  intros Hwf Hsize Hne.
  destruct (get_chunk_data_positive self size Hwf Hsize)
    as [(chunk & _ & Hchunk & Hpos & ->)
       |[(chunk & rest & _ & Hpending & ->)|(_ & Hpending & ->)]].
  - eexists _, _. split; [done|]. cbn [set_chunk_pos _chunk_iter].
    rewrite decide_False; [lia|].
    apply take_nonempty; [lia|]. intros Hnil%(f_equal length).
    rewrite length_drop in Hnil. unfold len in Hpos. simpl in Hnil. lia.
  - eexists _, _. split; [done|].
    cbn [_chunk_iter ChunkIter.next_calls ChunkIter.pending].
    rewrite Hpending in *. apply list.Forall_cons in Hne as [Hchunk _].
    rewrite decide_False by (apply take_nonempty; [lia|done]).
    cbn [length]. lia.
  - eexists _, _. split; [done|].
    cbn [set_chunk_iter _chunk_iter ChunkIter.next_calls ChunkIter.pending].
    rewrite Hpending. cbn [length]. rewrite decide_True by done. lia.
Qed.

Lemma readinto_loop_count (fuel : nat) (size : Z) (data stream : bytes)
    (self : t) (out : bytes) (self' : t) :
  wf self → 0 < size →
  Forall (λ c, c ≠ []) (ChunkIter.pending (_chunk_iter self)) →
  readinto_loop fuel size data stream self = Some (Return out, self') →
  (ChunkIter.next_calls (_chunk_iter self')
   + length (ChunkIter.pending (_chunk_iter self'))
   = ChunkIter.next_calls (_chunk_iter self)
     + length (ChunkIter.pending (_chunk_iter self))
     + (if decide (data = []) then 0 else 1))%nat.
Proof.
  revert data stream self.
  induction fuel as [|fuel IH]; intros data stream self Hwf Hsize Hne;
    [done|].
  cbn [readinto_loop]. destruct data as [|b data].
  { change (0 <? len (@nil byte)) with false. cbn match.
    intros [= _ <-]. rewrite decide_True by done. lia. }
  change (0 <? len (b :: data)) with true. cbn match.
  destruct (get_chunk_data_count self size Hwf Hsize Hne)
    as (data1 & self1 & Hget & Hcount).
  destruct (get_chunk_data_spec self size Hwf)
    as (data1' & self1' & Hget' & Hwf1 & _ & _ & Hsuffix).
  rewrite Hget in Hget'. injection Hget' as <- <-.
  rewrite Hget. intros Hloop.
  apply IH in Hloop; [|done|done|by apply (suffix_Forall _ _ _ Hsuffix)].
  rewrite decide_False by done.
  destruct (decide (data1 = [])); lia.
Qed.

(** X20.  [read(-1)] on a reader between two calls, with a positive chunk
    size and no empty chunk left in the download, returns all the unread
    bytes, takes every remaining chunk from the iterator exactly once and
    advances the iterator once more, which is the call that ends the
    download: [next] is called once per remaining chunk plus one. *)
Theorem read_all_fetches_each_chunk_once (self : t) :
  wf self →
  0 < _chunk_size self →
  Forall (λ c, c ≠ []) (ChunkIter.pending (_chunk_iter self)) →
  ∃ self',
    read (-1) self = Some (Return (unread self), self')
    ∧ ChunkIter.pending (_chunk_iter self') = []
    ∧ ChunkIter.next_calls (_chunk_iter self')
      = (ChunkIter.next_calls (_chunk_iter self)
         + length (ChunkIter.pending (_chunk_iter self)) + 1)%nat.
Proof.
  intros Hwf Hsize Hne.
  destruct (readall_spec self Hwf)
    as (out & self' & Hread & _ & Hunread & _ & Hsuffix & Hend).
  specialize (Hend Hsize Hne). rewrite Hend, app_nil_r in Hunread.
  subst out. exists self'.
  change (read (-1) self) with (readall self).
  split; [done|].
  assert (Hpending : ChunkIter.pending (_chunk_iter self') = []).
  { pose proof (suffix_Forall _ _ _ Hsuffix Hne) as Hne'.
    unfold unread in Hend. apply app_eq_nil in Hend as [_ Hconcat].
    destruct (ChunkIter.pending (_chunk_iter self')) as [|c rest]; [done|].
    apply list.Forall_cons in Hne' as [Hc _]. simpl in Hconcat.
    by apply app_eq_nil in Hconcat as [? _]. }
  split; [done|].
  unfold readall, readinto in Hread.
  destruct (get_chunk_data_count self (_chunk_size self) Hwf Hsize Hne)
    as (data & self1 & Hget & Hcount).
  destruct (get_chunk_data_spec self (_chunk_size self) Hwf)
    as (data' & self1' & Hget' & Hwf1 & _ & _ & Hsuffix1).
  rewrite Hget in Hget'. injection Hget' as <- <-.
  rewrite Hget in Hread.
  apply readinto_loop_count in Hread;
    [|done|done|by apply (suffix_Forall _ _ _ Hsuffix1)].
  rewrite Hpending in Hread. cbn [length] in Hread.
  destruct (decide (data = [])); lia.
Qed.

Lemma read_all_fetches_each_chunk_once_witness :
  ∃ self',
    read (-1) (__init__ [three_bytes; two_bytes] 4)
    = Some (Return (three_bytes ++ two_bytes), self')
    ∧ ChunkIter.next_calls (_chunk_iter self') = 3%nat.
Proof.
  destruct (read_all_fetches_each_chunk_once
              (__init__ [three_bytes; two_bytes] 4))
    as (self' & Hread & _ & Hcalls).
  - apply init_wf.
  - reflexivity.
  - repeat constructor; discriminate.
  - exists self'. split; [exact Hread|exact Hcalls].
Defined.

(** X21.  With a chunk size of zero, [readinto] asks for zero bytes, gets
    none and stops at once: [read(-1)] returns no byte and leaves the
    reader as it was, whatever is still unread. *)
Theorem read_all_with_zero_chunk_size (self : t) (stream : bytes) :
  _chunk_size self = 0 →
  readinto stream self = Some (Return stream, self)
  ∧ read (-1) self = Some (Return [], self).
Proof.
  intros Hsize.
  assert (Hinto : ∀ stream, readinto stream self
                            = Some (Return stream, self)).
  { intros s. unfold readinto. rewrite Hsize, get_chunk_data_0. done. }
  split; [apply Hinto|]. change (read (-1) self) with (readinto [] self).
  apply Hinto.
Qed.

Lemma read_all_with_zero_chunk_size_witness :
  read (-1) (__init__ [three_bytes] 0)
  = Some (Return [], __init__ [three_bytes] 0)
  ∧ unread (__init__ [three_bytes] 0) = three_bytes.
Proof.
  split; [|reflexivity].
  apply (read_all_with_zero_chunk_size (__init__ [three_bytes] 0) []).
  reflexivity.
Defined.
End reader_fetches.
